(** * ExtensionsAutoProfiler: session table and CPU-profile aggregation

    A shallow embedding of
    [src/vs/workbench/parts/extensions/electron-browser/extensionsAutoProfiler.ts].

    - JavaScript numbers are IEEE 754 doubles.  Those that hold microsecond
      counts ([deltas], [startTime], [endTime], [total]) are integers and are
      modelled by [Z]: below [2^53] a double holds an integer, a sum and a
      difference of integers exactly.  A quotient is not exact: it is the
      double nearest to the exact quotient, [round53] of a rational ([Q]).
      The results of [Math.round] live in [number Z], which adds the three
      non-finite values a division by zero produces.
    - The slices are objects: [data] is an array of references into a store
      of slice objects, read and written by index as the merge loop does, so
      that [data[anchor] = data[i]] shares the object and
      [data[anchor].total += ...] updates it in place.
    - [_session] is a finite map from targets to cancellation tokens; the
      asynchronous handler is a transition system whose steps are the turns
      of the event loop between two suspension points. *)

From Stdlib Require Import ZArith QArith Qround Qabs Qpower Lqa Permutation Sorted.
From Stdlib Require Import Floats.
From stdpp Require Import base list strings gmap sorting.

Local Open Scope Z_scope.
#[local] Set Warnings "-clear-no-such-hyp".

(** ** JavaScript numbers *)

Inductive number (A : Type) : Type :=
  | Finite (a : A)
  | PosInfinity
  | NegInfinity
  | NaN.
Arguments Finite {A} a.
Arguments PosInfinity {A}.
Arguments NegInfinity {A}.
Arguments NaN {A}.

(** [2^e], for any integer [e]. *)
Definition pow2 (e : Z) : Q := Qpower 2 e.

(** The integer nearest to [y]; halfway between two integers, the even one. *)
Definition round_half_even (y : Q) : Z :=
  let f := Qfloor y in
  match Qcompare (y - inject_Z f) (1 # 2) with
  | Lt => f
  | Gt => f + 1
  | Eq => if Z.even f then f else f + 1
  end.

(** The weight [2^e] of the last of the 53 bits of the significand of a
    double near [x]: the [e] with [2^(e+52) <= |x| < 2^(e+53)]. *)
Definition ulp_exponent (x : Q) : Z :=
  let k := Z.log2 (Z.abs (Qnum x)) - Z.log2 (Zpos (Qden x)) - 53 in
  if Qle_bool (pow2 (k + 53)) (Qabs x) then k + 1 else k.

(** The double nearest to [x]: round to nearest, ties to even, on a 53-bit
    significand.  The range of the exponent is not bounded here; the
    quotients of this program, of operands that are integers below [2^53]
    or a hundredth of one, neither overflow nor fall among the subnormal
    numbers.  [double_division_agrees] compares it with the doubles of the
    machine. *)
Definition round53 (x : Q) : Q :=
  if Qeq_bool x 0 then 0%Q
  else Qred (inject_Z (round_half_even (x / pow2 (ulp_exponent x)))
             * pow2 (ulp_exponent x)).

(** [a / b] for an integer [a] and a double [b] that is never [-0]. *)
Definition js_div (a : Z) (b : Q) : number Q :=
  if Qeq_bool b 0 then
    match a ?= 0 with
    | Gt => PosInfinity
    | Lt => NegInfinity
    | Eq => NaN
    end
  else Finite (round53 (inject_Z a / b)).

(** [Math.round]: the nearest integer, a tie going towards [+Infinity]. *)
Definition Math_round (x : number Q) : number Z :=
  match x with
  | Finite q => Finite (Qfloor (q + (1 # 2))%Q)
  | PosInfinity => PosInfinity
  | NegInfinity => NegInfinity
  | NaN => NaN
  end.

(** [a < b] *)
Definition js_lt (a b : number Z) : bool :=
  match a, b with
  | NaN, _ | _, NaN => false
  | Finite x, Finite y => x <? y
  | Finite _, PosInfinity => true
  | NegInfinity, Finite _ => true
  | NegInfinity, PosInfinity => true
  | _, _ => false
  end.

(** [a >= b] *)
Definition js_ge (a b : number Z) : bool :=
  match a, b with
  | NaN, _ | _, NaN => false
  | Finite x, Finite y => y <=? x
  | PosInfinity, _ => true
  | _, NegInfinity => true
  | _, _ => false
  end.

(** [a == b] *)
Definition js_eq (a b : number Z) : bool :=
  match a, b with
  | Finite x, Finite y => x =? y
  | PosInfinity, PosInfinity => true
  | NegInfinity, NegInfinity => true
  | _, _ => false
  end.

Definition is_NaN {A} (a : number A) : bool :=
  match a with NaN => true | _ => false end.

(** ** Data *)

Module NamedSlice.
Record t : Type := mk { id : string; total : Z; percentage : number Z }.
End NamedSlice.
Abbreviation NamedSlice := NamedSlice.t.

Definition set_total (s : NamedSlice) (v : Z) : NamedSlice :=
  NamedSlice.mk (NamedSlice.id s) v (NamedSlice.percentage s).

Definition set_percentage (s : NamedSlice) (p : number Z) : NamedSlice :=
  NamedSlice.mk (NamedSlice.id s) (NamedSlice.total s) p.

(** [IExtensionHostProfile]; [data] is the opaque payload that is
    serialised to disk. *)
Record IExtensionHostProfile : Type := {
  startTime : Z;
  endTime : Z;
  deltas : list Z;
  ids : list string;
  data : string
}.

(** The invariant of the interface: [ids] and [deltas] are index-aligned. *)
Definition aligned (profile : IExtensionHostProfile) : Prop :=
  length (ids profile) = length (deltas profile).

(** ** Sorting

    [Array.prototype.sort(comparefn)]: [a] stays in front of [b] when
    [comparefn a b <= 0].  The model is a stable insertion sort; the merge
    that follows only depends on the result being an ordered rearrangement
    of the array. *)

Section Sort.
Context {A : Type} (comparefn : A → A → Z).

Fixpoint sort_insert (x : A) (l : list A) : list A :=
  match l with
  | [] => [x]
  | y :: l' => if comparefn x y <=? 0 then x :: l else y :: sort_insert x l'
  end.

Definition sort (l : list A) : list A := foldr sort_insert [] l.
End Sort.

(** Modelled from the spec: [String.prototype.localeCompare] is a builtin of
    the host and not part of the repository; the spec's "lexicographic
    string order" is taken for it, with the results -1, 0 and 1. *)
Definition localeCompare (a b : string) : Z :=
  match String.compare a b with
  | Lt => -1
  | Eq => 0
  | Gt => 1
  end.

(** ** [_processCpuProfile]: building and merging the slices *)

(** A slice object is addressed by its position in the store. *)
Definition ref : Type := nat.
Abbreviation store := (list NamedSlice).

(** Lines 91-96: one object per index of [profile.ids], pushed in order.
    An index past the end of [deltas] lies outside the interface invariant
    [aligned]. *)
Definition build (profile : IExtensionHostProfile) : store * list ref :=
  (imap (λ i id, NamedSlice.mk id (default 0 (deltas profile !! i)) (Finite 0))
        (ids profile),
   seq 0 (length (ids profile))).

(** Line 100: [(a, b) => a.id.localeCompare(b.id)]. *)
Definition by_id (h : store) (a b : ref) : Z :=
  match h !! a, h !! b with
  | Some x, Some y => localeCompare (NamedSlice.id x) (NamedSlice.id y)
  | _, _ => 0
  end.

(** Lines 102-107: the body of the merge loop, on [(anchor, data)] and the
    store.  The loop keeps [anchor < i < data.length] and every reference
    leads to an object, so the two fall-through branches are never taken
    ([merge_steps_spec]). *)
Definition merge_step (st : nat * list ref * store) (i : nat)
  : nat * list ref * store :=
  let '(anchor, data, h) := st in
  match data !! anchor, data !! i with
  | Some ra, Some ri =>
      match h !! ra, h !! ri with
      | Some a, Some d =>
          if String.eqb (NamedSlice.id a) (NamedSlice.id d)
          then (anchor, data,
                <[ra := set_total a (NamedSlice.total a + NamedSlice.total d)]> h)
          else (S anchor, <[S anchor := ri]> data, h)
      | _, _ => st
      end
  | _, _ => st
  end.

(** Lines 99-109: sort, [for (let i = 1; i < data.length; i++)], then
    [data.slice(0, anchor + 1)]. *)
Definition merge_loop (h : store) (data : list ref) : nat * list ref * store :=
  fold_left merge_step (seq 1 (length data - 1)) (0%nat, data, h).

Definition merge (h : store) (data : list ref) : store * list ref :=
  let '(anchor, data', h') := merge_loop h (sort (by_id h) data) in
  (h', take (S anchor) data').

(** ** Percentages and the top slice *)

(** Lines 116-119: the body of [for (const slice of data)]. *)
Definition scan_step (percentage : Q) (st : store * option ref) (r : ref)
  : store * option ref :=
  let '(h, top) := st in
  match h !! r with
  | Some slice =>
      let p := Math_round (js_div (NamedSlice.total slice) percentage) in
      let h' := <[r := set_percentage slice p]> h in
      match top with
      | None => (h', Some r)
      | Some t =>
          match h' !! t with
          | Some ts =>
              if js_lt (NamedSlice.percentage ts) p then (h', Some r)
              else (h', Some t)
          | None => (h', top)
          end
      end
  | None => st
  end.

Definition scan (percentage : Q) (h : store) (data : list ref)
  : store * option ref :=
  fold_left (scan_step percentage) data (h, None).

(** The objects an array of references points to. *)
Definition slices (h : store) (data : list ref) : list NamedSlice :=
  omap (λ r, h !! r) data.

(** Line 113: [duration / 100]. *)
Definition percentage_unit (duration : Z) : Q := round53 (inject_Z duration / 100).

(** Line 116 for a duration that is not zero:
    [Math.round(total / percentage)]. *)
Definition share_percent (total duration : Z) : Z :=
  Qfloor (round53 (inject_Z total / percentage_unit duration) + (1 # 2)).

(** The doubles of the machine, as Rocq's primitive floats: an integer below
    [2^53] as a double, and the rational a finite double stands for. *)
Definition double_of_Z (z : Z) : float :=
  if z <? 0 then PrimFloat.opp (PrimFloat.of_uint63 (Uint63.of_Z (- z)))
  else PrimFloat.of_uint63 (Uint63.of_Z z).

Definition Q_of_double (f : float) : option Q :=
  match Prim2SF f with
  | S754_zero _ => Some 0%Q
  | S754_finite sign m e =>
      Some (Qred ((if sign then - (1) else 1) * inject_Z (Zpos m) * pow2 e))
  | _ => None
  end.

(** [total / (duration / 100)] of lines 113 and 116, divided by the machine. *)
Definition machine_quotient (total duration : Z) : option Q :=
  Q_of_double
    (PrimFloat.div (double_of_Z total)
       (PrimFloat.div (double_of_Z duration) (double_of_Z 100))).

(** Whether [round53] gives the quotient of the machine. *)
Definition agrees_with_machine (input : Z * Z) : bool :=
  match machine_quotient input.1 input.2 with
  | Some q => Qeq_bool q (round53 (inject_Z input.1 / percentage_unit input.2))
  | None => false
  end.

(** All pairs of a total below 64 and a duration from 1 to 64. *)
Definition small_operands : list (Z * Z) :=
  total ← seqZ 0 64; duration ← seqZ 1 64; [(total, duration)].

(** Lines 91-120: the merged slices with their percentages, and [top]. *)
Definition analyse (profile : IExtensionHostProfile)
  : list NamedSlice * option NamedSlice :=
  let '(h0, data0) := build profile in
  let '(h1, data) := merge h0 data0 in
  let duration := endTime profile - startTime profile in
  let percentage := percentage_unit duration in
  let '(h2, top) := scan percentage h1 data in
  (slices h2 data, top ≫= (λ t, h2 !! t)).

(** The slices after the merge, before any percentage is assigned. *)
Definition merged (profile : IExtensionHostProfile) : list NamedSlice :=
  let '(h0, data0) := build profile in
  let '(h1, data) := merge h0 data0 in
  slices h1 data.

(** ** The same computation on values

    What the loops above compute, written as functions on lists of slices;
    [analyse_values] relates the two. *)

(** Lines 91-96 as a list of slice values. *)
Definition candidates (profile : IExtensionHostProfile) : list NamedSlice :=
  fst (build profile).

(** The comparison of line 100 on slice values. *)
Definition slice_cmp (a b : NamedSlice) : Z :=
  localeCompare (NamedSlice.id a) (NamedSlice.id b).

(** Adjacent slices with the id of [cur] are added into [cur]. *)
Fixpoint merge_from (cur : NamedSlice) (rest : list NamedSlice) : list NamedSlice :=
  match rest with
  | [] => [cur]
  | x :: rest' =>
      if String.eqb (NamedSlice.id cur) (NamedSlice.id x)
      then merge_from (set_total cur (NamedSlice.total cur + NamedSlice.total x)) rest'
      else cur :: merge_from x rest'
  end.

Definition merge_adjacent (l : list NamedSlice) : list NamedSlice :=
  match l with
  | [] => []
  | x :: rest => merge_from x rest
  end.

(** Line 116 on one slice. *)
Definition rate (percentage : Q) (s : NamedSlice) : NamedSlice :=
  set_percentage s (Math_round (js_div (NamedSlice.total s) percentage)).

(** Lines 117-119 on one slice. *)
Definition pick_step (top : option NamedSlice) (s : NamedSlice) : option NamedSlice :=
  match top with
  | None => Some s
  | Some t =>
      if js_lt (NamedSlice.percentage t) (NamedSlice.percentage s)
      then Some s else Some t
  end.

Definition pick (l : list NamedSlice) : option NamedSlice :=
  fold_left pick_step l None.

(** The references of [data] lead to the slices [vs], in order. *)
Definition points_to (h : store) (data : list ref) (vs : list NamedSlice) : Prop :=
  Forall2 (λ r s, h !! r = Some s) data vs.

Definition id_lt (a b : string) : Prop := localeCompare a b < 0.
Definition id_le (a b : string) : Prop := localeCompare a b <= 0.

Definition slice_le (a b : NamedSlice) : Prop :=
  id_le (NamedSlice.id a) (NamedSlice.id b).

Definition slice_lt (a b : NamedSlice) : Prop :=
  id_lt (NamedSlice.id a) (NamedSlice.id b).

(** ** Sums of costs *)

Definition sumZ (l : list Z) : Z := foldr Z.add 0 l.

(** The sum of all [deltas[i]] whose [ids[i]] is [i]. *)
Definition delta_sum (i : string) (profile : IExtensionHostProfile) : Z :=
  sumZ (snd <$> filter (λ x, fst x = i) (zip (ids profile) (deltas profile))).

(** The sum of the totals of the slices of [l] whose id is [i]. *)
Definition total_of (i : string) (l : list NamedSlice) : Z :=
  sumZ (NamedSlice.total <$> filter (λ s, NamedSlice.id s = i) l).

(** ** Reporting (lines 122-175) *)

Module IExtensionDescription.
Record t : Type := mk { id : string; displayName : option string; name : string }.
End IExtensionDescription.
Abbreviation IExtensionDescription := IExtensionDescription.t.

(** Object identities. *)
Definition ICpuProfilerTarget : Type := nat.
Definition CancellationTokenSource : Type := nat.
Definition ProfileSession : Type := nat.

(** The calls by which the profiler acts on its collaborators.  Calls that
    only ask ([canProfileExtensionHost], [getExtension], [generateUuid],
    [tmpdir], [Math.random]) are not listed here: what they answer comes
    with the event or with [Env], and [getExtension_calls] gives the calls
    of [getExtension]. *)
Inductive effect : Type :=
  | StartExtensionHostProfile (target : ICpuProfilerTarget)
  | Cancel (token : CancellationTokenSource)
  | Stop (session : ProfileSession)
  | OnUnexpectedError
  | SetUnresponsiveProfile (extensionId : string) (profile : IExtensionHostProfile)
  | NotificationPrompt (extensionName : string) (seconds : Z) (uuid : string)
  | WriteFile (path : string) (content : string)
  | LogWarn (topId : string) (topPercentage : number Z) (duration : Z)
            (path : string) (data : list NamedSlice)
  | PublicLog (uuid : string) (duration : Z) (data : list NamedSlice) (prompt : bool).

(** What the host answers while one profile is processed. *)
Record Env : Type := {
  generateUuid : string;
  getExtension : string → option IExtensionDescription;
  tmpdir : string;
  random_hex : string;
  writeFile_ok : bool
}.

(** Line 135. *)
Definition prompt_warranted (top : NamedSlice) : bool :=
  js_ge (NamedSlice.percentage top) (Finite 99)
  && (5000000 <=? NamedSlice.total top).

(** [extension.displayName || extension.name] *)
Definition display_name (extension : IExtensionDescription) : string :=
  match IExtensionDescription.displayName extension with
  | Some s => if String.eqb s "" then IExtensionDescription.name extension else s
  | None => IExtensionDescription.name extension
  end.

(** Lines 83-176.  The callback of [getExtension(top.id).then] and its
    [await writeFile] run in later turns of the event loop; they touch no
    state of the profiler, and their calls are listed here in order.  A
    failed [writeFile] ends the callback. *)
Definition _processCpuProfile (env : Env) (profile : IExtensionHostProfile)
  : list effect :=
  let '(data_, top) := analyse profile in
  let id := generateUuid env in
  let duration := endTime profile - startTime profile in
  match top with
  | None => []
  | Some top =>
      match getExtension env (NamedSlice.id top) with
      | None => []
      | Some extension =>
          let prompt := prompt_warranted top in
          let path :=
            (tmpdir env ++ "/exthost-" ++ random_hex env ++ ".cpuprofile")%string in
          [SetUnresponsiveProfile (IExtensionDescription.id extension) profile]
          ++ (if prompt
              then [NotificationPrompt (display_name extension)
                      (Qfloor (round53 (inject_Z duration / 1000000) + (1 # 2))%Q)
                      id]
              else [])
          ++ [WriteFile path (data profile)]
          ++ (if writeFile_ok env
              then [LogWarn (NamedSlice.id top) (NamedSlice.percentage top)
                      duration path data_;
                    PublicLog id duration data_ prompt]
              else [])
      end
  end.

(** Lines 122-126: the calls of [getExtension], by the id asked for.  The
    call is made once there is a top slice, before anything is reported. *)
Definition getExtension_calls (profile : IExtensionHostProfile) : list string :=
  match snd (analyse profile) with
  | Some top => [NamedSlice.id top]
  | None => []
  end.

(** ** The session table and the handler (lines 25-81) *)

(** Where a suspended call of [_onDidChangeResponsiveChange] waits. *)
Inductive pc : Type :=
  | AwaitStart                              (* line 57 *)
  | AwaitWait (session : ProfileSession)    (* line 67 *)
  | AwaitStop (session : ProfileSession).   (* line 74 *)

Record state : Type := mkState {
  _session : gmap ICpuProfilerTarget CancellationTokenSource;
  (* the calls of the handler that wait at an [await], by their token *)
  suspended : gmap CancellationTokenSource (ICpuProfilerTarget * pc);
  cancelled : gset CancellationTokenSource;
  next_token : CancellationTokenSource;
  trace : list effect
}.

Definition initial : state := mkState ∅ ∅ ∅ 0%nat [].

(** Lines 40-57: the handler up to its first suspension point.
    [canProfile] is the answer of [target.canProfileExtensionHost()]. *)
Definition on_event (target : ICpuProfilerTarget) (canProfile isResponsive : bool)
    (st : state) : state :=
  if negb canProfile then st
  else
    match isResponsive, _session st !! target with
    | true, Some token =>
        mkState (_session st) (suspended st) ({[token]} ∪ cancelled st)
                (next_token st) (trace st ++ [Cancel token])
    | false, None =>
        let token := next_token st in
        mkState (<[target := token]> (_session st))
                (<[token := (target, AwaitStart)]> (suspended st))
                (cancelled st) (S token)
                (trace st ++ [StartExtensionHostProfile target])
    | _, _ => st
    end.

(** A turn of the event loop. *)
Inductive label : Type :=
  | Event (target : ICpuProfilerTarget) (canProfile isResponsive : bool)
  | StartResolved (token : CancellationTokenSource) (session : ProfileSession)
  | StartRejected (token : CancellationTokenSource)
  | WaitCancelled (token : CancellationTokenSource)
  | WaitTimeout (token : CancellationTokenSource)
  | StopResolved (token : CancellationTokenSource)
                 (profile : IExtensionHostProfile) (env : Env)
  | StopRejected (token : CancellationTokenSource).

Definition set_pc (token : CancellationTokenSource) (target : ICpuProfilerTarget)
    (p : pc) (out : list effect) (st : state) : state :=
  mkState (_session st) (<[token := (target, p)]> (suspended st)) (cancelled st)
          (next_token st) (trace st ++ out).

(** Lines 59 and 78: [this._session.delete(target)], the call returns. *)
Definition finish (token : CancellationTokenSource) (target : ICpuProfilerTarget)
    (out : list effect) (st : state) : state :=
  mkState (delete target (_session st)) (delete token (suspended st)) (cancelled st)
          (next_token st) (trace st ++ out).

Definition step (l : label) (st : state) : option state :=
  match l with
  | Event target canProfile isResponsive =>
      Some (on_event target canProfile isResponsive st)
  | StartResolved token session =>
      match suspended st !! token with
      | Some (target, AwaitStart) => Some (set_pc token target (AwaitWait session) [] st)
      | _ => None
      end
  | StartRejected token =>
      match suspended st !! token with
      | Some (target, AwaitStart) => Some (finish token target [] st)
      | _ => None
      end
  | WaitCancelled token =>
      match suspended st !! token with
      | Some (target, AwaitWait session) =>
          if decide (token ∈ cancelled st)
          then Some (set_pc token target (AwaitStop session) [Stop session] st)
          else None
      | _ => None
      end
  | WaitTimeout token =>
      match suspended st !! token with
      | Some (target, AwaitWait session) =>
          Some (set_pc token target (AwaitStop session) [Stop session] st)
      | _ => None
      end
  | StopResolved token profile env =>
      match suspended st !! token with
      | Some (target, AwaitStop session) =>
          Some (finish token target (_processCpuProfile env profile) st)
      | _ => None
      end
  | StopRejected token =>
      match suspended st !! token with
      | Some (target, AwaitStop session) =>
          Some (finish token target [OnUnexpectedError] st)
      | _ => None
      end
  end.

Fixpoint run (ls : list label) (st : state) : option state :=
  match ls with
  | [] => Some st
  | l :: ls' => step l st ≫= run ls'
  end.

Inductive reachable : state → Prop :=
  | reachable_initial : reachable initial
  | reachable_step (l : label) (st st' : state) :
      reachable st → step l st = Some st' → reachable st'.

(** Labels that end the call of the handler that owns [token]. *)
Definition ends (l : label) (token : CancellationTokenSource) : Prop :=
  match l with
  | StartRejected t | StopResolved t _ _ | StopRejected t => t = token
  | _ => False
  end.

(** ** The scenarios of the specification *)

Definition scenario_one : IExtensionHostProfile :=
  {| startTime := 0; endTime := 6000000;
     deltas := [2000000; 500000; 3500000];
     ids := ["ext.a"; "ext.b"; "ext.a"]%string;
     data := "{}"%string |}.

Definition scenario_two : IExtensionHostProfile :=
  {| startTime := 0; endTime := 10000000;
     deltas := [9900000];
     ids := ["ext.c"]%string;
     data := "{}"%string |}.

(** A host that knows every extension and whose disk works. *)
Definition host : Env :=
  {| generateUuid := "uuid";
     getExtension := λ id, Some (IExtensionDescription.mk id None id);
     tmpdir := "/tmp";
     random_hex := "a1b2c3";
     writeFile_ok := true |}.

(** Two extensions with the same share of the capture. *)
Definition scenario_tie : IExtensionHostProfile :=
  {| startTime := 0; endTime := 10;
     deltas := [2; 5; 3];
     ids := ["ext.b"; "ext.a"; "ext.b"]%string;
     data := "{}"%string |}.

(** A capture whose two timestamps coincide. *)
Definition scenario_zero_duration : IExtensionHostProfile :=
  {| startTime := 0; endTime := 0;
     deltas := [6000000];
     ids := ["ext.a"]%string;
     data := "{}"%string |}.

(** A capture whose end lies before its start. *)
Definition scenario_negative_duration : IExtensionHostProfile :=
  {| startTime := 10; endTime := 0;
     deltas := [5];
     ids := ["ext.a"]%string;
     data := "{}"%string |}.

(** A capture without samples. *)
Definition scenario_empty : IExtensionHostProfile :=
  {| startTime := 0; endTime := 6000000;
     deltas := [];
     ids := [];
     data := "{}"%string |}.

(** The suspended calls and the entries of [_session] correspond, and
    tokens are fresh. *)
Definition consistent (st : state) : Prop :=
  (∀ token target p,
     suspended st !! token = Some (target, p) → _session st !! target = Some token)
  ∧ (∀ target token,
       _session st !! target = Some token →
       ∃ p, suspended st !! token = Some (target, p))
  ∧ (∀ token, is_Some (suspended st !! token) → (token < next_token st)%nat).

(** ** The merge loop with its array accesses checked

    In JavaScript [data[anchor].id] throws a [TypeError] when the index lies
    outside the array.  Here such an access gives [None]. *)

Definition merge_step_checked (st : option (nat * list ref * store)) (i : nat)
  : option (nat * list ref * store) :=
  '(anchor, data, h) ← st;
  ra ← data !! anchor;
  ri ← data !! i;
  a ← h !! ra;
  d ← h !! ri;
  Some (if String.eqb (NamedSlice.id a) (NamedSlice.id d)
        then (anchor, data,
              <[ra := set_total a (NamedSlice.total a + NamedSlice.total d)]> h)
        else (S anchor, <[S anchor := ri]> data, h)).

Definition merge_loop_checked (h : store) (data : list ref)
  : option (nat * list ref * store) :=
  fold_left merge_step_checked (seq 1 (length data - 1)) (Some (0%nat, data, h)).

(** A profile that holds the merged slices of [profile] as its samples. *)
Definition reaggregated (profile : IExtensionHostProfile) : IExtensionHostProfile :=
  {| startTime := startTime profile;
     endTime := endTime profile;
     deltas := NamedSlice.total <$> merged profile;
     ids := NamedSlice.id <$> merged profile;
     data := data profile |}.

(** Three extensions with a third of the capture each. *)
Definition scenario_thirds : IExtensionHostProfile :=
  {| startTime := 0; endTime := 3;
     deltas := [1; 1; 1];
     ids := ["ext.a"; "ext.b"; "ext.c"]%string;
     data := "{}"%string |}.

(** One extension with 37.5 per cent of the capture. *)
Definition scenario_half : IExtensionHostProfile :=
  {| startTime := 0; endTime := 56;
     deltas := [21];
     ids := ["ext.a"]%string;
     data := "{}"%string |}.

(** One extension with 12.5 per cent of the capture. *)
Definition scenario_eighth : IExtensionHostProfile :=
  {| startTime := 0; endTime := 8;
     deltas := [1];
     ids := ["ext.a"]%string;
     data := "{}"%string |}.

(** One extension with a little less than 98.5 per cent of a very long
    capture: [200 * total = 197 * duration - 1]. *)
Definition scenario_near_half : IExtensionHostProfile :=
  {| startTime := 0; endTime := 54975849759333;
     deltas := [54151212012943];
     ids := ["ext.a"]%string;
     data := "{}"%string |}.

(** A host without the extension, and a host whose disk fails. *)
Definition host_unknown : Env :=
  {| generateUuid := "uuid";
     getExtension := λ _, None;
     tmpdir := "/tmp";
     random_hex := "a1b2c3";
     writeFile_ok := true |}.

Definition host_disk_full : Env :=
  {| generateUuid := "uuid";
     getExtension := λ id, Some (IExtensionDescription.mk id None id);
     tmpdir := "/tmp";
     random_hex := "a1b2c3";
     writeFile_ok := false |}.

Definition is_report (e : effect) : bool :=
  match e with
  | LogWarn _ _ _ _ _ | PublicLog _ _ _ _ => true
  | _ => false
  end.

(** The target a turn of the event loop belongs to. *)
Definition label_target (l : label) (st : state) : option ICpuProfilerTarget :=
  match l with
  | Event target _ _ => Some target
  | StartResolved token _ | StartRejected token | WaitCancelled token
  | WaitTimeout token | StopResolved token _ _ | StopRejected token =>
      fst <$> suspended st !! token
  end.

Definition is_start (e : effect) : bool :=
  match e with StartExtensionHostProfile _ => true | _ => false end.

Definition is_stop (e : effect) : bool :=
  match e with Stop _ => true | _ => false end.

Definition is_error (e : effect) : bool :=
  match e with OnUnexpectedError => true | _ => false end.

(** The calls made by the handler itself, not by [_processCpuProfile]. *)
Definition is_handler_call (e : effect) : bool :=
  match e with
  | StartExtensionHostProfile _ | Cancel _ | Stop _ | OnUnexpectedError => true
  | _ => false
  end.

Definition count (f : effect → bool) (t : list effect) : nat :=
  length (List.filter f t).

Definition at_stop (p : pc) : bool :=
  match p with AwaitStop _ => true | _ => false end.

(** The number of suspended calls that wait for [session.stop()]
    ([b = true]), or that have not asked for it yet ([b = false]). *)
Definition calls_at (b : bool)
    (m : gmap CancellationTokenSource (ICpuProfilerTarget * pc)) : nat :=
  size (filter (λ kv : CancellationTokenSource * (ICpuProfilerTarget * pc),
                  at_stop (snd (snd kv)) = b) m).

Definition weight (b : bool) (v : ICpuProfilerTarget * pc) : nat :=
  if bool_decide (at_stop (snd v) = b) then 1%nat else 0%nat.

(** * Properties *)

(** ** The order on identifiers *)

Lemma ascii_compare_lt_trans (a b c : Ascii.ascii) :
  Ascii.compare a b = Lt → Ascii.compare b c = Lt → Ascii.compare a c = Lt.
Proof.
  unfold Ascii.compare. rewrite !N.compare_lt_iff. apply N.lt_trans.
Qed.

Lemma string_compare_lt_trans (a b c : string) :
  String.compare a b = Lt → String.compare b c = Lt → String.compare a c = Lt.
Proof.
  revert b c. induction a as [|x a IH]; intros [|y b] [|z c]; simpl; try done.
  destruct (Ascii.compare x y) eqn:Hxy; try done.
  - apply Ascii.compare_eq_iff in Hxy as ->.
    destruct (Ascii.compare y z); try done. apply IH.
  - intros _. destruct (Ascii.compare y z) eqn:Hyz; try done.
    + apply Ascii.compare_eq_iff in Hyz as <-. by rewrite Hxy.
    + by rewrite (ascii_compare_lt_trans _ _ _ Hxy Hyz).
Qed.

Lemma string_compare_refl (a : string) : String.compare a a = Eq.
Proof.
  pose proof (String.compare_antisym a a) as H.
  destruct (String.compare a a); done.
Qed.

Lemma localeCompare_lt (a b : string) : id_lt a b ↔ String.compare a b = Lt.
Proof. unfold id_lt, localeCompare. destruct (String.compare a b); split; (done || lia). Qed.

Lemma localeCompare_eq (a b : string) : localeCompare a b = 0 ↔ a = b.
Proof.
  unfold localeCompare. split.
  - destruct (String.compare a b) eqn:H; try lia. intros _. by apply String.compare_eq_iff.
  - intros ->. by rewrite string_compare_refl.
Qed.

Lemma id_le_lt_eq (a b : string) : id_le a b ↔ id_lt a b ∨ a = b.
Proof.
  unfold id_le, id_lt. rewrite <- localeCompare_eq. lia.
Qed.

Lemma id_lt_trans (a b c : string) : id_lt a b → id_lt b c → id_lt a c.
Proof. rewrite !localeCompare_lt. apply string_compare_lt_trans. Qed.

Lemma id_lt_irrefl (a : string) : ¬ id_lt a a.
Proof. rewrite localeCompare_lt, string_compare_refl. done. Qed.

Lemma id_le_trans (a b c : string) : id_le a b → id_le b c → id_le a c.
Proof.
  rewrite !id_le_lt_eq. intros [H1| ->] [H2| ->]; eauto using id_lt_trans.
Qed.

Lemma id_lt_le_trans (a b c : string) : id_lt a b → id_le b c → id_lt a c.
Proof. rewrite id_le_lt_eq. intros H1 [H2| ->]; eauto using id_lt_trans. Qed.

Lemma id_le_total (a b : string) : ¬ id_le a b → id_le b a.
Proof.
  unfold id_le, localeCompare. rewrite (String.compare_antisym b a).
  destruct (String.compare a b); simpl; lia.
Qed.

Lemma id_lt_ne (a b : string) : id_lt a b → a ≠ b.
Proof. intros H ->. by apply (id_lt_irrefl b). Qed.

(** ** Sorting: an ordered rearrangement *)

Section SortFacts.
Context {A : Type} (comparefn : A → A → Z).

Lemma sort_insert_perm (x : A) (l : list A) : sort_insert comparefn x l ≡ₚ x :: l.
Proof.
  induction l as [|y l IH]; simpl; [done|].
  destruct (comparefn x y <=? 0); [done|].
  rewrite IH. apply Permutation_swap.
Qed.

Lemma sort_perm (l : list A) : sort comparefn l ≡ₚ l.
Proof.
  induction l as [|x l IH]; simpl; [done|].
  by rewrite sort_insert_perm, IH.
Qed.

Context {B : Type} (R : A → B → Prop) (comparefn' : B → B → Z).
Hypothesis comparefn_R :
  ∀ x y x' y', R x x' → R y y' → comparefn x y = comparefn' x' y'.

Lemma sort_insert_Forall2 (x : A) (x' : B) (l : list A) (l' : list B) :
  R x x' → Forall2 R l l' →
  Forall2 R (sort_insert comparefn x l) (sort_insert comparefn' x' l').
Proof.
  intros Hx. induction 1 as [|y y' l l' Hy Hl IH]; simpl.
  - by repeat constructor.
  - rewrite (comparefn_R x y x' y') by done.
    destruct (comparefn' x' y' <=? 0); by repeat constructor.
Qed.

Lemma sort_Forall2 (l : list A) (l' : list B) :
  Forall2 R l l' → Forall2 R (sort comparefn l) (sort comparefn' l').
Proof.
  induction 1 as [|x x' l l' Hx Hl IH]; simpl; [constructor|].
  by apply sort_insert_Forall2.
Qed.
End SortFacts.

Lemma sort_insert_sorted (x : NamedSlice) (l : list NamedSlice) :
  StronglySorted slice_le l → StronglySorted slice_le (sort_insert slice_cmp x l).
Proof.
  induction 1 as [|y l Hl IH Hy]; simpl.
  - constructor; [constructor | constructor].
  - destruct (slice_cmp x y <=? 0) eqn:Hc.
    + apply Z.leb_le in Hc. constructor; [by constructor|].
      constructor; [done|].
      eapply Forall_impl; [exact Hy|]. intros z Hz. by eapply id_le_trans.
    + apply Z.leb_gt in Hc. constructor; [done|].
      rewrite sort_insert_perm. constructor; [|done].
      apply id_le_total. unfold id_le, slice_cmp in *. lia.
Qed.

Lemma sort_sorted (l : list NamedSlice) : StronglySorted slice_le (sort slice_cmp l).
Proof.
  induction l as [|x l IH]; simpl; [constructor|]. by apply sort_insert_sorted.
Qed.

(** ** The store: references and the values they lead to *)

Lemma points_to_app (h : store) (d1 d2 : list ref) (v1 v2 : list NamedSlice) :
  points_to h d1 v1 → points_to h d2 v2 → points_to h (d1 ++ d2) (v1 ++ v2).
Proof. apply Forall2_app. Qed.

Lemma points_to_frame (h : store) (r : ref) (x : NamedSlice)
    (d : list ref) (vs : list NamedSlice) :
  r ∉ d → points_to h d vs → points_to (<[r := x]> h) d vs.
Proof.
  intros Hr. induction 1 as [|r' s d vs Hs Hd IH]; constructor.
  - rewrite list_lookup_insert_ne; [done|]. set_solver.
  - apply IH. set_solver.
Qed.

Lemma points_to_slices (h : store) (d : list ref) (vs : list NamedSlice) :
  points_to h d vs → slices h d = vs.
Proof.
  unfold slices. induction 1 as [|r s d vs Hs Hd IH]; csimpl; [done|].
  by rewrite Hs, IH.
Qed.

Lemma points_to_seq (pre l : list NamedSlice) :
  points_to (pre ++ l) (seq (length pre) (length l)) l.
Proof.
  revert pre. induction l as [|x l IH]; intros pre; simpl; constructor.
  - by apply list_lookup_middle.
  - specialize (IH (pre ++ [x])). rewrite length_app, <- app_assoc in IH.
    simpl in IH. by rewrite Nat.add_1_r in IH.
Qed.

Lemma by_id_points_to (h : store) (a b : ref) (x y : NamedSlice) :
  h !! a = Some x → h !! b = Some y → by_id h a b = slice_cmp x y.
Proof. unfold by_id. by intros -> ->. Qed.

(** ** The merge loop computes [merge_from] *)

Lemma merge_steps_spec (rest : list ref) :
  ∀ (vs : list NamedSlice) (pre : list ref) (ps : list NamedSlice)
    (rc : ref) (a : NamedSlice) (mid : list ref) (h : store),
    NoDup (pre ++ rc :: rest) →
    points_to h pre ps → h !! rc = Some a → points_to h rest vs →
    ∃ anchor' data' h',
      fold_left merge_step (seq (length pre + 1 + length mid) (length rest))
                (length pre, pre ++ rc :: mid ++ rest, h) = (anchor', data', h')
      ∧ points_to h' (take (S anchor') data') (ps ++ merge_from a vs)
      ∧ NoDup (take (S anchor') data').
Proof.
  induction rest as [|r rest IH]; intros vs pre ps rc a mid h Hnd Hpre Hrc Hrest.
  - inversion Hrest; subst. simpl. eexists _, _, _. split; [done|].
    rewrite app_nil_r.
    replace (pre ++ rc :: mid) with ((pre ++ [rc]) ++ mid) by (by rewrite <- app_assoc).
    replace (S (length pre)) with (length (pre ++ [rc]))
      by (rewrite length_app; simpl; lia).
    rewrite take_app_length. split.
    + apply points_to_app; [done|]. by repeat constructor.
    + apply NoDup_app in Hnd as (H1 & H2 & H3). apply NoDup_app. split; [done|].
      split; [|apply NoDup_singleton]. intros x Hx. set_solver.
  - inversion Hrest as [|? d ? vs' Hd Hrest']; subst. clear Hrest.
    cbn [length seq fold_left].
    assert ((pre ++ rc :: mid ++ r :: rest) !! length pre = Some rc) as Ha
      by (by apply list_lookup_middle).
    assert ((pre ++ rc :: mid ++ r :: rest) !! (length pre + 1 + length mid)%nat = Some r) as Hi.
    { replace (pre ++ rc :: mid ++ r :: rest) with ((pre ++ rc :: mid) ++ r :: rest)
        by (by rewrite <- app_assoc).
      apply list_lookup_middle. rewrite length_app. simpl. lia. }
    unfold merge_step at 2. rewrite Ha, Hi, Hrc, Hd.
    apply NoDup_app in Hnd as Hnd'. destruct Hnd' as (Hnpre & Hdisj & Hnrest).
    apply NoDup_cons in Hnrest as [Hrc_rest Hnrest].
    apply NoDup_cons in Hnrest as [Hr_rest Hnrest].
    destruct (String.eqb (NamedSlice.id a) (NamedSlice.id d)) eqn:Heq.
    + destruct (IH vs' pre ps rc
                  (set_total a (NamedSlice.total a + NamedSlice.total d))
                  (mid ++ [r])
                  (<[rc := set_total a (NamedSlice.total a + NamedSlice.total d)]> h))
        as (anchor' & data' & h' & Hrun & Hpts & Hnd2).
      * apply NoDup_app. split; [done|]. split.
        -- intros x Hx. specialize (Hdisj x Hx). set_solver.
        -- apply NoDup_cons. split; [set_solver|done].
      * apply points_to_frame; [|done]. intros Hin. apply (Hdisj rc Hin). set_solver.
      * apply list_lookup_insert_eq. by eapply lookup_lt_Some.
      * apply points_to_frame; [set_solver|done].
      * exists anchor', data', h'. split; [|by simpl; rewrite Heq].
        rewrite <- Hrun. f_equal.
        -- rewrite length_app. simpl. f_equal. lia.
        -- by rewrite <- (app_assoc mid).
    + destruct (IH vs' (pre ++ [rc]) (ps ++ [a]) r d
                  (match mid with [] => [] | _ :: mid' => mid' ++ [r] end) h)
        as (anchor' & data' & h' & Hrun & Hpts & Hnd2).
      * rewrite <- app_assoc. simpl. apply NoDup_app. split; [done|]. split.
        -- intros x Hx. specialize (Hdisj x Hx). set_solver.
        -- apply NoDup_cons. split; [set_solver|]. apply NoDup_cons. done.
      * apply points_to_app; [done|]. by repeat constructor.
      * done.
      * done.
      * exists anchor', data', h'. split.
        -- rewrite <- Hrun. f_equal.
           ++ rewrite length_app. simpl. destruct mid; simpl; [f_equal; lia|].
              rewrite length_app. simpl. f_equal. lia.
           ++ rewrite length_app. simpl. f_equal. f_equal; [lia|].
              rewrite <- app_assoc. simpl.
              replace (S (length pre)) with (length pre + 1)%nat by lia.
              rewrite insert_app_r. f_equal. simpl. destruct mid; simpl.
              ** done.
              ** by rewrite <- app_assoc.
        -- split; [|done]. rewrite <- app_assoc in Hpts. simpl in Hpts.
           simpl. by rewrite Heq.
Qed.

Lemma merge_spec (h : store) (data : list ref) (vs : list NamedSlice) :
  NoDup data → points_to h data vs →
  ∃ h' data',
    merge h data = (h', data')
    ∧ points_to h' data' (merge_adjacent (sort slice_cmp vs))
    ∧ NoDup data'.
Proof.
  intros Hnd Hpts. unfold merge, merge_loop.
  assert (points_to h (sort (by_id h) data) (sort slice_cmp vs)) as Hs.
  { apply (sort_Forall2 _ (λ r s, h !! r = Some s)); [|done].
    intros. by apply by_id_points_to. }
  assert (NoDup (sort (by_id h) data)) as Hnd' by by rewrite sort_perm.
  destruct Hs as [|rc a rest vs' Ha Hrest]; simpl.
  - exists h, []. repeat split; constructor.
  - destruct (merge_steps_spec rest vs' [] [] rc a [] h Hnd')
      as (anchor' & data' & h' & Hrun & Hp & Hn); [constructor|done|done|].
    simpl in Hrun. rewrite Nat.sub_0_r, Hrun. by exists h', (take (S anchor') data').
Qed.

(** ** The scan computes [rate] and [pick] *)

Lemma scan_steps_spec (percentage : Q) (todo : list ref) :
  ∀ (vs : list NamedSlice) (h : store) (top : option ref)
    (done_ : list ref) (ds : list NamedSlice),
    NoDup (done_ ++ todo) →
    points_to h done_ ds → points_to h todo vs →
    (∀ t, top = Some t → t ∈ done_) →
    ∃ h' top',
      fold_left (scan_step percentage) todo (h, top) = (h', top')
      ∧ points_to h' (done_ ++ todo) (ds ++ (rate percentage <$> vs))
      ∧ top' ≫= (λ t, h' !! t)
        = fold_left pick_step (rate percentage <$> vs) (top ≫= (λ t, h !! t)).
Proof.
  induction todo as [|r todo IH]; intros vs h top done_ ds Hnd Hdone Htodo Htop.
  - inversion Htodo; subst. exists h, top. simpl. by rewrite !app_nil_r.
  - inversion Htodo as [|? s ? vs' Hs Htodo']; subst. clear Htodo.
    cbn [fold_left]. unfold scan_step at 2. rewrite Hs.
    set (p := Math_round (js_div (NamedSlice.total s) percentage)).
    set (h1 := <[r := set_percentage s p]> h).
    assert (NoDup ((done_ ++ [r]) ++ todo)) as Hnd1 by by rewrite <- app_assoc.
    apply NoDup_app in Hnd as (Hn1 & Hdisj & Hn2).
    apply NoDup_cons in Hn2 as [Hr Hn2].
    assert (r ∉ done_) as Hrd.
    { intros Hin. apply (Hdisj r Hin). by left. }
    assert (h1 !! r = Some (rate percentage s)) as Hr1.
    { apply list_lookup_insert_eq. by eapply lookup_lt_Some. }
    assert (points_to h1 (done_ ++ [r]) (ds ++ [rate percentage s])) as Hdone1.
    { apply points_to_app; [by apply points_to_frame|]. by repeat constructor. }
    assert (points_to h1 todo vs') as Htodo1 by by apply points_to_frame.
    assert (∀ top1 : option ref,
              (∀ t, top1 = Some t → t ∈ done_ ++ [r]) →
              top1 ≫= (λ t, h1 !! t)
              = pick_step (top ≫= (λ t, h !! t)) (rate percentage s) →
              ∃ h' top',
                fold_left (scan_step percentage) todo (h1, top1) = (h', top')
                ∧ points_to h' (done_ ++ r :: todo)
                    (ds ++ (rate percentage <$> s :: vs'))
                ∧ top' ≫= (λ t, h' !! t)
                  = fold_left pick_step (rate percentage <$> s :: vs')
                      (top ≫= (λ t, h !! t))) as Hgo.
    { intros top1 Hin1 Heq1.
      destruct (IH vs' h1 top1 (done_ ++ [r]) (ds ++ [rate percentage s])
                  Hnd1 Hdone1 Htodo1 Hin1) as (h' & top' & Hrun & Hp & Ht).
      exists h', top'. split; [done|]. rewrite <- !app_assoc in Hp. split; [done|].
      csimpl. by rewrite Ht, Heq1. }
    destruct top as [t|].
    + assert (t ∈ done_) as Htd by by apply Htop.
      assert (t ≠ r) as Htr by (intros ->; done).
      apply list_elem_of_lookup in Htd as Hi. destruct Hi as [i Hi].
      destruct (Forall2_lookup_l _ _ _ _ _ Hdone Hi) as (ts & _ & Hts).
      assert (h1 !! t = Some ts) as Hh1t.
      { unfold h1. by rewrite list_lookup_insert_ne. }
      cbv zeta. fold p. fold h1. rewrite Hh1t.
      destruct (js_lt (NamedSlice.percentage ts) p) eqn:Hlt; apply Hgo.
      * intros ? [= <-]. set_solver.
      * simpl. rewrite Hr1, Hts. simpl. fold p. by rewrite Hlt.
      * intros ? [= <-]. set_solver.
      * simpl. rewrite Hh1t, Hts. simpl. fold p. by rewrite Hlt.
    + cbv zeta. fold p. fold h1. apply Hgo.
      * intros ? [= <-]. set_solver.
      * simpl. by rewrite Hr1.
Qed.

(** ** The whole analysis on values *)

Lemma build_points_to (profile : IExtensionHostProfile) :
  ∃ h data,
    build profile = (h, data) ∧ h = candidates profile
    ∧ NoDup data ∧ points_to h data (candidates profile).
Proof.
  eexists _, _. split; [reflexivity|]. split; [done|]. split; [apply NoDup_seq|].
  unfold candidates, build. cbn [fst].
  set (h := imap _ _).
  replace (length (ids profile)) with (length h) by apply length_imap.
  apply (points_to_seq [] h).
Qed.

Lemma merged_values (profile : IExtensionHostProfile) :
  merged profile = merge_adjacent (sort slice_cmp (candidates profile)).
Proof.
  unfold merged.
  destruct (build_points_to profile) as (h & data & -> & -> & Hnd & Hp).
  destruct (merge_spec _ _ _ Hnd Hp) as (h' & data' & -> & Hp' & _).
  by apply points_to_slices.
Qed.

Lemma analyse_values (profile : IExtensionHostProfile) :
  let percentage := percentage_unit (endTime profile - startTime profile) in
  let rated := rate percentage <$> merged profile in
  analyse profile = (rated, pick rated).
Proof.
  intros percentage rated. unfold rated. rewrite merged_values. unfold analyse.
  destruct (build_points_to profile) as (h & data & -> & -> & Hnd & Hp).
  destruct (merge_spec _ _ _ Hnd Hp) as (h' & data' & -> & Hp' & Hnd').
  destruct (scan_steps_spec percentage data' _ h' None [] [] Hnd'
              ltac:(constructor) Hp' ltac:(done))
    as (h2 & top & Hrun & Hp2 & Htop).
  unfold scan. fold percentage. rewrite Hrun. simpl in Hp2.
  by rewrite (points_to_slices _ _ _ Hp2), Htop.
Qed.

(** The percentages are added to the merged slices; ids and totals stay. *)
Lemma analyse_merged (profile : IExtensionHostProfile) :
  NamedSlice.id <$> fst (analyse profile) = NamedSlice.id <$> merged profile
  ∧ NamedSlice.total <$> fst (analyse profile)
    = NamedSlice.total <$> merged profile.
Proof.
  rewrite analyse_values. cbn [fst]. rewrite <- !list_fmap_compose.
  split; by apply list_fmap_ext.
Qed.

Example analyse_scenario_one :
  analyse scenario_one
  = ([NamedSlice.mk "ext.a" 5500000 (Finite 92);
      NamedSlice.mk "ext.b" 500000 (Finite 8)],
     Some (NamedSlice.mk "ext.a" 5500000 (Finite 92))).
Proof. reflexivity. Qed.

(** ** Sums *)

Global Instance sumZ_perm : Proper ((≡ₚ) ==> (=)) sumZ.
Proof. induction 1; simpl; lia. Qed.

Lemma total_of_perm (i : string) (l1 l2 : list NamedSlice) :
  l1 ≡ₚ l2 → total_of i l1 = total_of i l2.
Proof. intros H. unfold total_of. by rewrite H. Qed.

Lemma total_of_cons (i : string) (x : NamedSlice) (l : list NamedSlice) :
  total_of i (x :: l)
  = (if decide (NamedSlice.id x = i) then NamedSlice.total x else 0) + total_of i l.
Proof.
  unfold total_of. rewrite filter_cons. by destruct (decide _).
Qed.

Lemma total_of_absent (i : string) (l : list NamedSlice) :
  i ∉ NamedSlice.id <$> l → total_of i l = 0.
Proof.
  induction l as [|x l IH]; [done|]. rewrite total_of_cons. csimpl.
  intros Hni. rewrite IH by set_solver.
  destruct (decide _); [set_solver|done].
Qed.

Lemma candidates_aligned (profile : IExtensionHostProfile) :
  aligned profile →
  candidates profile
  = zip_with (λ id d, NamedSlice.mk id d (Finite 0)) (ids profile) (deltas profile).
Proof.
  unfold aligned, candidates, build. cbn [fst].
  generalize (deltas profile). induction (ids profile) as [|i l IH];
    intros [|d ds] Hlen; try done. simpl in *. f_equal. apply IH. lia.
Qed.

Lemma total_of_candidates (i : string) (profile : IExtensionHostProfile) :
  aligned profile → total_of i (candidates profile) = delta_sum i profile.
Proof.
  intros Hal. rewrite candidates_aligned by done. unfold delta_sum, total_of.
  clear Hal. generalize (deltas profile).
  induction (ids profile) as [|j l IH]; intros [|d ds]; try done.
  simpl. rewrite !filter_cons. simpl. destruct (decide (j = i)); csimpl; by rewrite IH.
Qed.

Lemma sum_candidates (profile : IExtensionHostProfile) :
  aligned profile →
  sumZ (NamedSlice.total <$> candidates profile) = sumZ (deltas profile).
Proof.
  intros Hal. rewrite candidates_aligned by done. revert Hal. unfold aligned.
  generalize (deltas profile).
  induction (ids profile) as [|j l IH]; intros [|d ds] Hlen; try done.
  simpl in *. rewrite IH; [done|lia].
Qed.

Lemma ids_candidates (profile : IExtensionHostProfile) :
  NamedSlice.id <$> candidates profile = ids profile.
Proof.
  unfold candidates, build. cbn [fst].
  generalize (deltas profile). induction (ids profile) as [|i l IH]; intros ds; [done|].
  simpl. f_equal. destruct ds as [|d ds]; simpl.
  - rewrite <- (IH []) at 2. f_equal.
  - rewrite <- (IH ds) at 2. f_equal.
Qed.

(** ** [merge_from] on an array sorted by id *)

Lemma merge_from_ids (rest : list NamedSlice) :
  ∀ (cur : NamedSlice) (i : string),
    i ∈ NamedSlice.id <$> merge_from cur rest ↔ i ∈ NamedSlice.id <$> cur :: rest.
Proof.
  induction rest as [|x rest IH]; intros cur i; [done|]. simpl.
  destruct (String.eqb_spec (NamedSlice.id cur) (NamedSlice.id x)) as [Heq|Hne].
  - rewrite IH. csimpl. rewrite Heq. set_solver.
  - csimpl. rewrite !elem_of_cons, IH. csimpl. by rewrite elem_of_cons.
Qed.

Lemma merge_from_sum (rest : list NamedSlice) :
  ∀ cur : NamedSlice,
    sumZ (NamedSlice.total <$> merge_from cur rest)
    = NamedSlice.total cur + sumZ (NamedSlice.total <$> rest).
Proof.
  induction rest as [|x rest IH]; intros cur; csimpl; [lia|].
  destruct (String.eqb _ _); csimpl; rewrite IH; simpl; lia.
Qed.

Lemma merge_from_percentage (p : number Z) (rest : list NamedSlice) :
  ∀ cur : NamedSlice,
    Forall (λ s, NamedSlice.percentage s = p) (cur :: rest) →
    Forall (λ s, NamedSlice.percentage s = p) (merge_from cur rest).
Proof.
  induction rest as [|x rest IH]; intros cur Hall; simpl; [done|].
  apply Forall_cons in Hall as [Hc Hall].
  apply Forall_cons in Hall as Hall'. destruct Hall' as [Hx Hrest].
  destruct (String.eqb _ _).
  - apply IH. by constructor.
  - constructor; [done|]. by apply IH.
Qed.

Lemma sorted_above (cur x : NamedSlice) (rest : list NamedSlice) (i : string) :
  NamedSlice.id cur ≠ NamedSlice.id x →
  StronglySorted slice_le (cur :: x :: rest) →
  i ∈ NamedSlice.id <$> x :: rest → id_lt (NamedSlice.id cur) i.
Proof.
  intros Hne Hs Hi.
  apply StronglySorted_inv in Hs as [Hs Hcur].
  apply StronglySorted_inv in Hs as [_ Hx].
  apply Forall_cons in Hcur as [Hcx _].
  assert (id_lt (NamedSlice.id cur) (NamedSlice.id x)) as Hlt.
  { apply id_le_lt_eq in Hcx as [?|?]; done. }
  apply list_elem_of_fmap in Hi as (y & -> & Hy).
  apply elem_of_cons in Hy as [->|Hy]; [done|].
  eapply id_lt_le_trans; [exact Hlt|]. rewrite Forall_forall in Hx. by apply Hx.
Qed.

Lemma sorted_same_id (cur x : NamedSlice) (rest : list NamedSlice) (v : Z) :
  NamedSlice.id cur = NamedSlice.id x →
  StronglySorted slice_le (cur :: x :: rest) →
  StronglySorted slice_le (set_total cur v :: rest).
Proof.
  intros Heq Hs.
  apply StronglySorted_inv in Hs as [Hs _].
  apply StronglySorted_inv in Hs as [Hs Hx].
  constructor; [done|]. unfold slice_le in *. simpl. by rewrite Heq.
Qed.

Lemma merge_from_sorted (rest : list NamedSlice) :
  ∀ cur : NamedSlice,
    StronglySorted slice_le (cur :: rest) →
    StronglySorted slice_lt (merge_from cur rest).
Proof.
  induction rest as [|x rest IH]; intros cur Hs; simpl.
  - repeat constructor.
  - destruct (String.eqb_spec (NamedSlice.id cur) (NamedSlice.id x)) as [Heq|Hne].
    + apply IH. by eapply sorted_same_id.
    + constructor.
      * apply IH. by apply StronglySorted_inv in Hs as [Hs _].
      * apply Forall_forall. intros s Hin. unfold slice_lt.
        eapply sorted_above; [done..|]. apply merge_from_ids.
        apply list_elem_of_fmap. eauto.
Qed.

Lemma merge_from_total (rest : list NamedSlice) :
  ∀ (cur s : NamedSlice),
    StronglySorted slice_le (cur :: rest) →
    s ∈ merge_from cur rest →
    NamedSlice.total s = total_of (NamedSlice.id s) (cur :: rest).
Proof.
  induction rest as [|x rest IH]; intros cur s Hs; simpl.
  - intros ->%list_elem_of_singleton. rewrite total_of_cons.
    rewrite decide_True by done. unfold total_of. simpl. lia.
  - destruct (String.eqb_spec (NamedSlice.id cur) (NamedSlice.id x)) as [Heq|Hne].
    + intros Hin. rewrite (IH _ s (sorted_same_id _ _ _ _ Heq Hs) Hin).
      rewrite !total_of_cons. simpl. rewrite Heq.
      destruct (decide _); lia.
    + intros [->|Hin]%elem_of_cons.
      * rewrite total_of_cons, decide_True by done.
        rewrite total_of_absent; [lia|]. intros Hi.
        eapply id_lt_irrefl, sorted_above; done.
      * apply StronglySorted_inv in Hs as Hs'. destruct Hs' as [Hs' _].
        rewrite (IH _ s Hs' Hin). rewrite (total_of_cons _ cur).
        rewrite decide_False; [lia|]. intros Hi.
        assert (NamedSlice.id s ∈ NamedSlice.id <$> x :: rest) as Hmem.
        { apply merge_from_ids. apply list_elem_of_fmap. eauto. }
        apply (id_lt_irrefl (NamedSlice.id s)). rewrite <- Hi at 1.
        by eapply sorted_above.
Qed.

(** ** Merging an array sorted by id *)

Lemma merge_adjacent_sorted (l : list NamedSlice) :
  StronglySorted slice_le l → StronglySorted slice_lt (merge_adjacent l).
Proof.
  intros Hs. destruct l; simpl; [constructor|]. by apply merge_from_sorted.
Qed.

Lemma merge_adjacent_ids (l : list NamedSlice) (i : string) :
  i ∈ NamedSlice.id <$> merge_adjacent l ↔ i ∈ NamedSlice.id <$> l.
Proof. destruct l; simpl; [done|]. apply merge_from_ids. Qed.

Lemma merge_adjacent_total (l : list NamedSlice) (s : NamedSlice) :
  StronglySorted slice_le l → s ∈ merge_adjacent l →
  NamedSlice.total s = total_of (NamedSlice.id s) l.
Proof.
  intros Hs. destruct l; simpl.
  - by intros ?%elem_of_nil.
  - by apply merge_from_total.
Qed.

Lemma merge_adjacent_percentage (p : number Z) (l : list NamedSlice) :
  Forall (λ s, NamedSlice.percentage s = p) l →
  Forall (λ s, NamedSlice.percentage s = p) (merge_adjacent l).
Proof. intros Hall. destruct l; simpl; [done|]. by apply merge_from_percentage. Qed.

Lemma merge_adjacent_sum (l : list NamedSlice) :
  sumZ (NamedSlice.total <$> merge_adjacent l) = sumZ (NamedSlice.total <$> l).
Proof. destruct l; csimpl; [done|]. apply merge_from_sum. Qed.

Lemma sorted_lt_NoDup (l : list NamedSlice) :
  StronglySorted slice_lt l → NoDup (NamedSlice.id <$> l).
Proof.
  induction 1 as [|x l Hs IH Hx]; csimpl; constructor; [|done].
  intros (y & Heq & Hy)%list_elem_of_fmap.
  rewrite Forall_forall in Hx. specialize (Hx y Hy). unfold slice_lt in Hx.
  rewrite Heq in Hx. by apply id_lt_irrefl in Hx.
Qed.

(** The merge of an array that is sorted by id depends on the slices only,
    not on the order the sort has left slices of one id in: every sorting
    procedure gives the same merged list. *)
Lemma merge_adjacent_unique (p : number Z) (l1 l2 : list NamedSlice) :
  StronglySorted slice_le l1 → StronglySorted slice_le l2 →
  Forall (λ s, NamedSlice.percentage s = p) l1 →
  l1 ≡ₚ l2 → merge_adjacent l1 = merge_adjacent l2.
Proof.
  intros Hs1 Hs2 Hp1 Hperm.
  assert (Forall (λ s, NamedSlice.percentage s = p) l2) as Hp2
    by by rewrite <- Hperm.
  assert (∀ k1 k2,
            StronglySorted slice_le k1 → StronglySorted slice_le k2 →
            Forall (λ s, NamedSlice.percentage s = p) k1 →
            Forall (λ s, NamedSlice.percentage s = p) k2 →
            k1 ≡ₚ k2 →
            ∀ s, s ∈ merge_adjacent k1 → s ∈ merge_adjacent k2) as Hsub.
  { intros k1 k2 Hk1 Hk2 Hq1 Hq2 Hk s Hs.
    assert (NamedSlice.id s ∈ NamedSlice.id <$> merge_adjacent k2) as Hi.
    { apply merge_adjacent_ids. rewrite <- Hk. apply merge_adjacent_ids.
      apply list_elem_of_fmap. eauto. }
    apply list_elem_of_fmap in Hi as (s' & Hid & Hs').
    replace s with s'; [done|].
    pose proof (merge_adjacent_total k1 s Hk1 Hs) as Ht.
    pose proof (merge_adjacent_total k2 s' Hk2 Hs') as Ht'.
    rewrite <- Hid, <- (total_of_perm _ _ _ Hk) in Ht'.
    apply merge_adjacent_percentage in Hq1, Hq2. rewrite Forall_forall in Hq1, Hq2.
    specialize (Hq1 s Hs). specialize (Hq2 s' Hs').
    destruct s, s'; simpl in *; congruence. }
  apply (StronglySorted_unique_strong slice_lt).
  - intros x y _ _ Hxy Hyx. exfalso.
    eapply id_lt_irrefl, id_lt_trans; [exact Hxy|exact Hyx].
  - by apply merge_adjacent_sorted.
  - by apply merge_adjacent_sorted.
  - apply NoDup_Permutation.
    + by eapply NoDup_fmap_1, sorted_lt_NoDup, merge_adjacent_sorted.
    + by eapply NoDup_fmap_1, sorted_lt_NoDup, merge_adjacent_sorted.
    + intros s. split; apply Hsub; done.
Qed.

(** ** The merged slices of a profile *)

Lemma candidates_percentage (profile : IExtensionHostProfile) :
  Forall (λ s, NamedSlice.percentage s = Finite 0) (candidates profile).
Proof.
  unfold candidates, build. cbn [fst]. apply Forall_forall. intros x Hx.
  apply list_elem_of_lookup in Hx as [k Hk].
  apply list_lookup_imap_Some in Hk as (i & _ & ->). done.
Qed.

Lemma merged_sorted (profile : IExtensionHostProfile) :
  StronglySorted slice_lt (merged profile).
Proof. rewrite merged_values. apply merge_adjacent_sorted, sort_sorted. Qed.

Lemma merged_ids (profile : IExtensionHostProfile) (i : string) :
  i ∈ NamedSlice.id <$> merged profile ↔ i ∈ ids profile.
Proof.
  by rewrite merged_values, merge_adjacent_ids, sort_perm, ids_candidates.
Qed.

Lemma merged_total (profile : IExtensionHostProfile) (s : NamedSlice) :
  aligned profile → s ∈ merged profile →
  NamedSlice.total s = delta_sum (NamedSlice.id s) profile.
Proof.
  intros Hal. rewrite merged_values, <- total_of_candidates by done.
  rewrite <- (total_of_perm _ _ _ (sort_perm slice_cmp (candidates profile))).
  apply merge_adjacent_total, sort_sorted.
Qed.

Lemma merged_sum (profile : IExtensionHostProfile) :
  sumZ (NamedSlice.total <$> merged profile)
  = sumZ (NamedSlice.total <$> candidates profile).
Proof. by rewrite merged_values, merge_adjacent_sum, sort_perm. Qed.

Lemma merged_nil (profile : IExtensionHostProfile) :
  merged profile = [] ↔ ids profile = [].
Proof.
  split; intros H.
  - destruct (ids profile) as [|i l] eqn:Hids; [done|].
    assert (i ∈ NamedSlice.id <$> merged profile) as Hin
      by (apply merged_ids; rewrite Hids; left).
    rewrite H in Hin. by apply elem_of_nil in Hin.
  - destruct (merged profile) as [|s l] eqn:Hm; [done|].
    assert (NamedSlice.id s ∈ ids profile) as Hin
      by (apply merged_ids; rewrite Hm; left).
    rewrite H in Hin. by apply elem_of_nil in Hin.
Qed.

(** Whatever ordered rearrangement of the candidates the sort returns, the
    merge is the one computed here. *)
Lemma sort_choice_irrelevant (profile : IExtensionHostProfile)
    (l : list NamedSlice) :
  l ≡ₚ candidates profile → StronglySorted slice_le l →
  merge_adjacent l = merged profile.
Proof.
  intros Hperm Hs. rewrite merged_values.
  apply (merge_adjacent_unique (Finite 0)); [done|apply sort_sorted| |].
  - rewrite Hperm. apply candidates_percentage.
  - by rewrite sort_perm.
Qed.

Lemma candidates_perm (p p' : IExtensionHostProfile) :
  aligned p → aligned p' →
  zip (ids p) (deltas p) ≡ₚ zip (ids p') (deltas p') →
  candidates p ≡ₚ candidates p'.
Proof.
  intros Hal Hal' Hperm. rewrite !candidates_aligned by done.
  rewrite (zip_with_zip _ (ids p)), (zip_with_zip _ (ids p')).
  by rewrite Hperm.
Qed.

Lemma merged_perm (p p' : IExtensionHostProfile) :
  aligned p → aligned p' →
  zip (ids p) (deltas p) ≡ₚ zip (ids p') (deltas p') →
  merged p = merged p'.
Proof.
  intros Hal Hal' Hperm. rewrite (merged_values p).
  apply sort_choice_irrelevant; [|apply sort_sorted].
  rewrite sort_perm. by apply candidates_perm.
Qed.

(** * Merging (lines 91-109) *)

(** C1.  For a profile whose [ids] and [deltas] have the same length, the
    merged slices are in strictly ascending order of id, so there is one
    slice per id; the ids that occur are exactly those of the profile; the
    total of a slice is the sum of all [deltas[i]] whose [ids[i]] is its id;
    and a profile holding the same samples in another order merges to the
    same list. *)
Theorem merge_one_slice_per_id (profile : IExtensionHostProfile) :
  aligned profile →
  StronglySorted slice_lt (merged profile)
  ∧ NoDup (NamedSlice.id <$> merged profile)
  ∧ (∀ i, i ∈ NamedSlice.id <$> merged profile ↔ i ∈ ids profile)
  ∧ (∀ s, s ∈ merged profile →
          NamedSlice.total s = delta_sum (NamedSlice.id s) profile)
  ∧ (∀ profile', aligned profile' →
       zip (ids profile) (deltas profile) ≡ₚ zip (ids profile') (deltas profile') →
       merged profile' = merged profile).
Proof.
  intros Hal. split; [apply merged_sorted|].
  split; [apply sorted_lt_NoDup, merged_sorted|].
  split; [apply merged_ids|].
  split; [intros s; by apply merged_total|].
  intros profile' Hal' Hperm. symmetry. by apply merged_perm.
Qed.

Lemma merge_one_slice_per_id_witness :
  aligned scenario_one
  ∧ ∀ s, s ∈ merged scenario_one →
         NamedSlice.total s = delta_sum (NamedSlice.id s) scenario_one.
Proof.
  split; [reflexivity|].
  apply (merge_one_slice_per_id scenario_one). reflexivity.
Defined.

(** C10.  Merging conserves the total cost: the totals of the merged slices
    add up to the sum of all deltas; and the merged list is empty exactly
    when the profile has no sample. *)
Theorem merge_conserves_total (profile : IExtensionHostProfile) :
  aligned profile →
  sumZ (NamedSlice.total <$> merged profile) = sumZ (deltas profile)
  ∧ (merged profile = [] ↔ zip (ids profile) (deltas profile) = []).
Proof.
  intros Hal. split.
  - rewrite merged_sum. by apply sum_candidates.
  - rewrite merged_nil. unfold aligned in Hal.
    destruct (ids profile), (deltas profile); done.
Qed.

Lemma merge_conserves_total_witness :
  aligned scenario_one
  ∧ sumZ (NamedSlice.total <$> merged scenario_one) = sumZ (deltas scenario_one).
Proof.
  split; [reflexivity|].
  apply (merge_conserves_total scenario_one). reflexivity.
Defined.

(** * Doubles: rounding to 53 bits *)

Lemma pow2_pos (e : Z) : (0 < pow2 e)%Q.
Proof. apply Qpower_0_lt. reflexivity. Qed.

Lemma pow2_plus (a b : Z) : (pow2 (a + b) == pow2 a * pow2 b)%Q.
Proof. apply Qpower_plus. discriminate. Qed.

Lemma pow2_nonneg (a : Z) : 0 <= a → (pow2 a == inject_Z (2 ^ a))%Q.
Proof. intros Ha. unfold pow2. by rewrite Zpower_Qpower. Qed.

Lemma inject_Z_lt_0 (z : Z) : 0 < z → (0 < inject_Z z)%Q.
Proof. intros Hz. unfold Qlt. simpl. lia. Qed.

Lemma inject_Z_le (a b : Z) : a <= b → (inject_Z a <= inject_Z b)%Q.
Proof. intros H. unfold Qle. simpl. lia. Qed.

Lemma pow2_le (a b : Z) : a <= b → (pow2 a <= pow2 b)%Q.
Proof.
  intros Hab. replace b with (a + (b - a)) by lia. rewrite pow2_plus.
  rewrite (pow2_nonneg (b - a)) by lia.
  assert (1 <= inject_Z (2 ^ (b - a)))%Q as H.
  { change 1%Q with (inject_Z 1). apply inject_Z_le.
    pose proof (Z.pow_pos_nonneg 2 (b - a)). lia. }
  pose proof (pow2_pos a) as HP.
  set (P := pow2 a) in *. set (I := inject_Z (2 ^ (b - a))) in *.
  clearbody P I. nra.
Qed.

Lemma inject_Z_sub (a b : Z) : (inject_Z (a - b) == inject_Z a - inject_Z b)%Q.
Proof. unfold Z.sub. by rewrite inject_Z_plus, inject_Z_opp. Qed.

Lemma Qabs_inject_Z (t : Z) : (Qabs (inject_Z t) == inject_Z (Z.abs t))%Q.
Proof. reflexivity. Qed.

Lemma Qabs_as_quotient (x : Q) :
  (Qabs x == inject_Z (Z.abs (Qnum x)) / inject_Z (Z.pos (Qden x)))%Q.
Proof.
  destruct x as [xn xd]. simpl. unfold Qabs.
  rewrite (Qmake_Qdiv (Z.abs xn) xd). reflexivity.
Qed.

Lemma Qmult_nonneg_cancel (a y : Q) : (0 < a)%Q → (0 <= a * y)%Q → (0 <= y)%Q.
Proof.
  intros Ha Hay. destruct (Qlt_le_dec y 0) as [Hy|Hy]; [|done].
  exfalso. assert (0 < a * (- y))%Q as H by (apply Qmult_lt_0_compat; lra).
  assert (a * - y == - (a * y))%Q as E by ring. rewrite E in H. lra.
Qed.

Lemma round_half_even_error (y : Q) :
  (Qabs (inject_Z (round_half_even y) - y) <= 1 # 2)%Q.
Proof.
  unfold round_half_even.
  pose proof (Qfloor_le y) as Hlo. pose proof (Qlt_floor y) as Hhi.
  rewrite inject_Z_plus in Hhi. change (inject_Z 1) with 1%Q in Hhi.
  apply Qabs_Qle_condition.
  destruct (Qcompare_spec (y - inject_Z (Qfloor y)) (1 # 2)) as [He|Hl|Hg].
  - destruct (Z.even (Qfloor y));
      rewrite ?inject_Z_plus; change (inject_Z 1) with 1%Q; lra.
  - lra.
  - rewrite inject_Z_plus. change (inject_Z 1) with 1%Q. lra.
Qed.

Lemma round_half_even_comp (x y : Q) :
  (x == y)%Q → round_half_even x = round_half_even y.
Proof.
  intros Hxy. unfold round_half_even. rewrite (Qfloor_comp _ _ Hxy).
  assert (x - inject_Z (Qfloor y) == y - inject_Z (Qfloor y))%Q as H by by rewrite Hxy.
  by rewrite (Qcompare_comp _ _ H _ _ (Qeq_refl (1 # 2))).
Qed.

Lemma round_half_even_Z (n : Z) : round_half_even (inject_Z n) = n.
Proof.
  unfold round_half_even. rewrite Qfloor_Z.
  assert (inject_Z n - inject_Z n == 0)%Q as H by ring.
  by rewrite (Qcompare_comp _ _ H _ _ (Qeq_refl (1 # 2))).
Qed.

Lemma round_half_even_mono (x y : Q) :
  (x <= y)%Q → round_half_even x <= round_half_even y.
Proof.
  intros Hxy. unfold round_half_even.
  pose proof (Qfloor_resp_le _ _ Hxy) as Hf.
  pose proof (Qfloor_le x) as Hx1. pose proof (Qlt_floor x) as Hx2.
  pose proof (Qfloor_le y) as Hy1. pose proof (Qlt_floor y) as Hy2.
  rewrite inject_Z_plus in Hx2, Hy2. change (inject_Z 1) with 1%Q in Hx2, Hy2.
  destruct (Z.eq_dec (Qfloor x) (Qfloor y)) as [Heq|Hne].
  - rewrite <- Heq in *.
    destruct (Qcompare_spec (x - inject_Z (Qfloor x)) (1 # 2)) as [Hx|Hx|Hx],
             (Qcompare_spec (y - inject_Z (Qfloor x)) (1 # 2)) as [Hy|Hy|Hy];
      try destruct (Z.even (Qfloor x)); try lia; exfalso; lra.
  - assert (Qfloor x + 1 <= Qfloor y) as Hlt by lia.
    destruct (Qcompare (x - inject_Z (Qfloor x)) (1 # 2)),
             (Qcompare (y - inject_Z (Qfloor y)) (1 # 2));
      try destruct (Z.even (Qfloor x)); try destruct (Z.even (Qfloor y)); lia.
Qed.

Lemma round_half_even_ge (y : Q) (n : Z) :
  (inject_Z n <= y)%Q → n <= round_half_even y.
Proof.
  intros H. rewrite <- (round_half_even_Z n). by apply round_half_even_mono.
Qed.

Lemma round_half_even_le (y : Q) (n : Z) :
  (y <= inject_Z n)%Q → round_half_even y <= n.
Proof.
  intros H. rewrite <- (round_half_even_Z n). by apply round_half_even_mono.
Qed.

Lemma round_half_even_opp (y : Q) : round_half_even (- y) = - round_half_even y.
Proof.
  unfold round_half_even.
  pose proof (Qfloor_le y) as Hy1. pose proof (Qlt_floor y) as Hy2.
  pose proof (Qfloor_le (- y)) as Hn1. pose proof (Qlt_floor (- y)) as Hn2.
  rewrite inject_Z_plus in Hy2, Hn2. change (inject_Z 1) with 1%Q in Hy2, Hn2.
  destruct (Qeq_dec y (inject_Z (Qfloor y))) as [Hint|Hfrac].
  - assert (Qfloor (- y) = - Qfloor y) as ->.
    { rewrite <- (Qfloor_Z (- Qfloor y)). apply Qfloor_comp.
      rewrite inject_Z_opp. by rewrite <- Hint. }
    assert (- y - inject_Z (- Qfloor y) == 0)%Q as H1.
    { rewrite inject_Z_opp. lra. }
    assert (y - inject_Z (Qfloor y) == 0)%Q as H2 by lra.
    rewrite (Qcompare_comp _ _ H1 _ _ (Qeq_refl (1 # 2))).
    by rewrite (Qcompare_comp _ _ H2 _ _ (Qeq_refl (1 # 2))).
  - assert (Qfloor (- y) = - Qfloor y - 1) as Hf.
    { assert (inject_Z (Qfloor y) < y)%Q as Hlt.
      { apply Qle_lteq in Hy1 as [H|H]; [done|]. exfalso. apply Hfrac. by symmetry. }
      assert (Qfloor (- y) < - Qfloor y).
      { rewrite Zlt_Qlt, inject_Z_opp. lra. }
      assert (- Qfloor y - 2 < Qfloor (- y)).
      { rewrite Zlt_Qlt, inject_Z_sub, inject_Z_opp.
        change (inject_Z 2) with 2%Q. lra. }
      lia. }
    rewrite Hf. rewrite inject_Z_sub, inject_Z_opp. change (inject_Z 1) with 1%Q.
    rewrite Z.even_sub, Z.even_opp. change (Z.even 1) with false.
    destruct (Qcompare_spec (- y - (- inject_Z (Qfloor y) - 1)) (1 # 2)) as [Hx|Hx|Hx],
             (Qcompare_spec (y - inject_Z (Qfloor y)) (1 # 2)) as [Hy|Hy|Hy];
      try (exfalso; lra); try destruct (Z.even (Qfloor y)); simpl; lia.
Qed.

Lemma ulp_exponent_low (x : Q) :
  ¬ (x == 0)%Q → (pow2 (ulp_exponent x + 52) <= Qabs x)%Q.
Proof.
  intros Hx. unfold ulp_exponent.
  set (n := Z.abs (Qnum x)). set (dn := Z.pos (Qden x)).
  set (k := Z.log2 n - Z.log2 dn - 53).
  destruct (Qle_bool (pow2 (k + 53)) (Qabs x)) eqn:Hb.
  - apply Qle_bool_iff in Hb. by replace (k + 1 + 52) with (k + 53) by lia.
  - clear Hb.
    assert (0 < n) as Hn.
    { unfold n. destruct x as [[|p|p] q]; simpl; try lia.
      exfalso. apply Hx. reflexivity. }
    assert (0 < dn) as Hdn by (unfold dn; lia).
    destruct (Z.log2_spec n Hn) as [Hn1 _].
    destruct (Z.log2_spec dn Hdn) as [_ Hd2].
    pose proof (Z.log2_nonneg n) as Hln. pose proof (Z.log2_nonneg dn) as Hld.
    assert (Qabs x == inject_Z n / inject_Z dn)%Q as ->.
    { destruct x as [xn xd]. unfold n, dn. simpl. unfold Qabs.
      rewrite (Qmake_Qdiv (Z.abs xn) xd). reflexivity. }
    replace (k + 52) with (Z.log2 n - Z.succ (Z.log2 dn)) by (unfold k; lia).
    assert (pow2 (Z.log2 n)
            == pow2 (Z.log2 n - Z.succ (Z.log2 dn)) * pow2 (Z.succ (Z.log2 dn)))%Q
      as Hsplit.
    { rewrite <- pow2_plus.
      by replace (Z.log2 n - Z.succ (Z.log2 dn) + Z.succ (Z.log2 dn))
        with (Z.log2 n) by lia. }
    rewrite (pow2_nonneg (Z.log2 n)), (pow2_nonneg (Z.succ (Z.log2 dn)))
      in Hsplit by lia.
    pose proof (pow2_pos (Z.log2 n - Z.succ (Z.log2 dn))) as HP.
    assert (inject_Z (2 ^ Z.log2 n) <= inject_Z n)%Q as H1
      by by apply inject_Z_le.
    assert (inject_Z dn <= inject_Z (2 ^ Z.succ (Z.log2 dn)))%Q as H2
      by (apply inject_Z_le; lia).
    assert (0 < inject_Z dn)%Q as H3 by by apply inject_Z_lt_0.
    apply Qle_shift_div_l; [done|].
    generalize dependent (pow2 (Z.log2 n - Z.succ (Z.log2 dn))).
    generalize dependent (inject_Z (2 ^ Z.log2 n)).
    generalize dependent (inject_Z (2 ^ Z.succ (Z.log2 dn))).
    generalize dependent (inject_Z n). generalize dependent (inject_Z dn).
    intros. nra.
Qed.

Lemma ulp_exponent_high (x : Q) :
  ¬ (x == 0)%Q → (Qabs x < pow2 (ulp_exponent x + 53))%Q.
Proof.
  intros Hx. unfold ulp_exponent.
  set (n := Z.abs (Qnum x)). set (dn := Z.pos (Qden x)).
  set (k := Z.log2 n - Z.log2 dn - 53).
  destruct (Qle_bool (pow2 (k + 53)) (Qabs x)) eqn:Hb.
  - clear Hb.
    assert (0 < n) as Hn.
    { unfold n. destruct x as [[|p|p] q]; simpl; try lia. exfalso. apply Hx. reflexivity. }
    assert (0 < dn) as Hdn by (unfold dn; lia).
    destruct (Z.log2_spec n Hn) as [_ Hn2].
    destruct (Z.log2_spec dn Hdn) as [Hd1 _].
    pose proof (Z.log2_nonneg n) as Hln. pose proof (Z.log2_nonneg dn) as Hld.
    rewrite (Qabs_as_quotient x). fold n dn.
    replace (k + 1 + 53) with (Z.succ (Z.log2 n) - Z.log2 dn) by (unfold k; lia).
    assert (pow2 (Z.succ (Z.log2 n))
            == pow2 (Z.succ (Z.log2 n) - Z.log2 dn) * pow2 (Z.log2 dn))%Q as Hsplit.
    { rewrite <- pow2_plus.
      by replace (Z.succ (Z.log2 n) - Z.log2 dn + Z.log2 dn)
        with (Z.succ (Z.log2 n)) by lia. }
    rewrite (pow2_nonneg (Z.succ (Z.log2 n))), (pow2_nonneg (Z.log2 dn)) in Hsplit by lia.
    pose proof (pow2_pos (Z.succ (Z.log2 n) - Z.log2 dn)) as HP.
    assert (inject_Z n < inject_Z (2 ^ Z.succ (Z.log2 n)))%Q as H1
      by (rewrite <- Zlt_Qlt; lia).
    assert (inject_Z (2 ^ Z.log2 dn) <= inject_Z dn)%Q as H2 by (apply inject_Z_le; lia).
    assert (0 < inject_Z dn)%Q as H3 by by apply inject_Z_lt_0.
    assert (0 < inject_Z (2 ^ Z.log2 dn))%Q as H4
      by (apply inject_Z_lt_0; apply Z.pow_pos_nonneg; lia).
    apply Qlt_shift_div_r; [done|].
    set (P := pow2 (Z.succ (Z.log2 n) - Z.log2 dn)) in *.
    set (A := inject_Z (2 ^ Z.succ (Z.log2 n))) in *.
    set (B := inject_Z (2 ^ Z.log2 dn)) in *.
    set (N := inject_Z n) in *. set (D := inject_Z dn) in *.
    clearbody P A B N D. clear -Hsplit HP H1 H2 H3 H4.
    assert (P * B <= P * D)%Q by (apply Qmult_le_l; lra).
    lra.
  - apply Qnot_le_lt. intros H. apply Qle_bool_iff in H. congruence.
Qed.

Lemma ulp_exponent_unique (x : Q) (e : Z) :
  (pow2 (e + 52) <= Qabs x)%Q → (Qabs x < pow2 (e + 53))%Q → ulp_exponent x = e.
Proof.
  intros Hlo Hhi.
  assert (¬ (x == 0)%Q) as Hx.
  { intros H. assert (Qabs x == 0)%Q as H0 by (by rewrite H).
    rewrite H0 in Hlo. pose proof (pow2_pos (e + 52)). lra. }
  pose proof (ulp_exponent_low x Hx) as Hl. pose proof (ulp_exponent_high x Hx) as Hh.
  set (e' := ulp_exponent x) in *.
  destruct (Z.lt_trichotomy e' e) as [Hlt|[Heq|Hgt]]; [|done|].
  - pose proof (pow2_le (e' + 53) (e + 52) ltac:(lia)). lra.
  - pose proof (pow2_le (e + 53) (e' + 52) ltac:(lia)). lra.
Qed.

Lemma ulp_exponent_comp (x y : Q) :
  ¬ (x == 0)%Q → (x == y)%Q → ulp_exponent x = ulp_exponent y.
Proof.
  intros Hx Hxy. symmetry. apply ulp_exponent_unique; rewrite <- Hxy.
  - by apply ulp_exponent_low.
  - by apply ulp_exponent_high.
Qed.

(** relative error *)
Lemma round53_error (x : Q) :
  (Qabs (round53 x - x) <= Qabs x * (1 # 9007199254740992))%Q.
Proof.
  unfold round53. destruct (Qeq_bool x 0) eqn:Hz.
  - apply Qeq_bool_iff in Hz. rewrite Hz. by vm_compute.
  - assert (¬ (x == 0)%Q) as Hx.
    { intros H. apply Qeq_bool_iff in H. congruence. }
    rewrite Qred_correct.
    set (e := ulp_exponent x).
    pose proof (pow2_pos e) as HP.
    pose proof (round_half_even_error (x / pow2 e)) as Hm.
    pose proof (ulp_exponent_low x Hx) as Hlow. fold e in Hlow.
    rewrite pow2_plus in Hlow.
    assert (pow2 52 == 4503599627370496)%Q as H52 by reflexivity.
    rewrite H52 in Hlow.
    set (m := inject_Z (round_half_even (x / pow2 e))) in *.
    assert (m * pow2 e - x == (m - x / pow2 e) * pow2 e)%Q as ->.
    { field. lra. }
    rewrite Qabs_Qmult, (Qabs_pos (pow2 e)) by lra.
    pose proof (Qabs_nonneg (m - x / pow2 e)) as H0.
    set (A := Qabs (m - x / pow2 e)) in *. set (B := Qabs x) in *.
    set (P := pow2 e) in *. clearbody A B P. clear -H0 Hm Hlow HP. nra.
Qed.

Lemma round53_nonneg (x : Q) :
  (0 <= x)%Q →
  (x * (1 - (1 # 9007199254740992)) <= round53 x
   <= x * (1 + (1 # 9007199254740992)))%Q.
Proof.
  intros Hx. pose proof (round53_error x) as He.
  rewrite (Qabs_pos x) in He by done. apply Qabs_Qle_condition in He. lra.
Qed.

Lemma round53_nonpos (x : Q) :
  (x <= 0)%Q →
  (x * (1 + (1 # 9007199254740992)) <= round53 x
   <= x * (1 - (1 # 9007199254740992)))%Q.
Proof.
  intros Hx. pose proof (round53_error x) as He.
  rewrite (Qabs_neg x) in He by done. apply Qabs_Qle_condition in He. lra.
Qed.

Lemma round53_comp (x y : Q) : (x == y)%Q → round53 x = round53 y.
Proof.
  intros Hxy. unfold round53.
  destruct (Qeq_bool x 0) eqn:Hx0, (Qeq_bool y 0) eqn:Hy0; [done|..].
  - apply Qeq_bool_iff in Hx0. rewrite Hxy in Hx0. apply Qeq_bool_iff in Hx0.
    congruence.
  - apply Qeq_bool_iff in Hy0. rewrite <- Hxy in Hy0. apply Qeq_bool_iff in Hy0.
    congruence.
  - assert (¬ (x == 0)%Q) as Hx.
    { intros H. apply Qeq_bool_iff in H. congruence. }
    rewrite <- (ulp_exponent_comp x y Hx Hxy).
    apply Qred_complete.
    assert (∀ p, x / p == y / p)%Q as H by (intros p; by rewrite Hxy).
    by rewrite (round_half_even_comp _ _ (H _)).
Qed.

(** A number with a significand of at most 53 bits is a double. *)
Lemma round53_exact (x : Q) (m k : Z) :
  Z.abs m < 2 ^ 53 → (x == inject_Z m * pow2 k)%Q → (round53 x == x)%Q.
Proof.
  intros Hm Hx. unfold round53. destruct (Qeq_bool x 0) eqn:Hz.
  - apply Qeq_bool_iff in Hz. by rewrite Hz.
  - assert (¬ (x == 0)%Q) as Hx0. { intros H. apply Qeq_bool_iff in H. congruence. }
    rewrite Qred_correct.
    pose proof (ulp_exponent_low x Hx0) as Hlow.
    set (e := ulp_exponent x) in *.
    assert (e <= k) as Hek.
    { destruct (Z.le_gt_cases e k) as [|Hgt]; [done|]. exfalso.
      assert (Qabs x == inject_Z (Z.abs m) * pow2 k)%Q as Habs.
      { rewrite Hx, Qabs_Qmult, Qabs_inject_Z.
        by rewrite (Qabs_pos (pow2 k)) by apply Qlt_le_weak, pow2_pos. }
      rewrite Habs in Hlow.
      pose proof (pow2_le (k + 53) (e + 52) ltac:(lia)) as Hle.
      rewrite pow2_plus in Hle.
      assert (pow2 53 == inject_Z (2 ^ 53))%Q as H53 by reflexivity.
      rewrite H53 in Hle.
      assert (inject_Z (Z.abs m) < inject_Z (2 ^ 53))%Q as Hlt by by rewrite <- Zlt_Qlt.
      pose proof (pow2_pos k) as HP.
      set (P := pow2 k) in *. set (A := inject_Z (Z.abs m)) in *.
      set (B := inject_Z (2 ^ 53)) in *. set (L := pow2 (e + 52)) in *.
      clearbody P A B L. clear -Hle Hlt HP Hlow.
      assert (A * P < B * P)%Q by (apply Qmult_lt_compat_r; lra). lra. }
    assert (x / pow2 e == inject_Z (m * 2 ^ (k - e)))%Q as Hq.
    { rewrite Hx, inject_Z_mult, <- (pow2_nonneg (k - e)) by lia.
      replace k with (e + (k - e)) at 1 by lia. rewrite pow2_plus.
      pose proof (pow2_pos e). field. lra. }
    rewrite (round_half_even_comp _ _ Hq), round_half_even_Z, <- Hq.
    pose proof (pow2_pos e). field. lra.
Qed.

Lemma round53_opp (x : Q) : (round53 (- x) == - round53 x)%Q.
Proof.
  unfold round53.
  destruct (Qeq_bool x 0) eqn:Hx0.
  - apply Qeq_bool_iff in Hx0.
    assert (Qeq_bool (- x) 0 = true) as -> by (apply Qeq_bool_iff; lra).
    reflexivity.
  - assert (¬ (x == 0)%Q) as Hx. { intros H. apply Qeq_bool_iff in H. congruence. }
    assert (Qeq_bool (- x) 0 = false) as ->.
    { destruct (Qeq_bool (- x) 0) eqn:H; [|done]. apply Qeq_bool_iff in H.
      exfalso. apply Hx. lra. }
    assert (ulp_exponent (- x) = ulp_exponent x) as ->.
    { apply ulp_exponent_unique; rewrite Qabs_opp.
      - by apply ulp_exponent_low.
      - by apply ulp_exponent_high. }
    rewrite !Qred_correct.
    pose proof (pow2_pos (ulp_exponent x)) as HP.
    assert (- x / pow2 (ulp_exponent x) == - (x / pow2 (ulp_exponent x)))%Q as H
      by (field; lra).
    rewrite (round_half_even_comp _ _ H), round_half_even_opp, inject_Z_opp. ring.
Qed.

Lemma round53_mono_pos (x y : Q) :
  (0 < x)%Q → (x <= y)%Q → (round53 x <= round53 y)%Q.
Proof.
  intros Hx Hxy. unfold round53.
  assert (¬ (x == 0)%Q) as Hx0 by lra. assert (¬ (y == 0)%Q) as Hy0 by lra.
  assert (Qeq_bool x 0 = false) as ->.
  { destruct (Qeq_bool x 0) eqn:H; [|done]. by apply Qeq_bool_iff in H. }
  assert (Qeq_bool y 0 = false) as ->.
  { destruct (Qeq_bool y 0) eqn:H; [|done]. by apply Qeq_bool_iff in H. }
  rewrite !Qred_correct.
  pose proof (ulp_exponent_low x Hx0) as Hxl.
  pose proof (ulp_exponent_high x Hx0) as Hxh.
  pose proof (ulp_exponent_low y Hy0) as Hyl.
  pose proof (ulp_exponent_high y Hy0) as Hyh.
  rewrite (Qabs_pos x) in Hxl, Hxh by lra. rewrite (Qabs_pos y) in Hyl, Hyh by lra.
  set (ex := ulp_exponent x) in *. set (ey := ulp_exponent y) in *.
  pose proof (pow2_pos ex) as HPx. pose proof (pow2_pos ey) as HPy.
  assert (pow2 52 == inject_Z (2 ^ 52))%Q as H52 by reflexivity.
  assert (pow2 53 == inject_Z (2 ^ 53))%Q as H53 by reflexivity.
  destruct (Z.lt_trichotomy ex ey) as [Hlt|[Heq|Hgt]].
  - assert (round_half_even (x / pow2 ex) <= 2 ^ 53) as Hmx.
    { apply round_half_even_le. rewrite <- H53.
      apply Qle_shift_div_r; [done|]. rewrite <- pow2_plus.
      replace (53 + ex) with (ex + 53) by lia. lra. }
    assert (2 ^ 52 <= round_half_even (y / pow2 ey)) as Hmy.
    { apply round_half_even_ge. rewrite <- H52.
      apply Qle_shift_div_l; [done|]. rewrite <- pow2_plus.
      replace (52 + ey) with (ey + 52) by lia. lra. }
    apply inject_Z_le in Hmx, Hmy. rewrite <- H53 in Hmx. rewrite <- H52 in Hmy.
    pose proof (pow2_le (ex + 53) (ey + 52) ltac:(lia)) as Hle.
    rewrite (pow2_plus ex 53) in Hle. rewrite (pow2_plus ey 52) in Hle.
    set (mx := inject_Z (round_half_even (x / pow2 ex))) in *.
    set (my := inject_Z (round_half_even (y / pow2 ey))) in *.
    set (Px := pow2 ex) in *. set (Py := pow2 ey) in *.
    set (A := pow2 53) in *. set (B := pow2 52) in *.
    clearbody mx my Px Py A B. clear -Hmx Hmy Hle HPx HPy.
    assert (mx * Px <= A * Px)%Q by (apply Qmult_le_compat_r; lra).
    assert (B * Py <= my * Py)%Q by (apply Qmult_le_compat_r; lra).
    lra.
  - rewrite <- Heq in *.
    assert (x / pow2 ex <= y / pow2 ex)%Q as Hq.
    { apply Qle_shift_div_l; [done|].
      assert (x / pow2 ex * pow2 ex == x)%Q as -> by (field; lra). done. }
    apply round_half_even_mono, inject_Z_le in Hq.
    apply Qmult_le_compat_r; lra.
  - exfalso. pose proof (pow2_le (ey + 53) (ex + 52) ltac:(lia)). lra.
Qed.

Lemma round53_mono (x y : Q) : (x <= y)%Q → (round53 x <= round53 y)%Q.
Proof.
  intros Hxy.
  destruct (Qlt_le_dec 0 x) as [Hx|Hx]; [by apply round53_mono_pos|].
  destruct (Qlt_le_dec y 0) as [Hy|Hy].
  - assert (round53 (- y) <= round53 (- x))%Q as H
      by (apply round53_mono_pos; lra).
    rewrite !round53_opp in H. lra.
  - pose proof (round53_nonpos x Hx). pose proof (round53_nonneg y Hy).
    assert (0 < 1 - (1 # 9007199254740992))%Q as He by reflexivity.
    assert (0 < 1 + (1 # 9007199254740992))%Q as He' by reflexivity.
    set (e1 := (1 - (1 # 9007199254740992))%Q) in *.
    set (e2 := (1 + (1 # 9007199254740992))%Q) in *.
    clearbody e1 e2.
    assert (x * e1 <= 0)%Q by nra. assert (0 <= y * e1)%Q by nra. lra.
Qed.

(** * Percentages (lines 112-116) *)

Lemma percentage_unit_apart (d : Z) :
  d ≠ 0 → ¬ (percentage_unit d == 0)%Q.
Proof.
  intros Hd Hu. unfold percentage_unit in Hu.
  destruct (Z.lt_trichotomy d 0) as [Hneg|[->|Hpos]]; [|done|].
  - assert (inject_Z d / 100 < 0)%Q as Ha.
    { assert (inject_Z d < 0)%Q by (unfold Qlt; simpl; lia).
      apply Qlt_shift_div_r; lra. }
    pose proof (round53_nonpos _ (Qlt_le_weak _ _ Ha)). lra.
  - assert (0 < inject_Z d / 100)%Q as Ha.
    { assert (0 < inject_Z d)%Q by (unfold Qlt; simpl; lia).
      apply Qlt_shift_div_l; lra. }
    pose proof (round53_nonneg _ (Qlt_le_weak _ _ Ha)). lra.
Qed.

Lemma percentage_unit_pos (d : Z) : 0 < d → (0 < percentage_unit d)%Q.
Proof.
  intros Hd. unfold percentage_unit.
  assert (0 < inject_Z d / 100)%Q as Ha.
  { assert (0 < inject_Z d)%Q by (unfold Qlt; simpl; lia).
    apply Qlt_shift_div_l; lra. }
  pose proof (round53_nonneg _ (Qlt_le_weak _ _ Ha)). lra.
Qed.

Lemma percentage_unit_hundreds (m : Z) :
  Z.abs m < 2 ^ 53 → (percentage_unit (100 * m) == inject_Z m)%Q.
Proof.
  intros Hm. unfold percentage_unit.
  assert (inject_Z (100 * m) / 100 == inject_Z m)%Q as H.
  { rewrite inject_Z_mult. change (inject_Z 100) with 100%Q. field. }
  rewrite (round53_comp _ _ H). apply (round53_exact _ m 0); [done|].
  change (pow2 0) with 1%Q. ring.
Qed.

Lemma percentage_unit_nonzero (d : Z) :
  d ≠ 0 → Qeq_bool (percentage_unit d) 0 = false.
Proof.
  intros Hd. destruct (Qeq_bool (percentage_unit d) 0) eqn:H; [|done].
  apply Qeq_bool_iff in H. by apply percentage_unit_apart in H.
Qed.

Lemma inject_Z_nonzero (d : Z) : d ≠ 0 → ¬ (inject_Z d == 0)%Q.
Proof. intros Hd H. unfold Qeq in H. simpl in H. lia. Qed.

Lemma percentage_unit_zero : percentage_unit 0 = 0%Q.
Proof. reflexivity. Qed.

Lemma js_div_unit (t d : Z) :
  d ≠ 0 →
  js_div t (percentage_unit d) = Finite (round53 (inject_Z t / percentage_unit d)).
Proof. intros Hd. unfold js_div. by rewrite percentage_unit_nonzero. Qed.

Lemma rate_percentage (d : Z) (s : NamedSlice) :
  d ≠ 0 →
  NamedSlice.percentage (rate (percentage_unit d) s)
  = Finite (share_percent (NamedSlice.total s) d).
Proof. intros Hd. unfold rate. simpl. by rewrite js_div_unit. Qed.

Lemma quotient_close (t d : Z) :
  0 < d →
  (Qabs (round53 (inject_Z t / percentage_unit d) - inject_Z t * 100 / inject_Z d)
   <= Qabs (inject_Z t * 100 / inject_Z d) * (1 # 2251799813685248))%Q.
Proof.
  intros Hd.
  assert (0 < inject_Z d)%Q as HD by (unfold Qlt; simpl; lia).
  assert (0 < inject_Z d / 100)%Q as Ha by (apply Qlt_shift_div_l; lra).
  pose proof (round53_nonneg _ (Qlt_le_weak _ _ Ha)) as Hu.
  change (round53 (inject_Z d / 100)) with (percentage_unit d) in Hu.
  set (a := (inject_Z d / 100)%Q) in *. set (u := percentage_unit d) in *.
  assert (0 < u)%Q as Hu0 by lra.
  set (x := (inject_Z t * 100 / inject_Z d)%Q).
  set (r := (inject_Z t / u)%Q).
  assert (r * u == x * a)%Q as Hr by (unfold r, x, a; field; lra).
  set (e := (1 # 9007199254740992)%Q) in *.
  assert (0 < e < 1 # 4)%Q as He by (unfold e; split; reflexivity).
  destruct (Z.le_gt_cases 0 t) as [Ht|Ht].
  - assert (0 <= inject_Z t)%Q as HT by (unfold Qle; simpl; lia).
    assert (0 <= r)%Q as Hr0 by (apply Qle_shift_div_l; lra).
    assert (0 <= x)%Q as Hx0.
    { unfold x. apply Qle_shift_div_l; [done|]. lra. }
    pose proof (round53_nonneg r Hr0) as Hq. fold e in Hq.
    assert (0 <= x - r * (1 - e))%Q as H1.
    { apply (Qmult_nonneg_cancel a); [done|].
      assert (0 <= r * (u - a * (1 - e)))%Q as H by (apply Qmult_le_0_compat; lra).
      assert (a * (x - r * (1 - e)) == r * (u - a * (1 - e)) + (x * a - r * u))%Q as -> by ring.
      lra. }
    assert (0 <= r * (1 + e) - x)%Q as H2.
    { apply (Qmult_nonneg_cancel a); [done|].
      assert (0 <= r * (a * (1 + e) - u))%Q as H by (apply Qmult_le_0_compat; lra).
      assert (a * (r * (1 + e) - x) == r * (a * (1 + e) - u) - (x * a - r * u))%Q as -> by ring.
      lra. }
    rewrite (Qabs_pos x) by done. apply Qabs_Qle_condition.
    assert (0 <= x * e)%Q by (apply Qmult_le_0_compat; lra).
    assert (0 <= r * e)%Q by (apply Qmult_le_0_compat; lra).
    assert (0 <= (x * e) * e)%Q by (apply Qmult_le_0_compat; lra).
    assert (0 <= (r * e) * e)%Q by (apply Qmult_le_0_compat; lra).
    assert (x * (1 # 2251799813685248) == 4 * (x * e))%Q as ->.
    { unfold e. ring. }
    clearbody e x r. clear -H H0 H1 H2 H3 He Hq Hr0 Hx0 H4. nra.
  - assert (inject_Z t <= 0)%Q as HT by (unfold Qle; simpl; lia).
    assert (r <= 0)%Q as Hr0.
    { unfold r. apply Qle_shift_div_r; lra. }
    assert (x <= 0)%Q as Hx0.
    { unfold x. apply Qle_shift_div_r; [done|]. lra. }
    pose proof (round53_nonpos r Hr0) as Hq. fold e in Hq.
    assert (0 <= r * (1 - e) - x)%Q as H1.
    { apply (Qmult_nonneg_cancel a); [done|].
      assert (0 <= (- r) * (u - a * (1 - e)))%Q as H by (apply Qmult_le_0_compat; lra).
      assert (a * (r * (1 - e) - x) == (- r) * (u - a * (1 - e)) - (x * a - r * u))%Q as -> by ring.
      lra. }
    assert (0 <= x - r * (1 + e))%Q as H2.
    { apply (Qmult_nonneg_cancel a); [done|].
      assert (0 <= (- r) * (a * (1 + e) - u))%Q as H by (apply Qmult_le_0_compat; lra).
      assert (a * (x - r * (1 + e)) == (- r) * (a * (1 + e) - u) + (x * a - r * u))%Q as -> by ring.
      lra. }
    rewrite (Qabs_neg x) by done. apply Qabs_Qle_condition.
    assert (0 <= (- x) * e)%Q by (apply Qmult_le_0_compat; lra).
    assert (0 <= (- r) * e)%Q by (apply Qmult_le_0_compat; lra).
    assert (0 <= ((- x) * e) * e)%Q by (apply Qmult_le_0_compat; lra).
    assert (0 <= ((- r) * e) * e)%Q by (apply Qmult_le_0_compat; lra).
    assert (- x * (1 # 2251799813685248) == 4 * (- x * e))%Q as ->.
    { unfold e. ring. }
    clearbody e x r. clear -H H0 H1 H2 H3 He Hq Hr0 Hx0 H4. nra.
Qed.

Lemma share_error (t d : Z) :
  0 < d →
  (Qabs (inject_Z (share_percent t d) - inject_Z t * 100 / inject_Z d)
   <= (1 # 2) + Qabs (inject_Z t * 100 / inject_Z d) * (1 # 2251799813685248))%Q.
Proof.
  intros Hd. unfold share_percent.
  pose proof (quotient_close t d Hd) as Hq.
  set (q := round53 (inject_Z t / percentage_unit d)) in *.
  pose proof (Qfloor_le (q + (1 # 2))) as Hlo.
  pose proof (Qlt_floor (q + (1 # 2))) as Hhi.
  rewrite inject_Z_plus in Hhi. change (inject_Z 1) with 1%Q in Hhi.
  apply Qabs_Qle_condition in Hq. apply Qabs_Qle_condition. lra.
Qed.

Lemma share_bounds (t d : Z) :
  0 < d →
  let z := share_percent t d in
  2251799813685248 * (2 * z * d - d) <= 2251799813685248 * (200 * t) + 200 * Z.abs t
  ∧ 2251799813685248 * (200 * t) - 200 * Z.abs t < 2251799813685248 * (2 * z * d + d).
Proof.
  intros Hd z. pose proof (quotient_close t d Hd) as Hq.
  assert (0 < inject_Z d)%Q as HD by (unfold Qlt; simpl; lia).
  assert (Qabs (inject_Z t * 100 / inject_Z d) == inject_Z (Z.abs t) * 100 / inject_Z d)%Q
    as Habs.
  { unfold Qdiv. rewrite !Qabs_Qmult, Qabs_inject_Z.
    rewrite (Qabs_pos 100) by done.
    rewrite (Qabs_pos (/ inject_Z d)); [done|].
    apply Qlt_le_weak, Qinv_lt_0_compat, HD. }
  rewrite Habs in Hq. apply Qabs_Qle_condition in Hq. destruct Hq as [Hq1 Hq2].
  unfold z, share_percent.
  set (q := round53 (inject_Z t / percentage_unit d)) in *.
  pose proof (Qfloor_le (q + (1 # 2))) as Hlo.
  pose proof (Qlt_floor (q + (1 # 2))) as Hhi.
  rewrite inject_Z_plus in Hhi. change (inject_Z 1) with 1%Q in Hhi.
  set (fz := inject_Z (Qfloor (q + (1 # 2)))) in *.
  set (x := (inject_Z t * 100 / inject_Z d)%Q) in *.
  set (X := (inject_Z (Z.abs t) * 100 / inject_Z d)%Q) in *.
  assert (x * inject_Z d == inject_Z t * 100)%Q as Hx by (unfold x; field; lra).
  assert (X * inject_Z d == inject_Z (Z.abs t) * 100)%Q as HX by (unfold X; field; lra).
  set (e := (1 # 2251799813685248)%Q) in *.
  split.
  - rewrite Zle_Qle.
    rewrite !inject_Z_plus, !inject_Z_mult, inject_Z_sub, !inject_Z_mult.
    fold fz.
    assert (0 <= inject_Z d * ((1 # 2) + X * e - (fz - x)))%Q as Hp
      by (apply Qmult_le_0_compat; lra).
    assert (inject_Z d * ((1 # 2) + X * e - (fz - x))
            == inject_Z d * (1 # 2) + (X * inject_Z d) * e
               - inject_Z d * fz + x * inject_Z d)%Q as E by ring.
    rewrite E, Hx, HX in Hp. unfold e in Hp.
    change (inject_Z 2251799813685248) with 2251799813685248%Q.
    change (inject_Z 200) with 200%Q. change (inject_Z 2) with 2%Q.
    lra.
  - rewrite Zlt_Qlt.
    rewrite !inject_Z_mult, inject_Z_sub, inject_Z_plus, !inject_Z_mult.
    fold fz.
    assert (0 < inject_Z d * ((fz - x) + ((1 # 2) + X * e)))%Q as Hp
      by (apply Qmult_lt_0_compat; lra).
    assert (inject_Z d * ((fz - x) + ((1 # 2) + X * e))
            == inject_Z d * (1 # 2) + (X * inject_Z d) * e
               + inject_Z d * fz - x * inject_Z d)%Q as E by ring.
    rewrite E, Hx, HX in Hp. unfold e in Hp.
    change (inject_Z 2251799813685248) with 2251799813685248%Q.
    change (inject_Z 200) with 200%Q. change (inject_Z 2) with 2%Q.
    lra.
Qed.

Lemma share_range (t d : Z) :
  0 < d → 0 <= t <= d → 0 <= share_percent t d <= 100.
Proof.
  intros Hd Ht. destruct (share_bounds t d Hd) as [Ha Hb].
  rewrite Z.abs_eq in Ha, Hb by lia.
  set (z := share_percent t d) in *. clearbody z. split; nia.
Qed.

Lemma share_nearest (t d : Z) :
  0 < d → Z.abs t <= 8796093022208 →
  let z := share_percent t d in
  2 * z * d - d <= 200 * t <= 2 * z * d + d
  ∧ ((∀ k, 200 * t ≠ (2 * k + 1) * d) → z = (200 * t + d) / (2 * d)).
Proof.
  intros Hd Ht z. destruct (share_bounds t d Hd) as [Ha Hb]. fold z in Ha, Hb.
  clearbody z.
  assert (2 * z * d - d <= 200 * t <= 2 * z * d + d) as Hn by lia.
  split; [done|]. intros Htie. specialize (Htie z).
  apply (Z.div_unique _ _ z (200 * t + d - 2 * d * z)); lia.
Qed.

Lemma share_threshold (t d : Z) :
  0 < d → 0 <= t →
  (99 <= share_percent t d →
   2251799813685248 * (197 * d) <= 2251799813685249 * (200 * t))
  ∧ (2251799813685248 * (197 * d) <= 2251799813685247 * (200 * t) →
     99 <= share_percent t d).
Proof.
  intros Hd Ht. destruct (share_bounds t d Hd) as [Ha Hb].
  rewrite Z.abs_eq in Ha, Hb by lia.
  set (z := share_percent t d) in *. clearbody z. split; intros H; nia.
Qed.

Lemma share_percent_mono (t1 t2 d : Z) :
  0 < d → t1 <= t2 → share_percent t1 d <= share_percent t2 d.
Proof.
  intros Hd Ht. unfold share_percent. apply Qfloor_resp_le.
  pose proof (percentage_unit_pos d Hd) as Hu.
  assert (round53 (inject_Z t1 / percentage_unit d)
          <= round53 (inject_Z t2 / percentage_unit d))%Q as H.
  { apply round53_mono. apply Qmult_le_compat_r.
    - by apply inject_Z_le.
    - apply Qlt_le_weak, Qinv_lt_0_compat, Hu. }
  lra.
Qed.

(** A share that lies halfway between two whole numbers is computed
    exactly, and rounded upwards, when the duration is a multiple of 100. *)
Lemma share_exact_tie (t d z : Z) :
  0 < d → Z.abs t <= 8796093022208 → (100 | d) →
  200 * t = (2 * z + 1) * d → share_percent t d = z + 1.
Proof.
  intros Hd Ht [m ->] Htie.
  assert (0 < m) as Hm by lia.
  assert (2 * t = (2 * z + 1) * m) as Htm by lia.
  assert (Z.abs m <= 2 * Z.abs t ∧ Z.abs (2 * z + 1) <= 2 * Z.abs t) as [Hm2 Hz2]
    by nia.
  unfold share_percent. replace (m * 100) with (100 * m) by lia.
  assert (inject_Z t / percentage_unit (100 * m) == inject_Z (2 * z + 1) * pow2 (-1))%Q
    as Hq.
  { rewrite percentage_unit_hundreds by lia.
    assert (inject_Z 2 * inject_Z t == inject_Z (2 * z + 1) * inject_Z m)%Q as H
      by (by rewrite <- !inject_Z_mult, Htm).
    change (inject_Z 2) with 2%Q in H. change (pow2 (-1)) with (1 # 2)%Q.
    assert (0 < inject_Z m)%Q as HM by by apply inject_Z_lt_0.
    apply (Qmult_inj_r _ _ (inject_Z m)); [lra|].
    assert (inject_Z t / inject_Z m * inject_Z m == inject_Z t)%Q as -> by (field; lra).
    lra. }
  pose proof (round53_exact _ (2 * z + 1) (-1) ltac:(lia) Hq) as Hr.
  rewrite <- (Qfloor_Z (z + 1)). apply Qfloor_comp. rewrite Hr, Hq.
  rewrite !inject_Z_plus, inject_Z_mult. change (pow2 (-1)) with (1 # 2)%Q.
  change (inject_Z 2) with 2%Q. change (inject_Z 1) with 1%Q. field.
Qed.

(** With a total of at most [2^43] and a duration that is a multiple of 100
    the percentage is the rounded share. *)
Lemma share_hundreds (t d : Z) :
  0 < d → Z.abs t <= 8796093022208 → (100 | d) →
  share_percent t d = (200 * t + d) / (2 * d).
Proof.
  intros Hd Ht Hdiv.
  destruct (share_nearest t d Hd Ht) as [Hn Hk].
  set (z := share_percent t d) in *.
  destruct (Z.eq_dec (200 * t) (2 * z * d + d)) as [Heq|Hne].
  - pose proof (share_exact_tie t d z Hd Ht Hdiv ltac:(lia)) as H. fold z in H. lia.
  - apply (Z.div_unique _ _ z (200 * t + d - 2 * d * z)); lia.
Qed.

Lemma share_threshold_small (t d : Z) :
  0 < d → Z.abs t <= 8796093022208 →
  99 <= share_percent t d ↔ 197 * d <= 200 * t.
Proof.
  intros Hd Ht.
  destruct (share_nearest t d Hd Ht) as [Hn _].
  split.
  - intros Hz. set (z := share_percent t d) in *. clearbody z. nia.
  - intros Hle. destruct (Z.eq_dec (200 * t) (197 * d)) as [Heq|Hne].
    + assert ((200 | d)) as [j Hj].
      { apply (Z.gauss 200 197 d); [exists t; lia|reflexivity]. }
      rewrite (share_exact_tie t d 98 Hd Ht); [lia| |lia].
      exists (2 * j). lia.
    + set (z := share_percent t d) in *. clearbody z. nia.
Qed.

(** The model of the division against the division of the machine, on the
    operands of the scenarios of this file and on some others. *)
Example double_division_agrees :
  forallb agrees_with_machine
    [(5500000, 6000000); (500000, 6000000); (9900000, 10000000);
     (21, 56); (1, 8); (54151212012943, 54975849759333);
     (3125010, 5000016); (5, 10); (5, -10); (-21, 56); (1, 3); (2, 3);
     (6000000, 7); (1, 9007199254740991); (9007199254740991, 7);
     (123456789, 987654321987); (4999999, 5000000); (98, 99)]
  = true.
Proof. by vm_compute. Qed.

Example double_division_agrees_on_small_operands :
  forallb agrees_with_machine small_operands = true.
Proof. vm_compute. reflexivity. Qed.

Example percentage_of_scenario_half :
  NamedSlice.percentage <$> fst (analyse scenario_half) = [Finite 37]
  ∧ Qfloor (inject_Z 21 * 100 / inject_Z 56 + (1 # 2))%Q = 38
  ∧ (inject_Z 21 * 100 / inject_Z 56 == 75 # 2)%Q.
Proof. by vm_compute. Qed.

(** The percentage is not always the rounded share.  With one sample of 21
    over a duration of 56 the share is 37.5 per cent, which rounds to 38;
    the code divides 21 by the double nearest to 0.56, which lies above
    0.56, gets 37.49999999999999 and stores 37. *)
Lemma rounded_share_is_not_the_percentage :
  ¬ (∀ profile : IExtensionHostProfile,
       let duration := endTime profile - startTime profile in
       aligned profile → 0 < duration →
       ∀ s, s ∈ fst (analyse profile) →
         NamedSlice.percentage s
         = Finite (Qfloor (inject_Z (NamedSlice.total s) * 100 / inject_Z duration
                           + (1 # 2))%Q)).
Proof.
  intros H.
  specialize (H scenario_half eq_refl eq_refl (NamedSlice.mk "ext.a" 21 (Finite 37))).
  assert (NamedSlice.mk "ext.a" 21 (Finite 37) ∈ fst (analyse scenario_half)) as Hin.
  { replace (fst (analyse scenario_half))
      with [NamedSlice.mk "ext.a" 21 (Finite 37)] by (by vm_compute).
    left. }
  specialize (H Hin). vm_compute in H. discriminate H.
Qed.

(** C5, amended.  In a profile with [duration = endTime - startTime > 0],
    the percentage of every merged slice is a whole number [z], the result
    of [Math.round(total / (duration / 100))] with both divisions rounded to
    a double.  It lies within [1/2 + share * 2^-51] of the exact
    [share = total * 100 / duration].  For a total of at most [2^43] it is a
    whole number nearest to the share; it is [Math.round(share)] whenever
    the duration is a multiple of 100, and whenever the share does not lie
    exactly halfway between two whole numbers; halfway it is one of the
    two, and not always the same one.  The two scenarios of the
    specification give 92 (and 8) and 99; 21 over 56 gives 37 and 1 over 8
    gives 13; a total just below 98.5 per cent of a very long capture
    gives 99. *)
Theorem percentage_is_rounded_quotient :
  (∀ profile : IExtensionHostProfile,
     let duration := endTime profile - startTime profile in
     aligned profile → 0 < duration →
     ∀ s, s ∈ fst (analyse profile) →
       let share := (inject_Z (NamedSlice.total s) * 100 / inject_Z duration)%Q in
       ∃ z : Z,
         NamedSlice.percentage s = Finite z
         ∧ Math_round (js_div (NamedSlice.total s) (percentage_unit duration))
           = Finite z
         ∧ (Qabs (inject_Z z - share)
            <= (1 # 2) + Qabs share * (1 # 2251799813685248))%Q
         ∧ (Z.abs (NamedSlice.total s) <= 8796093022208 →
            2 * z * duration - duration
            <= 200 * NamedSlice.total s
            <= 2 * z * duration + duration
            ∧ ((∀ k, 200 * NamedSlice.total s ≠ (2 * k + 1) * duration)
               ∨ (100 | duration) →
               z = Qfloor (share + (1 # 2))%Q)))
  ∧ NamedSlice.percentage <$> fst (analyse scenario_one) = [Finite 92; Finite 8]
  ∧ NamedSlice.percentage <$> fst (analyse scenario_two) = [Finite 99]
  ∧ NamedSlice.percentage <$> fst (analyse scenario_half) = [Finite 37]
  ∧ NamedSlice.percentage <$> fst (analyse scenario_eighth) = [Finite 13]
  ∧ NamedSlice.percentage <$> fst (analyse scenario_near_half) = [Finite 99].
Proof.
  split; [|by vm_compute].
  intros profile duration _ Hd s. rewrite analyse_values. cbn [fst]. fold duration.
  intros (s0 & -> & _)%list_elem_of_fmap. cbv zeta.
  assert (duration ≠ 0) as Hd0 by lia.
  exists (share_percent (NamedSlice.total s0) duration).
  split; [by apply rate_percentage|].
  cbn [rate set_percentage NamedSlice.total].
  split; [by rewrite js_div_unit|].
  split; [by apply share_error|].
  intros Hsmall.
  destruct (share_nearest (NamedSlice.total s0) duration Hd Hsmall) as [Hn Htie].
  split; [done|]. intros Hk.
  assert (share_percent (NamedSlice.total s0) duration
          = (200 * NamedSlice.total s0 + duration) / (2 * duration)) as ->.
  { destruct Hk as [Hk|Hk]; [by apply Htie|by apply share_hundreds]. }
  symmetry. rewrite Zdiv_Qdiv. apply Qfloor_comp.
  rewrite !inject_Z_plus, !inject_Z_mult. field. by apply inject_Z_nonzero.
Qed.

Lemma percentage_is_rounded_quotient_witness :
  aligned scenario_two
  ∧ 0 < endTime scenario_two - startTime scenario_two
  ∧ ∃ z : Z,
      NamedSlice.percentage (NamedSlice.mk "ext.c" 9900000 (Finite 99)) = Finite z
      ∧ 2 * z * 10000000 - 10000000 <= 200 * 9900000 <= 2 * z * 10000000 + 10000000.
Proof.
  split; [reflexivity|]. split; [reflexivity|].
  destruct (proj1 percentage_is_rounded_quotient scenario_two
              ltac:(reflexivity) ltac:(reflexivity)
              (NamedSlice.mk "ext.c" 9900000 (Finite 99)))
    as (z & Hp & _ & _ & Hn).
  - replace (analyse scenario_two).1
      with [NamedSlice.mk "ext.c" 9900000 (Finite 99)] by (by vm_compute).
    left.
  - exists z. split; [exact Hp|]. apply Hn. by vm_compute.
Defined.

(** * The top slice (lines 114-120) *)

Lemma js_lt_irrefl (a : number Z) : js_lt a a = false.
Proof. destruct a; simpl; [apply Z.ltb_irrefl|done..]. Qed.

Lemma js_lt_trans (a b c : number Z) :
  js_lt a b = true → js_lt b c = true → js_lt a c = true.
Proof.
  destruct a, b, c; simpl; try done.
  rewrite !Z.ltb_lt. lia.
Qed.

Lemma js_eq_lt (t s x : number Z) : js_eq s x = true → js_lt t x = js_lt t s.
Proof.
  destruct t, s, x; simpl; try done.
  intros ->%Z.eqb_eq. done.
Qed.

Lemma js_ge_of_not_lt (a b : number Z) :
  is_NaN a = false → is_NaN b = false → js_lt a b = false → js_ge a b = true.
Proof.
  destruct a, b; simpl; try done.
  rewrite Z.ltb_ge, Z.leb_le. done.
Qed.

Lemma js_lt_of_ge_ne (a b : number Z) :
  js_ge a b = true → js_eq b a = false → js_lt b a = true.
Proof.
  destruct a, b; simpl; try done.
  rewrite Z.leb_le, Z.eqb_neq, Z.ltb_lt. lia.
Qed.

Lemma pick_snoc (l : list NamedSlice) (x : NamedSlice) :
  pick (l ++ [x]) = pick_step (pick l) x.
Proof. unfold pick. by rewrite fold_left_app. Qed.

(** The scan keeps the first slice that no other slice exceeds. *)
Lemma pick_first_maximal (l : list NamedSlice) :
  l ≠ [] →
  ∃ (t : NamedSlice) (k : nat),
    pick l = Some t ∧ l !! k = Some t
    ∧ (∀ s, s ∈ l →
         js_lt (NamedSlice.percentage t) (NamedSlice.percentage s) = false)
    ∧ (∀ j s, (j < k)%nat → l !! j = Some s →
         js_eq (NamedSlice.percentage s) (NamedSlice.percentage t) = false).
Proof.
  induction l as [|x l IH] using rev_ind; [done|]. intros _.
  rewrite pick_snoc. destruct l as [|y l'] eqn:Hl.
  - exists x, 0%nat. simpl. split; [done|]. split; [done|]. split.
    + intros s ->%list_elem_of_singleton. apply js_lt_irrefl.
    + intros j s Hj. lia.
  - rewrite <- Hl in *. destruct IH as (t & k & -> & Hk & Hmax & Hfirst);
      [by rewrite Hl|]. simpl.
    destruct (js_lt (NamedSlice.percentage t) (NamedSlice.percentage x)) eqn:Hlt.
    + exists x, (length l). split; [done|]. split; [by apply list_lookup_middle|].
      split.
      * intros s [Hs| ->%list_elem_of_singleton]%elem_of_app;
          [|apply js_lt_irrefl].
        destruct (js_lt (NamedSlice.percentage x) (NamedSlice.percentage s)) eqn:Hxs;
          [|done].
        rewrite <- (Hmax s Hs). symmetry. by eapply js_lt_trans.
      * intros j s Hj Hjs. rewrite lookup_app_l in Hjs by done.
        destruct (js_eq (NamedSlice.percentage s) (NamedSlice.percentage x)) eqn:He;
          [|done].
        rewrite (js_eq_lt _ _ _ He) in Hlt. rewrite <- Hlt.
        apply Hmax. by eapply list_elem_of_lookup_2.
    + exists t, k. split; [done|].
      assert (k < length l)%nat as Hkl by by eapply lookup_lt_Some.
      split; [by rewrite lookup_app_l|]. split.
      * by intros s [Hs| ->%list_elem_of_singleton]%elem_of_app; [apply Hmax|].
      * intros j s Hj Hjs. rewrite lookup_app_l in Hjs by lia. by eapply Hfirst.
Qed.

Lemma sorted_lookup_lt (l : list NamedSlice) (i j : nat) (x y : NamedSlice) :
  StronglySorted slice_lt l → (i < j)%nat →
  l !! i = Some x → l !! j = Some y → slice_lt x y.
Proof.
  intros Hs. revert i j. induction Hs as [|z l Hs IH Hz]; intros i j Hij Hi Hj.
  - by rewrite lookup_nil in Hi.
  - destruct j as [|j]; [lia|]. simpl in Hj. destruct i as [|i]; simpl in Hi.
    + injection Hi as ->. rewrite Forall_forall in Hz. apply Hz.
      by eapply list_elem_of_lookup_2.
    + apply (IH i j); [lia|done..].
Qed.

Lemma rated_sorted (percentage : Q) (l : list NamedSlice) :
  StronglySorted slice_lt l → StronglySorted slice_lt (rate percentage <$> l).
Proof. by apply StronglySorted_fmap. Qed.

Lemma rated_finite (d : Z) (l : list NamedSlice) (s : NamedSlice) :
  d ≠ 0 → s ∈ rate (percentage_unit d) <$> l →
  is_NaN (NamedSlice.percentage s) = false.
Proof.
  intros Hd (s0 & -> & _)%list_elem_of_fmap.
  by rewrite rate_percentage.
Qed.

Example analyse_scenario_tie :
  analyse scenario_tie
  = ([NamedSlice.mk "ext.a" 5 (Finite 50); NamedSlice.mk "ext.b" 5 (Finite 50)],
     Some (NamedSlice.mk "ext.a" 5 (Finite 50))).
Proof. reflexivity. Qed.

(** C4.  When the merged list is not empty, [top] is one of its slices, at
    some position [k]; no slice has a percentage above that of [top] (the
    test of the scan is the strict [<]); no slice in front of position [k]
    has the same percentage, so among slices with the percentage of [top]
    it is the first one met, the one with the least id.  When the duration is
    not zero all percentages are numbers, [top] has the greatest one and
    every slice in front of it is strictly below. *)
Theorem top_is_first_maximum (profile : IExtensionHostProfile) :
  let data_ := fst (analyse profile) in
  aligned profile → data_ ≠ [] →
  ∃ (top : NamedSlice) (k : nat),
    snd (analyse profile) = Some top
    ∧ data_ !! k = Some top
    ∧ (∀ s, s ∈ data_ →
         js_lt (NamedSlice.percentage top) (NamedSlice.percentage s) = false)
    ∧ (∀ j s, (j < k)%nat → data_ !! j = Some s →
         js_eq (NamedSlice.percentage s) (NamedSlice.percentage top) = false)
    ∧ (∀ s, s ∈ data_ →
         js_eq (NamedSlice.percentage s) (NamedSlice.percentage top) = true →
         s = top ∨ id_lt (NamedSlice.id top) (NamedSlice.id s))
    ∧ (endTime profile - startTime profile ≠ 0 →
       (∀ s, s ∈ data_ →
          js_ge (NamedSlice.percentage top) (NamedSlice.percentage s) = true)
       ∧ (∀ j s, (j < k)%nat → data_ !! j = Some s →
            js_lt (NamedSlice.percentage s) (NamedSlice.percentage top) = true)).
Proof.
  intros data_ _ Hne. unfold data_ in *. clear data_.
  rewrite analyse_values in *. cbn [fst snd] in *.
  set (percentage := percentage_unit (endTime profile - startTime profile)) in *.
  set (l := rate percentage <$> merged profile) in *.
  destruct (pick_first_maximal l Hne) as (top & k & Hpick & Hk & Hmax & Hfirst).
  exists top, k. do 4 (split; [done|]).
  assert (StronglySorted slice_lt l) as Hsorted
    by apply rated_sorted, merged_sorted.
  split.
  - intros s Hs Heq. apply list_elem_of_lookup in Hs as [j Hj].
    destruct (Nat.lt_trichotomy j k) as [Hlt|[->|Hgt]].
    + by rewrite (Hfirst j s Hlt Hj) in Heq.
    + left. congruence.
    + right. by apply (sorted_lookup_lt l k j top s).
  - intros Hd.
    assert (∀ s, s ∈ l →
              js_ge (NamedSlice.percentage top) (NamedSlice.percentage s) = true)
      as Hge.
    { intros s Hs. apply js_ge_of_not_lt.
      - eapply rated_finite; [exact Hd|]. by eapply list_elem_of_lookup_2.
      - by eapply rated_finite.
      - by apply Hmax. }
    split; [done|]. intros j s Hj Hjs. apply js_lt_of_ge_ne.
    + apply Hge. by eapply list_elem_of_lookup_2.
    + by eapply Hfirst.
Qed.

Lemma top_is_first_maximum_witness :
  aligned scenario_tie
  ∧ fst (analyse scenario_tie) ≠ []
  ∧ ∃ (top : NamedSlice) (k : nat),
      snd (analyse scenario_tie) = Some top
      ∧ fst (analyse scenario_tie) !! k = Some top.
Proof.
  split; [reflexivity|]. split; [by vm_compute|].
  destruct (top_is_first_maximum scenario_tie ltac:(reflexivity) ltac:(by vm_compute))
    as (top & k & Htop & Hk & _).
  exists top, k. split; [exact Htop|exact Hk].
Defined.

(** * Reporting (lines 122-175) *)

Lemma prompt_warranted_iff (top : NamedSlice) :
  prompt_warranted top = true
  ↔ js_ge (NamedSlice.percentage top) (Finite 99) = true
    ∧ 5000000 <= NamedSlice.total top.
Proof. unfold prompt_warranted. by rewrite andb_true_iff, Z.leb_le. Qed.

Lemma processed_effects (env : Env) (profile : IExtensionHostProfile)
    (top : NamedSlice) (extension : IExtensionDescription) :
  snd (analyse profile) = Some top →
  getExtension env (NamedSlice.id top) = Some extension →
  _processCpuProfile env profile
  = [SetUnresponsiveProfile (IExtensionDescription.id extension) profile]
    ++ (if prompt_warranted top
        then [NotificationPrompt (display_name extension)
                (Qfloor (round53 (inject_Z (endTime profile - startTime profile)
                                  / 1000000)
                         + (1 # 2))%Q)
                (generateUuid env)]
        else [])
    ++ [WriteFile (tmpdir env ++ "/exthost-" ++ random_hex env ++ ".cpuprofile")
                  (data profile)]
    ++ (if writeFile_ok env
        then [LogWarn (NamedSlice.id top) (NamedSlice.percentage top)
                (endTime profile - startTime profile)
                (tmpdir env ++ "/exthost-" ++ random_hex env ++ ".cpuprofile")
                (fst (analyse profile));
              PublicLog (generateUuid env) (endTime profile - startTime profile)
                (fst (analyse profile)) (prompt_warranted top)]
        else []).
Proof.
  unfold _processCpuProfile. destruct (analyse profile) as [data_ top'].
  cbn [fst snd]. intros -> Hext. by rewrite Hext.
Qed.

(** C3.  When a profile yields a top slice and its extension is known, the
    [prompt] flag of the telemetry event, and the notification shown to the
    user, are present exactly when [top.percentage >= 99] and
    [top.total >= 5000000]. *)
Theorem prompt_threshold (env : Env) (profile : IExtensionHostProfile)
    (top : NamedSlice) (extension : IExtensionDescription) :
  let warranted :=
    js_ge (NamedSlice.percentage top) (Finite 99) = true
    ∧ 5000000 <= NamedSlice.total top in
  aligned profile →
  snd (analyse profile) = Some top →
  getExtension env (NamedSlice.id top) = Some extension →
  (prompt_warranted top = true ↔ warranted)
  ∧ ((∃ name seconds uuid,
        NotificationPrompt name seconds uuid ∈ _processCpuProfile env profile)
     ↔ warranted)
  ∧ (∀ uuid duration data_ prompt,
       PublicLog uuid duration data_ prompt ∈ _processCpuProfile env profile →
       (prompt = true ↔ warranted))
  ∧ (writeFile_ok env = true →
     PublicLog (generateUuid env) (endTime profile - startTime profile)
       (fst (analyse profile)) (prompt_warranted top)
     ∈ _processCpuProfile env profile)
  ∧ (endTime profile - startTime profile ≠ 0 →
     ∃ z : Z, NamedSlice.percentage top = Finite z
              ∧ (warranted ↔ 99 <= z ∧ 5000000 <= NamedSlice.total top)).
Proof.
  intros warranted _ Htop Hext. unfold warranted.
  rewrite (processed_effects env profile top extension Htop Hext).
  split; [apply prompt_warranted_iff|]. split; [|split; [|split]].
  - rewrite <- prompt_warranted_iff. split.
    + intros (name & seconds & uuid & Hin).
      destruct (prompt_warranted top); [done|].
      destruct (writeFile_ok env); set_solver.
    + intros ->. eexists _, _, _. simpl. right. left.
  - intros uuid duration data_ prompt Hin. rewrite <- prompt_warranted_iff.
    destruct (prompt_warranted top), (writeFile_ok env); set_solver.
  - intros ->. destruct (prompt_warranted top); set_solver.
  - intros Hd. pose proof (analyse_values profile) as Hv. cbv zeta in Hv.
    rewrite Hv in Htop. cbn [snd] in Htop.
    destruct (rate _ <$> merged profile) as [|x l] eqn:Hl; [done|].
    destruct (pick_first_maximal (x :: l) ltac:(done)) as (t & k & Hp & Hk & _).
    rewrite Hp in Htop. injection Htop as ->.
    assert (top ∈ rate (percentage_unit (endTime profile - startTime profile))
                  <$> merged profile) as Hin.
    { rewrite Hl. by eapply list_elem_of_lookup_2. }
    apply list_elem_of_fmap in Hin as (s0 & -> & _).
    rewrite rate_percentage by done.
    eexists. split; [done|]. simpl. by rewrite Z.leb_le.
Qed.

Lemma prompt_threshold_witness :
  aligned scenario_two
  ∧ snd (analyse scenario_two) = Some (NamedSlice.mk "ext.c" 9900000 (Finite 99))
  ∧ getExtension host "ext.c" = Some (IExtensionDescription.mk "ext.c" None "ext.c")
  ∧ PublicLog "uuid" 10000000 [NamedSlice.mk "ext.c" 9900000 (Finite 99)] true
    ∈ _processCpuProfile host scenario_two.
Proof.
  split; [reflexivity|]. split; [reflexivity|]. split; [reflexivity|].
  apply (prompt_threshold host scenario_two
           (NamedSlice.mk "ext.c" 9900000 (Finite 99))
           (IExtensionDescription.mk "ext.c" None "ext.c")
           ltac:(reflexivity) ltac:(reflexivity) ltac:(reflexivity)).
  reflexivity.
Defined.

Example processed_zero_duration :
  _processCpuProfile host scenario_zero_duration
  = [SetUnresponsiveProfile "ext.a" scenario_zero_duration;
     NotificationPrompt "ext.a" 0 "uuid";
     WriteFile "/tmp/exthost-a1b2c3.cpuprofile" "{}";
     LogWarn "ext.a" PosInfinity 0 "/tmp/exthost-a1b2c3.cpuprofile"
       [NamedSlice.mk "ext.a" 6000000 PosInfinity];
     PublicLog "uuid" 0 [NamedSlice.mk "ext.a" 6000000 PosInfinity] true].
Proof. reflexivity. Qed.

Example processed_negative_duration :
  _processCpuProfile host scenario_negative_duration
  = [SetUnresponsiveProfile "ext.a" scenario_negative_duration;
     WriteFile "/tmp/exthost-a1b2c3.cpuprofile" "{}";
     LogWarn "ext.a" (Finite (-50)) (-10) "/tmp/exthost-a1b2c3.cpuprofile"
       [NamedSlice.mk "ext.a" 5 (Finite (-50))];
     PublicLog "uuid" (-10) [NamedSlice.mk "ext.a" 5 (Finite (-50))] false].
Proof. reflexivity. Qed.

(** A duration that is zero or negative does not stop the report: with one
    sample of 6000000 and [startTime = endTime] the percentage is
    [Infinity], the user is prompted, the payload is written and the
    telemetry event is sent. *)
Lemma degenerate_duration_is_reported :
  ¬ (∀ (env : Env) (profile : IExtensionHostProfile),
       aligned profile →
       ids profile = [] ∨ endTime profile - startTime profile <= 0 →
       _processCpuProfile env profile = []).
Proof.
  intros H.
  assert (endTime scenario_zero_duration - startTime scenario_zero_duration <= 0)
    as Hd by (simpl; lia).
  specialize (H host scenario_zero_duration eq_refl (or_intror Hd)).
  discriminate H.
Qed.

Lemma pick_nonempty (l : list NamedSlice) : l ≠ [] → is_Some (pick l).
Proof.
  intros Hl. destruct (pick_first_maximal l Hl) as (t & _ & -> & _). by eexists.
Qed.

(** C6, amended.  A profile without samples yields no slice and no top
    slice; processing it makes no call at all (no prompt, no telemetry
    event, no file), and the handler that processes it reports no error.
    The duration plays no part: as soon as there is one sample a top
    slice is selected, whatever the two timestamps are. *)
Theorem empty_profile_reports_nothing (profile : IExtensionHostProfile) :
  (ids profile = [] →
   analyse profile = ([], None)
   ∧ (∀ env, _processCpuProfile env profile = [])
   ∧ (∀ env token st st',
        step (StopResolved token profile env) st = Some st' →
        trace st' = trace st))
  ∧ (ids profile ≠ [] → is_Some (snd (analyse profile))).
Proof.
  split.
  - intros Hids.
    assert (analyse profile = ([], None)) as Ha.
    { rewrite analyse_values. by rewrite (proj2 (merged_nil profile) Hids). }
    assert (∀ env, _processCpuProfile env profile = []) as Hp.
    { intros env. unfold _processCpuProfile. by rewrite Ha. }
    split; [done|]. split; [done|].
    intros env token st st'. simpl.
    destruct (suspended st !! token) as [[target [| |session]]|]; try done.
    intros [= <-]. simpl. by rewrite Hp, app_nil_r.
  - intros Hids. rewrite analyse_values. cbn [snd]. apply pick_nonempty.
    intros Hnil%fmap_nil_inv. by apply merged_nil in Hnil.
Qed.

Lemma empty_profile_reports_nothing_witness :
  ids scenario_empty = [] ∧ _processCpuProfile host scenario_empty = [].
Proof.
  split; [reflexivity|].
  apply (proj1 (empty_profile_reports_nothing scenario_empty) eq_refl).
Defined.

(** * The session table (lines 39-81) *)

Lemma consistent_initial : consistent initial.
Proof.
  repeat split; simpl.
  - intros ???. by rewrite lookup_empty.
  - intros ??. by rewrite lookup_empty.
  - intros ? [? H]. by rewrite lookup_empty in H.
Qed.

Lemma consistent_on_event (target : ICpuProfilerTarget) (canProfile isResponsive : bool)
    (st : state) :
  consistent st → consistent (on_event target canProfile isResponsive st).
Proof.
  intros (H1 & H2 & H3). unfold on_event.
  destruct canProfile; simpl; [|done].
  destruct isResponsive, (_session st !! target) as [token|] eqn:Hs; try done.
  assert (suspended st !! next_token st = None) as Hfresh.
  { destruct (suspended st !! next_token st) eqn:Ht; [|done].
    assert (next_token st < next_token st)%nat by (apply H3; eauto). lia. }
  repeat split; simpl.
  - intros token tgt p. destruct (decide (token = next_token st)) as [->|Hne].
    + rewrite lookup_insert_eq. intros [= <- <-]. by rewrite lookup_insert_eq.
    + rewrite lookup_insert_ne by done. intros Ht.
      rewrite lookup_insert_ne; [by eapply H1|].
      intros <-. apply H1 in Ht. congruence.
  - intros tgt token. destruct (decide (tgt = target)) as [->|Hne].
    + rewrite lookup_insert_eq. intros [= <-]. rewrite lookup_insert_eq. eauto.
    + rewrite lookup_insert_ne by done. intros Ht.
      destruct (H2 _ _ Ht) as [p Hp]. exists p.
      rewrite lookup_insert_ne; [done|]. intros <-. congruence.
  - intros token. destruct (decide (token = next_token st)) as [->|Hne]; [lia|].
    rewrite lookup_insert_ne by done. intros Ht%H3. lia.
Qed.

Lemma consistent_set_pc (token : CancellationTokenSource) (target : ICpuProfilerTarget)
    (p p' : pc) (out : list effect) (st : state) :
  suspended st !! token = Some (target, p) →
  consistent st → consistent (set_pc token target p' out st).
Proof.
  intros Ht (H1 & H2 & H3). repeat split; simpl.
  - intros tok tgt q. destruct (decide (tok = token)) as [->|Hne].
    + rewrite lookup_insert_eq. intros [= <- <-]. by eapply H1.
    + rewrite lookup_insert_ne by done. apply H1.
  - intros tgt tok Hs. destruct (decide (tok = token)) as [->|Hne].
    + rewrite lookup_insert_eq. destruct (H2 _ _ Hs) as [q Hq].
      rewrite Ht in Hq. injection Hq as <- <-. eauto.
    + rewrite lookup_insert_ne by done. by apply H2.
  - intros tok. destruct (decide (tok = token)) as [->|Hne].
    + intros _. apply H3. eauto.
    + rewrite lookup_insert_ne by done. apply H3.
Qed.

Lemma consistent_finish (token : CancellationTokenSource) (target : ICpuProfilerTarget)
    (p : pc) (out : list effect) (st : state) :
  suspended st !! token = Some (target, p) →
  consistent st → consistent (finish token target out st).
Proof.
  intros Ht (H1 & H2 & H3). pose proof (H1 _ _ _ Ht) as Hs. repeat split; simpl.
  - intros tok tgt q. destruct (decide (tok = token)) as [->|Hne].
    + by rewrite lookup_delete_eq.
    + rewrite lookup_delete_ne by done. intros Hq.
      rewrite lookup_delete_ne; [by eapply H1|].
      intros <-. apply H1 in Hq. congruence.
  - intros tgt tok. destruct (decide (tgt = target)) as [->|Hne].
    + by rewrite lookup_delete_eq.
    + rewrite lookup_delete_ne by done. intros Hq.
      destruct (H2 _ _ Hq) as [q Hq']. exists q.
      rewrite lookup_delete_ne; [done|]. intros <-. congruence.
  - intros tok. destruct (decide (tok = token)) as [->|Hne].
    + rewrite lookup_delete_eq. by intros [? ?].
    + rewrite lookup_delete_ne by done. apply H3.
Qed.

Lemma consistent_step (l : label) (st st' : state) :
  consistent st → step l st = Some st' → consistent st'.
Proof.
  intros Hc. destruct l as [target c r|token s|token|token|token|token profile env|token];
    simpl.
  - intros [= <-]. by apply consistent_on_event.
  - destruct (suspended st !! token) as [[target [| |s']]|] eqn:Ht; try done.
    intros [= <-]. by eapply consistent_set_pc.
  - destruct (suspended st !! token) as [[target [| |s']]|] eqn:Ht; try done.
    intros [= <-]. by eapply consistent_finish.
  - destruct (suspended st !! token) as [[target [| |s']]|] eqn:Ht; try done.
    destruct (decide _); [|done]. intros [= <-]. by eapply consistent_set_pc.
  - destruct (suspended st !! token) as [[target [| |s']]|] eqn:Ht; try done.
    intros [= <-]. by eapply consistent_set_pc.
  - destruct (suspended st !! token) as [[target [| |s']]|] eqn:Ht; try done.
    intros [= <-]. by eapply consistent_finish.
  - destruct (suspended st !! token) as [[target [| |s']]|] eqn:Ht; try done.
    intros [= <-]. by eapply consistent_finish.
Qed.

Lemma reachable_consistent (st : state) : reachable st → consistent st.
Proof.
  induction 1 as [|l st st' _ IH Hstep]; [apply consistent_initial|].
  by eapply consistent_step.
Qed.

Lemma reachable_run (ls : list label) (st st' : state) :
  reachable st → run ls st = Some st' → reachable st'.
Proof.
  revert st. induction ls as [|l ls IH]; intros st Hr; simpl.
  - by intros [= <-].
  - destruct (step l st) as [st1|] eqn:Hstep; [|done]. simpl.
    apply IH. by eapply reachable_step.
Qed.

Lemma on_event_busy (target : ICpuProfilerTarget) (canProfile : bool) (st : state) :
  is_Some (_session st !! target) → on_event target canProfile false st = st.
Proof.
  intros [token Ht]. unfold on_event. rewrite Ht. by destruct canProfile.
Qed.

Lemma on_event_fresh (target : ICpuProfilerTarget) (st : state) :
  _session st !! target = None →
  on_event target true false st
  = mkState (<[target := next_token st]> (_session st))
            (<[next_token st := (target, AwaitStart)]> (suspended st))
            (cancelled st) (S (next_token st))
            (trace st ++ [StartExtensionHostProfile target]).
Proof. intros Ht. unfold on_event. by rewrite Ht. Qed.

Lemma step_ends_deletes (l : label) (token : CancellationTokenSource)
    (target : ICpuProfilerTarget) (p : pc) (st st' : state) :
  suspended st !! token = Some (target, p) → ends l token → step l st = Some st' →
  _session st' = delete target (_session st)
  ∧ suspended st' = delete token (suspended st).
Proof.
  intros Ht He. destruct l; simpl in He; try done; subst; simpl; rewrite Ht;
    destruct p; try done; by intros [= <-].
Qed.

Lemma step_other_keeps (l : label) (token : CancellationTokenSource)
    (target : ICpuProfilerTarget) (p : pc) (st st' : state) :
  consistent st → suspended st !! token = Some (target, p) → ¬ ends l token →
  step l st = Some st' →
  _session st' !! target = Some token ∧ is_Some (suspended st' !! token).
Proof.
  intros Hc Ht Hne Hstep. pose proof Hc as (H1 & H2 & H3).
  pose proof (H1 _ _ _ Ht) as Hs.
  assert (∀ tok tgt q out,
            suspended st !! tok = Some (tgt, q) → tok ≠ token →
            _session (finish tok tgt out st) !! target = Some token
            ∧ is_Some (suspended (finish tok tgt out st) !! token)) as Hfin.
  { intros tok tgt q out Hq Hneq. simpl. rewrite !lookup_delete_ne; eauto.
    intros ->. apply H1 in Hq. congruence. }
  assert (∀ tok tgt q out,
            _session (set_pc tok tgt q out st) !! target = Some token
            ∧ is_Some (suspended (set_pc tok tgt q out st) !! token)) as Hset.
  { intros tok tgt q out. simpl. split; [done|].
    destruct (decide (tok = token)) as [->|?].
    - rewrite lookup_insert_eq. eauto.
    - rewrite lookup_insert_ne by done. eauto. }
  destruct l as [tgt c r|tok s|tok|tok|tok|tok profile env|tok];
    simpl in Hstep, Hne.
  - injection Hstep as <-. unfold on_event.
    destruct c; simpl; [|eauto].
    destruct r, (_session st !! tgt) as [tok|] eqn:Hq; simpl; eauto.
    assert (tgt ≠ target) by congruence.
    assert (next_token st ≠ token).
    { intros Heq. assert (token < next_token st)%nat by (apply H3; eauto). lia. }
    rewrite !lookup_insert_ne by done. eauto.
  - destruct (suspended st !! tok) as [[tgt [| |s']]|] eqn:Hq; try done.
    injection Hstep as <-. apply Hset.
  - destruct (suspended st !! tok) as [[tgt [| |s']]|] eqn:Hq; try done.
    injection Hstep as <-. by eapply Hfin.
  - destruct (suspended st !! tok) as [[tgt [| |s']]|] eqn:Hq; try done.
    destruct (decide _); [|done]. injection Hstep as <-. apply Hset.
  - destruct (suspended st !! tok) as [[tgt [| |s']]|] eqn:Hq; try done.
    injection Hstep as <-. apply Hset.
  - destruct (suspended st !! tok) as [[tgt [| |s']]|] eqn:Hq; try done.
    injection Hstep as <-. by eapply Hfin.
  - destruct (suspended st !! tok) as [[tgt [| |s']]|] eqn:Hq; try done.
    injection Hstep as <-. by eapply Hfin.
Qed.

(** C2.  In every reachable state two suspended calls of the handler never
    work on the same target, and a target has an entry in [_session] exactly
    while one call for it is suspended.  An "unresponsive" event inserts the
    entry in the very turn in which it asks for the session, and a further
    "unresponsive" event for that target, at any time before the entry is
    removed, changes nothing: no second session is requested. *)
Theorem at_most_one_session (st : state) :
  reachable st →
  (∀ target token1 token2 p1 p2,
     suspended st !! token1 = Some (target, p1) →
     suspended st !! token2 = Some (target, p2) →
     token1 = token2 ∧ p1 = p2)
  ∧ (∀ target,
       is_Some (_session st !! target)
       ↔ ∃ token p, suspended st !! token = Some (target, p))
  ∧ (∀ target canProfile,
       is_Some (_session st !! target) →
       step (Event target canProfile false) st = Some st)
  ∧ (∀ target,
       _session st !! target = None →
       let st1 := on_event target true false st in
       _session st1 !! target = Some (next_token st)
       ∧ suspended st1 = <[next_token st := (target, AwaitStart)]> (suspended st)
       ∧ trace st1 = trace st ++ [StartExtensionHostProfile target]
       ∧ run [Event target true false; Event target true false] st = Some st1).
Proof.
  intros Hr. pose proof (reachable_consistent st Hr) as (H1 & H2 & H3).
  split; [|split; [|split]].
  - intros target token1 token2 p1 p2 Ht1 Ht2.
    pose proof (H1 _ _ _ Ht1). pose proof (H1 _ _ _ Ht2).
    assert (token1 = token2) as -> by congruence. split; congruence.
  - intros target. split.
    + intros [token Ht]. destruct (H2 _ _ Ht) as [p Hp]. eauto.
    + intros (token & p & Ht). eauto.
  - intros target canProfile Hs. simpl. by rewrite on_event_busy.
  - intros target Hs st1. unfold st1. rewrite on_event_fresh by done. simpl.
    rewrite lookup_insert_eq. do 3 (split; [done|]).
    rewrite <- (on_event_fresh target st Hs). f_equal.
    apply on_event_busy. rewrite on_event_fresh by done. simpl.
    rewrite lookup_insert_eq. eauto.
Qed.

Lemma at_most_one_session_witness :
  reachable (on_event 7%nat true false initial)
  ∧ step (Event 7%nat true false) (on_event 7%nat true false initial)
    = Some (on_event 7%nat true false initial).
Proof.
  assert (reachable (on_event 7%nat true false initial)) as Hr.
  { apply (reachable_step (Event 7%nat true false) initial); [constructor|done]. }
  split; [exact Hr|].
  apply (proj1 (proj2 (proj2 (at_most_one_session _ Hr)))).
  unfold is_Some. exists 0%nat. reflexivity.
Defined.

(** The three ways in which a call that waits for its session can end. *)
Lemma episode_paths (st : state) (token : CancellationTokenSource)
    (target : ICpuProfilerTarget) :
  suspended st !! token = Some (target, AwaitStart) →
  (∃ st', run [StartRejected token] st = Some st'
          ∧ _session st' = delete target (_session st)
          ∧ suspended st' = delete token (suspended st)
          ∧ cancelled st' = cancelled st
          ∧ trace st' = trace st)
  ∧ (∀ session profile env,
       ∃ st', run [StartResolved token session; WaitTimeout token;
                   StopResolved token profile env] st = Some st'
              ∧ _session st' = delete target (_session st)
              ∧ suspended st' = delete token (suspended st)
              ∧ trace st'
                = trace st ++ [Stop session] ++ _processCpuProfile env profile)
  ∧ (∀ session,
       ∃ st', run [StartResolved token session; WaitTimeout token;
                   StopRejected token] st = Some st'
              ∧ _session st' = delete target (_session st)
              ∧ suspended st' = delete token (suspended st)
              ∧ trace st' = trace st ++ [Stop session; OnUnexpectedError]).
Proof.
  intros Ht. split; [|split].
  - eexists. simpl. rewrite Ht. simpl. split; [done|]. simpl.
    by rewrite app_nil_r.
  - intros session profile env. eexists. simpl. rewrite Ht. simpl.
    rewrite lookup_insert_eq. simpl. rewrite lookup_insert_eq. simpl.
    split; [done|]. simpl. rewrite !delete_insert_eq, app_nil_r, <- app_assoc.
    done.
  - intros session. eexists. simpl. rewrite Ht. simpl.
    rewrite lookup_insert_eq. simpl. rewrite lookup_insert_eq. simpl.
    split; [done|]. simpl. rewrite !delete_insert_eq, app_nil_r, <- app_assoc.
    done.
Qed.

(** The wait is cut short by a "responsive" event. *)
Lemma episode_cancelled (st : state) (token : CancellationTokenSource)
    (target : ICpuProfilerTarget) (session : ProfileSession)
    (profile : IExtensionHostProfile) (env : Env) :
  suspended st !! token = Some (target, AwaitStart) →
  _session st !! target = Some token →
  ∃ st', run [StartResolved token session; Event target true true;
              WaitCancelled token; StopResolved token profile env] st = Some st'
         ∧ _session st' = delete target (_session st)
         ∧ suspended st' = delete token (suspended st)
         ∧ cancelled st' = {[token]} ∪ cancelled st
         ∧ trace st'
           = trace st ++ [Cancel token; Stop session]
             ++ _processCpuProfile env profile.
Proof.
  intros Ht Hs. eexists. simpl. rewrite Ht. simpl.
  unfold on_event. simpl. rewrite Hs. simpl. rewrite lookup_insert_eq.
  rewrite decide_True by set_solver. simpl. rewrite lookup_insert_eq. simpl.
  split; [done|]. simpl.
  rewrite !delete_insert_eq, app_nil_r, <- !app_assoc. done.
Qed.

Lemma fresh_token (st : state) : consistent st → suspended st !! next_token st = None.
Proof.
  intros (_ & _ & H3). destruct (suspended st !! next_token st) eqn:Ht; [|done].
  assert (next_token st < next_token st)%nat by (apply H3; eauto). lia.
Qed.

(** C7.  A suspended call for [target] owns the entry of [target] in
    [_session].  Whatever turn comes next, the entry stays as long as the
    call has not ended, and every turn that ends the call removes it: a
    rejected start, a stop that resolves and a stop that is rejected.  These
    turns are possible whenever the call waits for them, and the wait in
    between always resolves by its timer.  Run from the event that inserts
    the entry, each path (start rejected; stop resolved or rejected after
    the timer; stop resolved after a cancellation) gives back the table as
    it was. *)
Theorem entry_removed_on_every_exit (st : state) (token : CancellationTokenSource)
    (target : ICpuProfilerTarget) (p : pc) :
  reachable st → suspended st !! token = Some (target, p) →
  _session st !! target = Some token
  ∧ (p = AwaitStart →
     ∃ st', step (StartRejected token) st = Some st'
            ∧ _session st' !! target = None ∧ suspended st' !! token = None)
  ∧ (∀ session, p = AwaitWait session →
     ∃ st', step (WaitTimeout token) st = Some st'
            ∧ suspended st' !! token = Some (target, AwaitStop session)
            ∧ trace st' = trace st ++ [Stop session])
  ∧ (∀ session, p = AwaitStop session →
     (∀ profile env,
        ∃ st', step (StopResolved token profile env) st = Some st'
               ∧ _session st' !! target = None ∧ suspended st' !! token = None)
     ∧ (∃ st', step (StopRejected token) st = Some st'
               ∧ _session st' !! target = None ∧ suspended st' !! token = None
               ∧ trace st' = trace st ++ [OnUnexpectedError]))
  ∧ (∀ l st', step l st = Some st' → ends l token →
              _session st' !! target = None ∧ suspended st' !! token = None)
  ∧ (∀ l st', step l st = Some st' → ¬ ends l token →
              _session st' !! target = Some token ∧ is_Some (suspended st' !! token))
  ∧ (∀ target' session profile env,
       _session st !! target' = None →
       ∃ st1 st2 st3 st4,
         run [Event target' true false; StartRejected (next_token st)] st = Some st1
         ∧ run [Event target' true false; StartResolved (next_token st) session;
                WaitTimeout (next_token st);
                StopResolved (next_token st) profile env] st = Some st2
         ∧ run [Event target' true false; StartResolved (next_token st) session;
                WaitTimeout (next_token st);
                StopRejected (next_token st)] st = Some st3
         ∧ run [Event target' true false; StartResolved (next_token st) session;
                Event target' true true; WaitCancelled (next_token st);
                StopResolved (next_token st) profile env] st = Some st4
         ∧ _session st1 = _session st ∧ _session st2 = _session st
         ∧ _session st3 = _session st ∧ _session st4 = _session st).
Proof.
  intros Hr Ht. pose proof (reachable_consistent st Hr) as Hc.
  pose proof Hc as (H1 & H2 & H3).
  split; [by eapply H1|].
  split.
  { intros ->. eexists. simpl. rewrite Ht. split; [done|]. simpl.
    by rewrite !lookup_delete_eq. }
  split.
  { intros session ->. eexists. simpl. rewrite Ht. split; [done|]. simpl.
    by rewrite lookup_insert_eq. }
  split.
  { intros session ->. split.
    - intros profile env. eexists. simpl. rewrite Ht. split; [done|]. simpl.
      by rewrite !lookup_delete_eq.
    - eexists. simpl. rewrite Ht. split; [done|]. simpl.
      by rewrite !lookup_delete_eq. }
  split.
  { intros l st' Hstep He.
    destruct (step_ends_deletes l token target p st st' Ht He Hstep) as [-> ->].
    by rewrite !lookup_delete_eq. }
  split.
  { intros l st' Hstep He. by eapply step_other_keeps. }
  intros target' session profile env Hs.
  pose proof (fresh_token st Hc) as Hfresh.
  assert (suspended (on_event target' true false st) !! next_token st
          = Some (target', AwaitStart)) as Ht'.
  { rewrite on_event_fresh by done. simpl. by rewrite lookup_insert_eq. }
  assert (delete target' (_session (on_event target' true false st)) = _session st)
    as Hdel.
  { rewrite on_event_fresh by done. simpl. by apply delete_insert_id. }
  destruct (episode_paths _ _ _ Ht') as ((st1 & Hrun1 & Hs1 & _) & Hp2 & Hp3).
  destruct (Hp2 session profile env) as (st2 & Hrun2 & Hs2 & _).
  destruct (Hp3 session) as (st3 & Hrun3 & Hs3 & _).
  assert (_session (on_event target' true false st) !! target'
          = Some (next_token st)) as Hs'.
  { rewrite on_event_fresh by done. simpl. by rewrite lookup_insert_eq. }
  destruct (episode_cancelled _ _ _ session profile env Ht' Hs')
    as (st4 & Hrun4 & Hs4 & _).
  exists st1, st2, st3, st4.
  change (run (Event target' true false :: ?ls) st)
    with (run ls (on_event target' true false st)).
  rewrite Hs1, Hs2, Hs3, Hs4, Hdel. done.
Qed.

Lemma entry_removed_on_every_exit_witness :
  reachable (on_event 7%nat true false initial)
  ∧ suspended (on_event 7%nat true false initial) !! 0%nat = Some (7%nat, AwaitStart)
  ∧ ∃ st', step (StartRejected 0%nat) (on_event 7%nat true false initial) = Some st'
           ∧ _session st' !! 7%nat = None ∧ suspended st' !! 0%nat = None.
Proof.
  assert (reachable (on_event 7%nat true false initial)) as Hr.
  { apply (reachable_step (Event 7%nat true false) initial); [constructor|done]. }
  split; [exact Hr|]. split; [reflexivity|].
  apply (proj1 (proj2 (entry_removed_on_every_exit _ 0%nat 7%nat AwaitStart
                         Hr eq_refl))).
  reflexivity.
Defined.

(** C8.  When the start of the session is rejected the call returns: the
    turn makes no call (no error is reported, nothing is logged) and its
    only change is to remove the entry and the call itself.  Taken together
    with the event that inserted the entry, the table, the suspended calls
    and the cancelled tokens are as before the event, and the only call made
    is the attempt to start the session. *)
Theorem failed_start_is_silent (st : state) :
  reachable st →
  (∀ token target,
     suspended st !! token = Some (target, AwaitStart) →
     ∃ st', step (StartRejected token) st = Some st'
            ∧ trace st' = trace st
            ∧ _session st' = delete target (_session st)
            ∧ suspended st' = delete token (suspended st)
            ∧ cancelled st' = cancelled st)
  ∧ (∀ target,
       _session st !! target = None →
       ∃ st', run [Event target true false; StartRejected (next_token st)] st
              = Some st'
              ∧ _session st' = _session st
              ∧ suspended st' = suspended st
              ∧ cancelled st' = cancelled st
              ∧ trace st' = trace st ++ [StartExtensionHostProfile target]).
Proof.
  intros Hr. pose proof (reachable_consistent st Hr) as Hc. split.
  - intros token target Ht.
    destruct (episode_paths st token target Ht) as ((st' & Hrun & H) & _).
    exists st'. split; [|tauto]. cbn [run] in Hrun.
    destruct (step (StartRejected token) st); simpl in Hrun; congruence.
  - intros target Hs. pose proof (fresh_token st Hc) as Hfresh.
    assert (suspended (on_event target true false st) !! next_token st
            = Some (target, AwaitStart)) as Ht'.
    { rewrite on_event_fresh by done. simpl. by rewrite lookup_insert_eq. }
    destruct (episode_paths _ _ _ Ht') as ((st' & Hrun & H1 & H2 & H3 & H4) & _).
    exists st'. split; [exact Hrun|].
    rewrite H1, H2, H3, H4, on_event_fresh by done. simpl.
    by rewrite !delete_insert_id.
Qed.

Lemma failed_start_is_silent_witness :
  reachable initial
  ∧ ∃ st', run [Event 7%nat true false; StartRejected (next_token initial)] initial
           = Some st'
           ∧ _session st' = _session initial
           ∧ suspended st' = suspended initial
           ∧ cancelled st' = cancelled initial
           ∧ trace st' = trace initial ++ [StartExtensionHostProfile 7%nat].
Proof.
  split; [constructor|].
  apply (proj2 (failed_start_is_silent initial reachable_initial) 7%nat).
  reflexivity.
Defined.

(** C9.  An event for a target that cannot be profiled, a "responsive"
    event for a target without entry and an "unresponsive" event for a
    target with an entry leave the whole state as it is: the table, the
    suspended calls and the cancelled tokens are unchanged and no call is
    made. *)
Theorem no_op_events (st : state) (target : ICpuProfilerTarget) :
  (∀ isResponsive, step (Event target false isResponsive) st = Some st)
  ∧ (∀ canProfile,
       _session st !! target = None →
       step (Event target canProfile true) st = Some st)
  ∧ (∀ canProfile,
       is_Some (_session st !! target) →
       step (Event target canProfile false) st = Some st).
Proof.
  split; [done|]. split.
  - intros canProfile Hs. simpl. unfold on_event. rewrite Hs. by destruct canProfile.
  - intros canProfile Hs. simpl. by rewrite on_event_busy.
Qed.

Lemma no_op_events_witness :
  _session initial !! 7%nat = None
  ∧ step (Event 7%nat true true) initial = Some initial.
Proof.
  split; [reflexivity|].
  apply (proj1 (proj2 (no_op_events initial 7%nat)) true). reflexivity.
Defined.

(** * Further properties of the aggregation *)

(** X1.  There are exactly as many merged slices as the profile has distinct
    ids, and never more than it has samples. *)
Theorem merged_count (profile : IExtensionHostProfile) :
  length (merged profile) = length (remove_dups (ids profile))
  ∧ (length (merged profile) ≤ length (ids profile))%nat.
Proof.
  assert (NamedSlice.id <$> merged profile ≡ₚ remove_dups (ids profile)) as Hp.
  { apply NoDup_Permutation.
    - apply sorted_lt_NoDup, merged_sorted.
    - apply NoDup_remove_dups.
    - intros i. by rewrite merged_ids, elem_of_remove_dups. }
  rewrite <- (length_fmap NamedSlice.id). split; [by rewrite Hp|].
  apply submseteq_length, NoDup_submseteq.
  - apply sorted_lt_NoDup, merged_sorted.
  - intros i. by rewrite merged_ids.
Qed.

Lemma sort_sorted_id (l : list NamedSlice) :
  StronglySorted slice_le l → sort slice_cmp l = l.
Proof.
  induction 1 as [|x l Hs IH Hx]; [done|].
  change (sort slice_cmp (x :: l)) with (sort_insert slice_cmp x (sort slice_cmp l)).
  rewrite IH. destruct l as [|y l]; [done|]. simpl.
  apply Forall_cons in Hx as [Hxy _]. unfold slice_le, id_le in Hxy.
  unfold slice_cmp. by rewrite (proj2 (Z.leb_le _ _) Hxy).
Qed.

Lemma merge_from_strict (rest : list NamedSlice) :
  ∀ cur, StronglySorted slice_lt (cur :: rest) → merge_from cur rest = cur :: rest.
Proof.
  induction rest as [|x rest IH]; intros cur Hs; [done|]. simpl.
  apply StronglySorted_inv in Hs as [Hs Hcur].
  apply Forall_cons in Hcur as [Hcx _].
  destruct (String.eqb_spec (NamedSlice.id cur) (NamedSlice.id x)) as [Heq|_].
  - by apply id_lt_ne in Hcx.
  - by rewrite IH.
Qed.

Lemma merged_percentage (profile : IExtensionHostProfile) :
  Forall (λ s, NamedSlice.percentage s = Finite 0) (merged profile).
Proof.
  rewrite merged_values. apply merge_adjacent_percentage.
  rewrite sort_perm. apply candidates_percentage.
Qed.

Lemma slice_lt_le (l : list NamedSlice) :
  StronglySorted slice_lt l → StronglySorted slice_le l.
Proof.
  induction 1 as [|x l Hs IH Hx]; constructor; [done|].
  eapply Forall_impl; [exact Hx|]. intros y Hy. apply id_le_lt_eq. by left.
Qed.

(** X2.  Aggregating the aggregate changes nothing: a profile whose samples
    are the merged slices of [profile] merges to the same slices. *)
Theorem merged_idempotent (profile : IExtensionHostProfile) :
  aligned (reaggregated profile)
  ∧ merged (reaggregated profile) = merged profile.
Proof.
  assert (aligned (reaggregated profile)) as Hal.
  { unfold aligned. simpl. by rewrite !length_fmap. }
  split; [done|].
  assert (candidates (reaggregated profile) = merged profile) as Hc.
  { rewrite candidates_aligned by done. simpl.
    pose proof (merged_percentage profile) as Hp.
    induction Hp as [|[i t p] l Hx Hl IH]; csimpl; [done|].
    simpl in Hx. by rewrite Hx, IH. }
  rewrite (merged_values (reaggregated profile)), Hc.
  rewrite sort_sorted_id by apply slice_lt_le, merged_sorted.
  pose proof (merged_sorted profile) as Hs.
  destruct (merged profile); [done|]. by apply merge_from_strict.
Qed.

Lemma merge_checked_steps (n : nat) :
  ∀ (i anchor : nat) (data : list ref) (h : store),
    (anchor < i)%nat → (i + n = length data)%nat →
    Forall (λ r, (r < length h)%nat) data →
    fold_left merge_step_checked (seq i n) (Some (anchor, data, h))
    = Some (fold_left merge_step (seq i n) (anchor, data, h)).
Proof.
  induction n as [|n IH]; intros i anchor data h Ha Hi Hvalid; [done|].
  cbn [seq fold_left].
  destruct (lookup_lt_is_Some_2 data anchor ltac:(lia)) as [ra Hra].
  destruct (lookup_lt_is_Some_2 data i ltac:(lia)) as [ri Hri].
  assert (ra < length h)%nat as Hva
    by (eapply (proj1 (Forall_forall _ _) Hvalid), list_elem_of_lookup_2, Hra).
  assert (ri < length h)%nat as Hvi
    by (eapply (proj1 (Forall_forall _ _) Hvalid), list_elem_of_lookup_2, Hri).
  destruct (lookup_lt_is_Some_2 h ra Hva) as [a Hha].
  destruct (lookup_lt_is_Some_2 h ri Hvi) as [d Hhd].
  unfold merge_step_checked at 2, merge_step at 2. unfold ref in *. simpl.
  rewrite Hra, Hri. simpl. rewrite Hha, Hhd. simpl.
  destruct (String.eqb (NamedSlice.id a) (NamedSlice.id d)).
  - apply IH; [lia|lia|]. by rewrite length_insert.
  - apply IH; [lia|rewrite length_insert; lia|]. by apply Forall_insert.
Qed.

(** X3.  The merge loop never reads outside the array and never follows a
    dangling reference: with every access checked it runs to the end, and
    gives what the unchecked loop gives. *)
Theorem merge_loop_in_bounds (profile : IExtensionHostProfile) :
  let '(h, data_) := build profile in
  merge_loop_checked h (sort (by_id h) data_)
  = Some (merge_loop h (sort (by_id h) data_)).
Proof.
  destruct (build_points_to profile) as (h & data_ & -> & _ & _ & Hp).
  unfold merge_loop_checked, merge_loop.
  assert (Forall (λ r, (r < length h)%nat) (sort (by_id h) data_)) as Hvalid.
  { rewrite sort_perm. apply Forall_forall. intros r Hr.
    apply list_elem_of_lookup in Hr as [k Hk].
    destruct (Forall2_lookup_l _ _ _ _ _ Hp Hk) as (s & _ & Hs).
    by eapply lookup_lt_Some. }
  destruct (sort (by_id h) data_) as [|r l] eqn:Hl; [done|].
  apply merge_checked_steps; [lia|simpl; lia|done].
Qed.

Lemma rated_share (d : Z) (l : list NamedSlice) (s : NamedSlice) :
  d ≠ 0 → s ∈ rate (percentage_unit d) <$> l →
  NamedSlice.percentage s = Finite (share_percent (NamedSlice.total s) d)
  ∧ ∃ s0, s0 ∈ l ∧ NamedSlice.id s = NamedSlice.id s0
          ∧ NamedSlice.total s = NamedSlice.total s0.
Proof.
  intros Hd (s0 & -> & Hs0)%list_elem_of_fmap. split; [|by exists s0].
  by rewrite rate_percentage.
Qed.

Lemma pick_elem (l : list NamedSlice) (top : NamedSlice) :
  pick l = Some top →
  top ∈ l
  ∧ ∀ s, s ∈ l → js_lt (NamedSlice.percentage top) (NamedSlice.percentage s) = false.
Proof.
  intros Hp. destruct l as [|x l]; [done|].
  destruct (pick_first_maximal (x :: l) ltac:(done)) as (t & k & Ht & Hk & Hmax & _).
  rewrite Hp in Ht. injection Ht as <-. split; [|done].
  by eapply list_elem_of_lookup_2.
Qed.

Lemma delta_sum_bounds (i : string) (profile : IExtensionHostProfile) :
  Forall (λ x, 0 <= x) (deltas profile) →
  0 <= delta_sum i profile <= sumZ (deltas profile).
Proof.
  unfold delta_sum. generalize (ids profile).
  induction (deltas profile) as [|d ds IH]; intros l Hall.
  - by destruct l.
  - apply Forall_cons in Hall as [Hd Hall]. destruct l as [|j l]; simpl.
    + specialize (IH [] Hall). simpl in IH. lia.
    + specialize (IH l Hall). rewrite filter_cons. simpl.
      destruct (decide (j = i)); csimpl; lia.
Qed.

Lemma rated_total_bounds (profile : IExtensionHostProfile) (d : Z) (s : NamedSlice) :
  aligned profile → Forall (λ x, 0 <= x) (deltas profile) →
  d ≠ 0 → s ∈ rate (percentage_unit d) <$> merged profile →
  NamedSlice.percentage s = Finite (share_percent (NamedSlice.total s) d)
  ∧ 0 <= NamedSlice.total s <= sumZ (deltas profile).
Proof.
  intros Hal Hpos Hd Hs.
  destruct (rated_share _ _ _ Hd Hs) as (Hp & s0 & Hs0 & Hid & Ht).
  split; [done|]. rewrite Ht, (merged_total profile s0 Hal Hs0).
  by apply delta_sum_bounds.
Qed.

(** X4.  For a positive duration the percentage never decreases when the
    total grows, and [top] has the greatest total up to the rounding: when
    the totals are at most [2^43], no slice has a total that exceeds the
    total of [top] by one hundredth of the duration; in general, by one
    hundredth of the duration and [2^-51] of the two totals. *)
Theorem top_has_nearly_greatest_total (profile : IExtensionHostProfile)
    (top : NamedSlice) :
  let duration := endTime profile - startTime profile in
  aligned profile → 0 < duration →
  snd (analyse profile) = Some top →
  (∀ s1 s2, s1 ∈ fst (analyse profile) → s2 ∈ fst (analyse profile) →
     NamedSlice.total s1 <= NamedSlice.total s2 →
     js_lt (NamedSlice.percentage s2) (NamedSlice.percentage s1) = false)
  ∧ (∀ s, s ∈ fst (analyse profile) →
       Z.abs (NamedSlice.total s) <= 8796093022208 →
       Z.abs (NamedSlice.total top) <= 8796093022208 →
       100 * (NamedSlice.total s - NamedSlice.total top) < duration)
  ∧ (∀ s, s ∈ fst (analyse profile) →
       2251799813685248
       * (100 * (NamedSlice.total s - NamedSlice.total top) - duration)
       < 100 * (Z.abs (NamedSlice.total s) + Z.abs (NamedSlice.total top))).
Proof.
  intros duration _ Hd. rewrite analyse_values. cbn [fst snd]. fold duration.
  intros Hpick. assert (duration ≠ 0) as Hd0 by lia.
  destruct (pick_elem _ _ Hpick) as [Htop Hmax].
  destruct (rated_share _ _ _ Hd0 Htop) as [Hpt _].
  split; [|split].
  - intros s1 s2 H1 H2 Hle.
    destruct (rated_share _ _ _ Hd0 H1) as [-> _].
    destruct (rated_share _ _ _ Hd0 H2) as [-> _].
    simpl. apply Z.ltb_ge. by apply share_percent_mono.
  - intros s Hs Hsmall Htsmall. specialize (Hmax s Hs).
    destruct (rated_share _ _ _ Hd0 Hs) as [Hps _].
    rewrite Hps, Hpt in Hmax. simpl in Hmax. apply Z.ltb_ge in Hmax.
    destruct (Z.le_gt_cases (NamedSlice.total s) (NamedSlice.total top))
      as [Hle|Hgt]; [lia|].
    pose proof (share_percent_mono (NamedSlice.total top) (NamedSlice.total s)
                  duration Hd ltac:(lia)) as Hmono.
    destruct (share_nearest (NamedSlice.total s) duration Hd Hsmall) as [Hns _].
    destruct (share_nearest (NamedSlice.total top) duration Hd Htsmall) as [Hnt _].
    destruct (Z.eq_dec (100 * (NamedSlice.total s - NamedSlice.total top)) duration)
      as [Heq|Hne].
    + pose proof (share_hundreds (NamedSlice.total s) duration Hd Hsmall) as Hh.
      specialize (Hh ltac:(exists (NamedSlice.total s - NamedSlice.total top); lia)).
      set (zs := share_percent (NamedSlice.total s) duration) in *.
      set (zt := share_percent (NamedSlice.total top) duration) in *.
      clearbody zs zt. assert (zs = zt) as -> by lia. exfalso.
      assert (200 * NamedSlice.total s = 2 * zt * duration + duration) as Hup by lia.
      assert ((200 * NamedSlice.total s + duration) / (2 * duration) = zt + 1)
        as Hdiv.
      { symmetry. apply (Z.div_unique _ _ (zt + 1) 0); lia. }
      lia.
    + set (zs := share_percent (NamedSlice.total s) duration) in *.
      set (zt := share_percent (NamedSlice.total top) duration) in *.
      clearbody zs zt. assert (zs = zt) as -> by lia. lia.
  - intros s Hs. specialize (Hmax s Hs).
    destruct (rated_share _ _ _ Hd0 Hs) as [Hps _].
    rewrite Hps, Hpt in Hmax. simpl in Hmax. apply Z.ltb_ge in Hmax.
    destruct (share_bounds (NamedSlice.total s) duration Hd) as [_ Hbs].
    destruct (share_bounds (NamedSlice.total top) duration Hd) as [Hat _].
    assert (share_percent (NamedSlice.total s) duration * duration
            <= share_percent (NamedSlice.total top) duration * duration) as Hzd
      by (apply Z.mul_le_mono_nonneg_r; lia).
    lia.
Qed.

Lemma top_has_nearly_greatest_total_witness :
  aligned scenario_one
  ∧ 0 < endTime scenario_one - startTime scenario_one
  ∧ snd (analyse scenario_one) = Some (NamedSlice.mk "ext.a" 5500000 (Finite 92))
  ∧ 100 * (500000 - 5500000) < 6000000.
Proof.
  split; [reflexivity|]. split; [reflexivity|].
  assert (snd (analyse scenario_one)
          = Some (NamedSlice.mk "ext.a" 5500000 (Finite 92))) as Htop
    by (by vm_compute).
  split; [exact Htop|].
  apply (proj1 (proj2 (top_has_nearly_greatest_total scenario_one
                         (NamedSlice.mk "ext.a" 5500000 (Finite 92))
                         ltac:(reflexivity) ltac:(reflexivity) Htop))
           (NamedSlice.mk "ext.b" 500000 (Finite 8))).
  - replace (analyse scenario_one).1
      with [NamedSlice.mk "ext.a" 5500000 (Finite 92);
            NamedSlice.mk "ext.b" 500000 (Finite 8)] by (by vm_compute).
    right. left.
  - by vm_compute.
  - by vm_compute.
Defined.

(** X5.  When no delta is negative and the deltas add up to at most the
    (positive) duration, every percentage is a whole number from 0 to 100. *)
Theorem percentages_within_range (profile : IExtensionHostProfile) :
  let duration := endTime profile - startTime profile in
  aligned profile → 0 < duration →
  Forall (λ x, 0 <= x) (deltas profile) → sumZ (deltas profile) <= duration →
  ∀ s, s ∈ fst (analyse profile) →
    ∃ z : Z, NamedSlice.percentage s = Finite z ∧ 0 <= z <= 100.
Proof.
  intros duration Hal Hd Hpos Hsum s. rewrite analyse_values. cbn [fst].
  fold duration. intros Hs. assert (duration ≠ 0) as Hd0 by lia.
  destruct (rated_total_bounds profile _ _ Hal Hpos Hd0 Hs) as [Hp Ht].
  eexists. split; [exact Hp|]. apply share_range; lia.
Qed.

Lemma percentages_within_range_witness :
  aligned scenario_one
  ∧ 0 < endTime scenario_one - startTime scenario_one
  ∧ Forall (λ x, 0 <= x) (deltas scenario_one)
  ∧ sumZ (deltas scenario_one) <= endTime scenario_one - startTime scenario_one
  ∧ ∃ z : Z, Finite 8 = Finite z ∧ 0 <= z <= 100.
Proof.
  split; [reflexivity|]. split; [reflexivity|].
  assert (Forall (λ x, 0 <= x) (deltas scenario_one)) as Hpos
    by (repeat constructor; discriminate).
  split; [exact Hpos|].
  assert (sumZ (deltas scenario_one)
          <= endTime scenario_one - startTime scenario_one) as Hsum
    by discriminate.
  split; [exact Hsum|].
  apply (percentages_within_range scenario_one ltac:(reflexivity)
           ltac:(reflexivity) Hpos Hsum (NamedSlice.mk "ext.b" 500000 (Finite 8))).
  replace (analyse scenario_one).1
    with [NamedSlice.mk "ext.a" 5500000 (Finite 92);
          NamedSlice.mk "ext.b" 500000 (Finite 8)] by (by vm_compute).
  right. left.
Defined.

Lemma rounded_sum (d : Z) (l : list NamedSlice) :
  0 < d → Forall (λ s, 0 <= NamedSlice.total s) l →
  let zs := (λ s, share_percent (NamedSlice.total s) d) <$> l in
  let n := Z.of_nat (length l) in
  2251799813685248 * (2 * d * sumZ zs - n * d)
  <= 2251799813685249 * (200 * sumZ (NamedSlice.total <$> l))
  ∧ 2251799813685247 * (200 * sumZ (NamedSlice.total <$> l))
    <= 2251799813685248 * (2 * d * sumZ zs + n * d).
Proof.
  intros Hd Hall. induction Hall as [|x l Hx Hall IH]; [simpl; lia|].
  cbv zeta in *. csimpl. rewrite Nat2Z.inj_succ.
  destruct (share_bounds (NamedSlice.total x) d Hd) as [Ha Hb].
  rewrite Z.abs_eq in Ha, Hb by done.
  generalize dependent (share_percent (NamedSlice.total x) d). intros z Ha Hb.
  lia.
Qed.

Lemma rounded_sum_small (d : Z) (l : list NamedSlice) :
  0 < d → Forall (λ s, Z.abs (NamedSlice.total s) <= 8796093022208) l →
  let zs := (λ s, share_percent (NamedSlice.total s) d) <$> l in
  let n := Z.of_nat (length l) in
  2 * d * sumZ zs - n * d
  <= 200 * sumZ (NamedSlice.total <$> l)
  <= 2 * d * sumZ zs + n * d.
Proof.
  intros Hd Hall. induction Hall as [|x l Hx Hall IH]; [simpl; lia|].
  cbv zeta in *. csimpl. rewrite Nat2Z.inj_succ.
  destruct (share_nearest (NamedSlice.total x) d Hd Hx) as [Hn _].
  generalize dependent (share_percent (NamedSlice.total x) d). intros z Hn.
  lia.
Qed.

(** X6.  For a positive duration and deltas that are not negative the
    percentages are whole numbers whose sum differs from
    [100 * (sum of the deltas) / duration] by at most half the number of
    slices when the deltas add up to at most [2^43], and by [2^-51] of that
    quotient more in general; when the deltas add up to the duration, the
    percentages add up to 100 within half the number of slices, and not
    always to 100. *)
Theorem percentages_add_up (profile : IExtensionHostProfile) :
  let duration := endTime profile - startTime profile in
  let n := Z.of_nat (length (fst (analyse profile))) in
  aligned profile → 0 < duration → Forall (λ x, 0 <= x) (deltas profile) →
  ∃ zs : list Z,
    NamedSlice.percentage <$> fst (analyse profile) = Finite <$> zs
    ∧ (sumZ (deltas profile) <= 8796093022208 →
       2 * duration * sumZ zs - n * duration
       <= 200 * sumZ (deltas profile)
       <= 2 * duration * sumZ zs + n * duration)
    ∧ 2251799813685248 * (2 * duration * sumZ zs - n * duration)
      <= 2251799813685249 * (200 * sumZ (deltas profile))
    ∧ 2251799813685247 * (200 * sumZ (deltas profile))
      <= 2251799813685248 * (2 * duration * sumZ zs + n * duration)
    ∧ (sumZ (deltas profile) = duration → 200 - n <= 2 * sumZ zs <= 200 + n).
Proof.
  intros duration n Hal Hd Hpos. unfold n. clear n.
  rewrite analyse_values. cbn [fst]. fold duration.
  assert (duration ≠ 0) as Hd0 by lia.
  exists ((λ s, share_percent (NamedSlice.total s) duration) <$> merged profile).
  split.
  { rewrite <- !list_fmap_compose. apply list_fmap_ext. intros _ s _. simpl.
    by rewrite js_div_unit. }
  assert (∀ s, s ∈ merged profile →
            0 <= NamedSlice.total s <= sumZ (deltas profile)) as Hrange.
  { intros s Hs. rewrite (merged_total profile s Hal Hs).
    by apply delta_sum_bounds. }
  assert (Forall (λ s, 0 <= NamedSlice.total s) (merged profile)) as Hall.
  { apply Forall_forall. intros s Hs. by apply Hrange. }
  destruct (rounded_sum duration (merged profile) Hd Hall) as [H1 H2].
  rewrite merged_sum, sum_candidates in H1, H2 by done.
  rewrite length_fmap. split; [|split; [exact H1|split; [exact H2|]]].
  - intros Hsmall.
    assert (Forall (λ s, Z.abs (NamedSlice.total s) <= 8796093022208)
              (merged profile)) as Hall'.
    { apply Forall_forall. intros s Hs. specialize (Hrange s Hs). lia. }
    pose proof (rounded_sum_small duration (merged profile) Hd Hall') as H.
    cbv zeta in H. by rewrite merged_sum, sum_candidates in H.
  - intros Heq. rewrite Heq in H1, H2.
    generalize dependent (sumZ ((λ s, share_percent (NamedSlice.total s) duration)
                                <$> merged profile)).
    intros S H1 H2. nia.
Qed.

Lemma percentages_add_up_witness :
  aligned scenario_one
  ∧ 0 < endTime scenario_one - startTime scenario_one
  ∧ Forall (λ x, 0 <= x) (deltas scenario_one)
  ∧ ∃ zs : list Z,
      NamedSlice.percentage <$> fst (analyse scenario_one) = Finite <$> zs.
Proof.
  split; [reflexivity|]. split; [reflexivity|].
  assert (Forall (λ x, 0 <= x) (deltas scenario_one)) as Hpos
    by (repeat constructor; discriminate).
  split; [exact Hpos|].
  destruct (percentages_add_up scenario_one ltac:(reflexivity) ltac:(reflexivity)
              Hpos)
    as (zs & Hzs & _).
  exists zs. exact Hzs.
Defined.

Lemma pick_keeps (l : list NamedSlice) (t : NamedSlice) :
  (∀ s, s ∈ l →
     js_lt (NamedSlice.percentage t) (NamedSlice.percentage s) = false) →
  fold_left pick_step l (Some t) = Some t.
Proof.
  induction l as [|x l IH]; intros Hall; [done|]. simpl.
  rewrite (Hall x) by left. apply IH. intros s Hs. apply Hall. by right.
Qed.

(** X7.  When the two timestamps coincide no percentage is a number: it is
    [Infinity], [-Infinity] or [NaN] as the total is positive, negative or
    zero.  If no delta is negative, [top] is then the first slice of the
    merged list, the one with the least id, whatever the totals are. *)
Theorem zero_duration_percentages (profile : IExtensionHostProfile) :
  aligned profile → endTime profile = startTime profile →
  (∀ s, s ∈ fst (analyse profile) →
     NamedSlice.percentage s
     = match NamedSlice.total s ?= 0 with
       | Gt => PosInfinity
       | Lt => NegInfinity
       | Eq => NaN
       end)
  ∧ (Forall (λ x, 0 <= x) (deltas profile) →
     snd (analyse profile) = head (fst (analyse profile))).
Proof.
  intros Hal Heq. rewrite analyse_values. cbn [fst snd].
  replace (endTime profile - startTime profile) with 0 by lia.
  rewrite percentage_unit_zero.
  assert (∀ s, s ∈ rate 0%Q <$> merged profile →
            NamedSlice.percentage s
            = match NamedSlice.total s ?= 0 with
              | Gt => PosInfinity
              | Lt => NegInfinity
              | Eq => NaN
              end
            ∧ ∃ s0, s0 ∈ merged profile
                    ∧ NamedSlice.total s = NamedSlice.total s0
                    ∧ NamedSlice.id s = NamedSlice.id s0) as Hpct.
  { intros s (s0 & -> & Hs0)%list_elem_of_fmap. split; [|by exists s0].
    unfold rate, js_div. simpl. by destruct (NamedSlice.total s0 ?= 0). }
  split; [intros s Hs; by apply Hpct|].
  intros Hpos. destruct (rate _ <$> merged profile) as [|x l] eqn:Hl; [done|].
  simpl. apply pick_keeps. intros s Hs.
  destruct (Hpct x ltac:(left)) as (Hx & x0 & Hx0 & Htx & _).
  pose proof (merged_total profile x0 Hal Hx0) as Htot.
  pose proof (delta_sum_bounds (NamedSlice.id x0) profile Hpos) as Hb.
  rewrite Hx. destruct (NamedSlice.total x ?= 0) eqn:Hc.
  - done.
  - change (NamedSlice.total x < 0) in Hc. lia.
  - by destruct (NamedSlice.percentage s).
Qed.

Lemma zero_duration_percentages_witness :
  aligned scenario_zero_duration
  ∧ endTime scenario_zero_duration = startTime scenario_zero_duration
  ∧ snd (analyse scenario_zero_duration)
    = head (fst (analyse scenario_zero_duration)).
Proof.
  split; [reflexivity|]. split; [reflexivity|].
  apply (zero_duration_percentages scenario_zero_duration
           ltac:(reflexivity) ltac:(reflexivity)).
  repeat constructor. discriminate.
Defined.

(** X8.  For a positive duration and a total of [top] of at most [2^43]
    the prompt is shown exactly when that total is at least 98.5 per cent
    of the duration and at least 5000000.  For any total the threshold of
    98.5 per cent holds up to a factor of [2^-51]; a total beyond [2^43]
    and below 98.5 per cent of the duration can prompt. *)
Theorem prompt_closed_form (profile : IExtensionHostProfile) (top : NamedSlice) :
  let duration := endTime profile - startTime profile in
  aligned profile → 0 < duration →
  snd (analyse profile) = Some top →
  (NamedSlice.total top <= 8796093022208 →
   prompt_warranted top = true
   ↔ 197 * duration <= 200 * NamedSlice.total top
     ∧ 5000000 <= NamedSlice.total top)
  ∧ (prompt_warranted top = true →
     2251799813685248 * (197 * duration)
     <= 2251799813685249 * (200 * NamedSlice.total top)
     ∧ 5000000 <= NamedSlice.total top)
  ∧ (2251799813685248 * (197 * duration)
     <= 2251799813685247 * (200 * NamedSlice.total top)
     ∧ 5000000 <= NamedSlice.total top →
     prompt_warranted top = true).
Proof.
  intros duration _ Hd. rewrite analyse_values. cbn [snd]. fold duration.
  intros Hpick. destruct (pick_elem _ _ Hpick) as [Htop _].
  assert (duration ≠ 0) as Hd0 by lia.
  destruct (rated_share _ _ _ Hd0 Htop) as [Hp _].
  rewrite prompt_warranted_iff, Hp. simpl. rewrite Z.leb_le.
  split; [|split].
  - intros Hsmall. split.
    + intros [Hz Ht]. split; [|done].
      by apply (share_threshold_small (NamedSlice.total top) duration Hd ltac:(lia)).
    + intros [Hz Ht]. split; [|done].
      by apply (share_threshold_small (NamedSlice.total top) duration Hd ltac:(lia)).
  - intros [Hz Ht]. split; [|done].
    by apply (share_threshold (NamedSlice.total top) duration Hd ltac:(lia)).
  - intros [Hz Ht]. split; [|done].
    by apply (share_threshold (NamedSlice.total top) duration Hd ltac:(lia)).
Qed.

Lemma prompt_closed_form_witness :
  aligned scenario_two
  ∧ 0 < endTime scenario_two - startTime scenario_two
  ∧ snd (analyse scenario_two) = Some (NamedSlice.mk "ext.c" 9900000 (Finite 99))
  ∧ (prompt_warranted (NamedSlice.mk "ext.c" 9900000 (Finite 99)) = true
     ↔ 197 * 10000000 <= 200 * 9900000 ∧ 5000000 <= 9900000).
Proof.
  split; [reflexivity|]. split; [reflexivity|].
  assert (snd (analyse scenario_two)
          = Some (NamedSlice.mk "ext.c" 9900000 (Finite 99))) as Htop
    by (by vm_compute).
  split; [exact Htop|].
  apply (proj1 (prompt_closed_form scenario_two
                  (NamedSlice.mk "ext.c" 9900000 (Finite 99))
                  ltac:(reflexivity) ltac:(reflexivity) Htop)).
  by vm_compute.
Defined.

(** The total of [scenario_near_half] is below 98.5 per cent of the
    duration, and the prompt is shown. *)
Example prompt_below_the_threshold :
  snd (analyse scenario_near_half)
  = Some (NamedSlice.mk "ext.a" 54151212012943 (Finite 99))
  ∧ prompt_warranted (NamedSlice.mk "ext.a" 54151212012943 (Finite 99)) = true
  ∧ 200 * 54151212012943 < 197 * (endTime scenario_near_half
                                   - startTime scenario_near_half).
Proof. by vm_compute. Qed.

Example percentages_of_thirds :
  NamedSlice.percentage <$> fst (analyse scenario_thirds)
  = [Finite 33; Finite 33; Finite 33].
Proof. reflexivity. Qed.

(** * Further properties of the report *)

Lemma analyse_empty (profile : IExtensionHostProfile) :
  ids profile = [] → analyse profile = ([], None).
Proof.
  intros Hids. rewrite analyse_values. by rewrite (proj2 (merged_nil profile) Hids).
Qed.

Lemma analyse_top (profile : IExtensionHostProfile) :
  ids profile ≠ [] → ∃ top, snd (analyse profile) = Some top.
Proof.
  intros Hids. rewrite analyse_values. cbn [snd]. apply pick_nonempty.
  intros Hnil%fmap_nil_inv. by apply merged_nil in Hnil.
Qed.

(** X9.  Processing a profile reports nothing (no profile for the
    extensions view, no prompt, no file, no warning, no telemetry event) in
    exactly two cases.  Either the profile has no sample: then
    [getExtension] is not called either.  Or [getExtension], called once
    with the id of the top slice, which is an id of the profile, answers
    with no extension. *)
Theorem processing_is_silent_iff (env : Env) (profile : IExtensionHostProfile) :
  (_processCpuProfile env profile = []
   ↔ ids profile = []
     ∨ ∃ top, snd (analyse profile) = Some top
              ∧ getExtension_calls profile = [NamedSlice.id top]
              ∧ getExtension env (NamedSlice.id top) = None)
  ∧ (getExtension_calls profile = [] ↔ ids profile = [])
  ∧ (∀ i, i ∈ getExtension_calls profile → i ∈ ids profile).
Proof.
  split; [split|split; [split|]].
  - intros Hnil. destruct (ids profile) as [|i l] eqn:Hids; [by left|]. right.
    destruct (analyse_top profile) as [top Htop]; [by rewrite Hids|].
    exists top. split; [done|]. split; [unfold getExtension_calls; by rewrite Htop|].
    destruct (getExtension env (NamedSlice.id top)) as [extension|] eqn:Hext;
      [|done].
    by rewrite (processed_effects env profile top extension Htop Hext) in Hnil.
  - intros [Hids|(top & Htop & _ & Hext)].
    + unfold _processCpuProfile. by rewrite (analyse_empty profile Hids).
    + unfold _processCpuProfile. destruct (analyse profile) as [data_ top'].
      simpl in Htop. subst top'. by rewrite Hext.
  - intros Hnil. destruct (ids profile) as [|i l] eqn:Hids; [done|].
    destruct (analyse_top profile) as [top Htop]; [by rewrite Hids|].
    unfold getExtension_calls in Hnil. by rewrite Htop in Hnil.
  - intros Hids. unfold getExtension_calls.
    by rewrite (analyse_empty profile Hids).
  - intros i. unfold getExtension_calls. rewrite analyse_values. cbn [snd].
    destruct (pick _) as [top|] eqn:Hpick; [|by intros ?%elem_of_nil].
    intros ->%list_elem_of_singleton.
    destruct (pick_elem _ _ Hpick) as [(s0 & -> & Hs0)%list_elem_of_fmap _].
    simpl. apply merged_ids, list_elem_of_fmap. eauto.
Qed.

Example lookup_of_unknown_extension :
  getExtension_calls scenario_two = ["ext.c"%string]
  ∧ getExtension host_unknown "ext.c" = None
  ∧ _processCpuProfile host_unknown scenario_two = [].
Proof. by vm_compute. Qed.

(** X10.  When the payload cannot be written the callback ends there: the
    warning is not logged and the telemetry event is not sent, although the
    profile has been handed to the extensions view, the user has been
    prompted if the prompt is warranted, and the write was the last call. *)
Theorem failed_write_loses_telemetry (env : Env) (profile : IExtensionHostProfile)
    (top : NamedSlice) (extension : IExtensionDescription) :
  snd (analyse profile) = Some top →
  getExtension env (NamedSlice.id top) = Some extension →
  writeFile_ok env = false →
  Forall (λ e, is_report e = false) (_processCpuProfile env profile)
  ∧ head (_processCpuProfile env profile)
    = Some (SetUnresponsiveProfile (IExtensionDescription.id extension) profile)
  ∧ last (_processCpuProfile env profile)
    = Some (WriteFile (tmpdir env ++ "/exthost-" ++ random_hex env ++ ".cpuprofile")
              (data profile))
  ∧ ((∃ name seconds uuid,
        NotificationPrompt name seconds uuid ∈ _processCpuProfile env profile)
     ↔ prompt_warranted top = true).
Proof.
  intros Htop Hext Hw.
  rewrite (processed_effects env profile top extension Htop Hext), Hw.
  destruct (prompt_warranted top); simpl.
  - split; [by repeat constructor|]. split; [done|]. split; [done|].
    split; [done|]. intros _. eexists _, _, _. right. left.
  - split; [by repeat constructor|]. split; [done|]. split; [done|].
    split; [|done]. intros (name & seconds & uuid & Hin). set_solver.
Qed.

Lemma failed_write_loses_telemetry_witness :
  snd (analyse scenario_two) = Some (NamedSlice.mk "ext.c" 9900000 (Finite 99))
  ∧ getExtension host_disk_full "ext.c"
    = Some (IExtensionDescription.mk "ext.c" None "ext.c")
  ∧ writeFile_ok host_disk_full = false
  ∧ Forall (λ e, is_report e = false) (_processCpuProfile host_disk_full scenario_two).
Proof.
  split; [reflexivity|]. split; [reflexivity|]. split; [reflexivity|].
  apply (failed_write_loses_telemetry host_disk_full scenario_two
           (NamedSlice.mk "ext.c" 9900000 (Finite 99))
           (IExtensionDescription.mk "ext.c" None "ext.c")
           ltac:(reflexivity) ltac:(reflexivity) ltac:(reflexivity)).
Defined.

(** X11.  The telemetry event carries the merged slices: its [data] are in
    strictly ascending order of id, hold exactly the ids of the profile, and
    their totals add up to the sum of all deltas; its [duration] is
    [endTime - startTime]; and the extension that was looked up is one whose
    id occurs in the profile. *)
Theorem telemetry_carries_the_merge (env : Env) (profile : IExtensionHostProfile)
    (uuid : string) (duration : Z) (data_ : list NamedSlice) (prompt : bool) :
  aligned profile →
  PublicLog uuid duration data_ prompt ∈ _processCpuProfile env profile →
  uuid = generateUuid env
  ∧ duration = endTime profile - startTime profile
  ∧ StronglySorted slice_lt data_
  ∧ (∀ i, i ∈ NamedSlice.id <$> data_ ↔ i ∈ ids profile)
  ∧ sumZ (NamedSlice.total <$> data_) = sumZ (deltas profile)
  ∧ ∃ top, top ∈ data_ ∧ NamedSlice.id top ∈ ids profile
           ∧ is_Some (getExtension env (NamedSlice.id top))
           ∧ prompt = prompt_warranted top.
Proof.
  intros Hal Hin.
  destruct (ids profile) as [|i0 l0] eqn:Hids.
  { unfold _processCpuProfile in Hin. rewrite (analyse_empty profile Hids) in Hin.
    by apply elem_of_nil in Hin. }
  destruct (analyse_top profile) as [top Htop]; [by rewrite Hids|].
  rewrite <- Hids in *. clear Hids i0 l0.
  destruct (getExtension env (NamedSlice.id top)) as [extension|] eqn:Hext.
  2:{ assert (_processCpuProfile env profile = []) as Hnil.
      { unfold _processCpuProfile. destruct (analyse profile) as [d0 top'].
        simpl in Htop. subst top'. by rewrite Hext. }
      rewrite Hnil in Hin. by apply elem_of_nil in Hin. }
  rewrite (processed_effects env profile top extension Htop Hext) in Hin.
  assert (uuid = generateUuid env
          ∧ duration = endTime profile - startTime profile
          ∧ data_ = fst (analyse profile)
          ∧ prompt = prompt_warranted top) as (-> & -> & -> & ->).
  { destruct (prompt_warranted top), (writeFile_ok env); simpl in Hin;
      repeat (apply elem_of_cons in Hin as [Hin|Hin]; [try done|]);
      try (by apply elem_of_nil in Hin); by injection Hin as -> -> -> ->. }
  destruct (analyse_merged profile) as [Hi Ht].
  split; [done|]. split; [done|].
  split; [rewrite analyse_values; apply rated_sorted, merged_sorted|].
  split; [intros i; by rewrite Hi, merged_ids|].
  split; [by rewrite Ht, merged_sum, sum_candidates|].
  exists top. rewrite analyse_values in Htop |- *. cbn [fst snd] in *.
  destruct (pick_elem _ _ Htop) as [Hmem _]. split; [done|].
  split; [|by rewrite Hext].
  apply list_elem_of_fmap in Hmem as (s0 & -> & Hs0). simpl.
  apply merged_ids, list_elem_of_fmap. eauto.
Qed.

Lemma telemetry_carries_the_merge_witness :
  aligned scenario_two
  ∧ PublicLog "uuid" 10000000 [NamedSlice.mk "ext.c" 9900000 (Finite 99)] true
    ∈ _processCpuProfile host scenario_two
  ∧ sumZ (NamedSlice.total <$> [NamedSlice.mk "ext.c" 9900000 (Finite 99)])
    = sumZ (deltas scenario_two).
Proof.
  split; [reflexivity|].
  assert (PublicLog "uuid" 10000000 [NamedSlice.mk "ext.c" 9900000 (Finite 99)] true
          ∈ _processCpuProfile host scenario_two) as Hin.
  { replace (_processCpuProfile host scenario_two)
      with [SetUnresponsiveProfile "ext.c" scenario_two;
            NotificationPrompt "ext.c" 10 "uuid";
            WriteFile "/tmp/exthost-a1b2c3.cpuprofile" "{}";
            LogWarn "ext.c" (Finite 99) 10000000 "/tmp/exthost-a1b2c3.cpuprofile"
              [NamedSlice.mk "ext.c" 9900000 (Finite 99)];
            PublicLog "uuid" 10000000 [NamedSlice.mk "ext.c" 9900000 (Finite 99)] true]
      by reflexivity.
    do 4 right. left. }
  split; [exact Hin|].
  apply (telemetry_carries_the_merge host scenario_two _ _ _ _
           ltac:(reflexivity) Hin).
Defined.

Example processed_unknown_extension :
  _processCpuProfile host_unknown scenario_two = [].
Proof. reflexivity. Qed.

(** * Further properties of the session table *)

Lemma tokens_distinct (st : state) (a b : ICpuProfilerTarget)
    (ta tb : CancellationTokenSource) :
  consistent st →
  _session st !! a = Some ta → _session st !! b = Some tb → a ≠ b → ta ≠ tb.
Proof.
  intros (H1 & H2 & H3) Ha Hb Hne ->.
  destruct (H2 _ _ Ha) as [p Hp]. destruct (H2 _ _ Hb) as [q Hq]. congruence.
Qed.

(** X12.  Every target with an entry has a token of its own.  A
    "responsive" event for a target with an entry calls [cancel] on that
    token and on no other, and removes nothing: the table and the suspended
    calls stay, and the tokens of the other targets are cancelled exactly if
    they were before. *)
Theorem cancel_is_per_target (st : state) :
  reachable st →
  (∀ a b ta tb,
     _session st !! a = Some ta → _session st !! b = Some tb → a ≠ b → ta ≠ tb)
  ∧ (∀ a ta,
       _session st !! a = Some ta →
       ∃ st', step (Event a true true) st = Some st'
              ∧ _session st' = _session st
              ∧ suspended st' = suspended st
              ∧ cancelled st' = {[ta]} ∪ cancelled st
              ∧ trace st' = trace st ++ [Cancel ta]
              ∧ ∀ b tb, b ≠ a → _session st !! b = Some tb →
                        (tb ∈ cancelled st' ↔ tb ∈ cancelled st)).
Proof.
  intros Hr. pose proof (reachable_consistent st Hr) as Hc. split.
  - intros a b ta tb. by apply tokens_distinct.
  - intros a ta Ha. eexists. simpl. unfold on_event. simpl. rewrite Ha.
    split; [done|]. simpl. do 4 (split; [done|]).
    intros b tb Hne Hb.
    assert (tb ≠ ta) by (eapply (tokens_distinct st b a); done).
    set_solver.
Qed.

Lemma cancel_is_per_target_witness :
  reachable (on_event 7%nat true false initial)
  ∧ ∃ st', step (Event 7%nat true true) (on_event 7%nat true false initial)
           = Some st'
           ∧ _session st' = _session (on_event 7%nat true false initial).
Proof.
  assert (reachable (on_event 7%nat true false initial)) as Hr.
  { apply (reachable_step (Event 7%nat true false) initial); [constructor|done]. }
  split; [exact Hr|].
  destruct (proj2 (cancel_is_per_target _ Hr) 7%nat 0%nat ltac:(reflexivity))
    as (st' & Hstep & Hs & _).
  exists st'. split; [exact Hstep|exact Hs].
Defined.

(** X13.  Sessions of different targets do not interfere: a turn that
    belongs to one target (an event for it, or the continuation of its
    suspended call) leaves the entry, the suspended call and the token state
    of every other target as they are. *)
Theorem other_targets_untouched (st st' : state) (l : label)
    (a b : ICpuProfilerTarget) :
  reachable st → step l st = Some st' → label_target l st = Some a → b ≠ a →
  _session st' !! b = _session st !! b
  ∧ ∀ tb, _session st !! b = Some tb →
          suspended st' !! tb = suspended st !! tb
          ∧ (tb ∈ cancelled st' ↔ tb ∈ cancelled st).
Proof.
  intros Hr Hstep Hl Hne. pose proof (reachable_consistent st Hr) as Hc.
  pose proof Hc as (H1 & H2 & H3).
  assert (∀ t p q out,
            suspended st !! t = Some (a, p) →
            _session (set_pc t a q out st) !! b = _session st !! b
            ∧ ∀ tb, _session st !! b = Some tb →
                    suspended (set_pc t a q out st) !! tb = suspended st !! tb
                    ∧ (tb ∈ cancelled (set_pc t a q out st) ↔ tb ∈ cancelled st))
    as Hset.
  { intros t p q out Ht. split; [done|]. intros tb Hb. split; [|done]. simpl.
    rewrite lookup_insert_ne; [done|]. intros <-.
    destruct (H2 _ _ Hb) as [r Hr']. congruence. }
  assert (∀ t p out,
            suspended st !! t = Some (a, p) →
            _session (finish t a out st) !! b = _session st !! b
            ∧ ∀ tb, _session st !! b = Some tb →
                    suspended (finish t a out st) !! tb = suspended st !! tb
                    ∧ (tb ∈ cancelled (finish t a out st) ↔ tb ∈ cancelled st))
    as Hfin.
  { intros t p out Ht. simpl. split; [by rewrite lookup_delete_ne|].
    intros tb Hb. split; [|done].
    rewrite lookup_delete_ne; [done|]. intros <-.
    destruct (H2 _ _ Hb) as [r Hr']. congruence. }
  destruct l as [tgt c r|tok s|tok|tok|tok|tok profile env|tok];
    simpl in Hstep, Hl.
  - injection Hl as ->. injection Hstep as <-. unfold on_event.
    destruct c; simpl; [|done].
    destruct r, (_session st !! a) as [ta|] eqn:Ha; simpl; try done.
    + split; [done|]. intros tb Hb. split; [done|].
      assert (tb ≠ ta) by (eapply (tokens_distinct st b a); done). set_solver.
    + split; [by rewrite lookup_insert_ne|]. intros tb Hb. split; [|done].
      rewrite lookup_insert_ne; [done|]. intros Heq.
      destruct (H2 _ _ Hb) as [q Hq].
      assert (tb < next_token st)%nat by (apply H3; eauto). lia.
  - destruct (suspended st !! tok) as [[tgt [| |s']]|] eqn:Hq; try done.
    simpl in Hl. injection Hl as ->. injection Hstep as <-. by eapply Hset.
  - destruct (suspended st !! tok) as [[tgt [| |s']]|] eqn:Hq; try done.
    simpl in Hl. injection Hl as ->. injection Hstep as <-. by eapply Hfin.
  - destruct (suspended st !! tok) as [[tgt [| |s']]|] eqn:Hq; try done.
    destruct (decide _); [|done].
    simpl in Hl. injection Hl as ->. injection Hstep as <-. by eapply Hset.
  - destruct (suspended st !! tok) as [[tgt [| |s']]|] eqn:Hq; try done.
    simpl in Hl. injection Hl as ->. injection Hstep as <-. by eapply Hset.
  - destruct (suspended st !! tok) as [[tgt [| |s']]|] eqn:Hq; try done.
    simpl in Hl. injection Hl as ->. injection Hstep as <-. by eapply Hfin.
  - destruct (suspended st !! tok) as [[tgt [| |s']]|] eqn:Hq; try done.
    simpl in Hl. injection Hl as ->. injection Hstep as <-. by eapply Hfin.
Qed.

Lemma other_targets_untouched_witness :
  reachable initial
  ∧ step (Event 7%nat true false) initial = Some (on_event 7%nat true false initial)
  ∧ label_target (Event 7%nat true false) initial = Some 7%nat
  ∧ 8%nat ≠ 7%nat
  ∧ _session (on_event 7%nat true false initial) !! 8%nat = _session initial !! 8%nat.
Proof.
  split; [constructor|]. split; [reflexivity|]. split; [reflexivity|].
  assert (8%nat ≠ 7%nat) as Hne by discriminate.
  split; [exact Hne|].
  apply (other_targets_untouched initial _ (Event 7%nat true false) 7%nat 8%nat
           reachable_initial eq_refl eq_refl Hne).
Defined.

Lemma step_ends_rest (l : label) (token : CancellationTokenSource)
    (target : ICpuProfilerTarget) (p : pc) (st st' : state) :
  suspended st !! token = Some (target, p) → ends l token → step l st = Some st' →
  next_token st' = next_token st ∧ cancelled st' = cancelled st.
Proof.
  intros Ht He. destruct l; simpl in He; try done; subst; simpl; rewrite Ht;
    destruct p; try done; by intros [= <-].
Qed.

(** X14.  Ending a call frees its target: whichever way the call ended, the
    next "unresponsive" event for the target starts a new attempt, asks the
    target for a session again, and works with a token that no earlier call
    has had. *)
Theorem next_episode_gets_fresh_token (st st' : state) (l : label)
    (token : CancellationTokenSource) (target : ICpuProfilerTarget) (p : pc) :
  reachable st → suspended st !! token = Some (target, p) →
  step l st = Some st' → ends l token →
  ∃ st'', step (Event target true false) st' = Some st''
          ∧ _session st'' !! target = Some (next_token st')
          ∧ suspended st'' !! next_token st' = Some (target, AwaitStart)
          ∧ suspended st'' !! token = None
          ∧ (token < next_token st')%nat
          ∧ trace st'' = trace st' ++ [StartExtensionHostProfile target].
Proof.
  intros Hr Ht Hstep He. pose proof (reachable_consistent st Hr) as (H1 & H2 & H3).
  destruct (step_ends_deletes l token target p st st' Ht He Hstep) as [Hs Hsus].
  destruct (step_ends_rest l token target p st st' Ht He Hstep) as [Hn _].
  assert (token < next_token st)%nat as Hlt by (apply H3; eauto).
  assert (_session st' !! target = None) as Hfree
    by (rewrite Hs; apply lookup_delete_eq).
  eexists. split; [reflexivity|]. rewrite on_event_fresh by done. simpl.
  rewrite !lookup_insert_eq. do 2 (split; [done|]).
  rewrite lookup_insert_ne by lia. rewrite Hsus, lookup_delete_eq, Hn. done.
Qed.

Lemma next_episode_gets_fresh_token_witness :
  reachable (on_event 7%nat true false initial)
  ∧ suspended (on_event 7%nat true false initial) !! 0%nat
    = Some (7%nat, AwaitStart)
  ∧ step (StartRejected 0%nat) (on_event 7%nat true false initial)
    = Some (finish 0%nat 7%nat [] (on_event 7%nat true false initial))
  ∧ ends (StartRejected 0%nat) 0%nat
  ∧ ∃ st'', step (Event 7%nat true false)
                 (finish 0%nat 7%nat [] (on_event 7%nat true false initial))
            = Some st''
            ∧ _session st'' !! 7%nat = Some 1%nat.
Proof.
  assert (reachable (on_event 7%nat true false initial)) as Hr.
  { apply (reachable_step (Event 7%nat true false) initial); [constructor|done]. }
  split; [exact Hr|]. split; [reflexivity|]. split; [reflexivity|].
  split; [reflexivity|].
  destruct (next_episode_gets_fresh_token _ _ (StartRejected 0%nat) 0%nat 7%nat
              AwaitStart Hr eq_refl eq_refl eq_refl)
    as (st'' & Hstep & Hs & _).
  exists st''. split; [exact Hstep|exact Hs].
Defined.

Lemma count_app (f : effect → bool) (t1 t2 : list effect) :
  count f (t1 ++ t2) = (count f t1 + count f t2)%nat.
Proof. unfold count. by rewrite List.filter_app, length_app. Qed.

Lemma processed_no_handler_call (env : Env) (profile : IExtensionHostProfile) :
  Forall (λ e, is_handler_call e = false) (_processCpuProfile env profile).
Proof.
  unfold _processCpuProfile. destruct (analyse profile) as [data_ [top|]];
    [|constructor].
  destruct (getExtension env (NamedSlice.id top)); [|constructor].
  destruct (prompt_warranted top), (writeFile_ok env); by repeat constructor.
Qed.

Lemma count_none (f : effect → bool) (t : list effect) :
  Forall (λ e, f e = false) t → count f t = 0%nat.
Proof.
  unfold count. induction 1 as [|e t He Ht IH]; [done|]. simpl. by rewrite He.
Qed.

Lemma processed_counts (env : Env) (profile : IExtensionHostProfile) :
  count is_start (_processCpuProfile env profile) = 0%nat
  ∧ count is_stop (_processCpuProfile env profile) = 0%nat
  ∧ count is_error (_processCpuProfile env profile) = 0%nat
  ∧ ∀ token, Cancel token ∉ _processCpuProfile env profile.
Proof.
  pose proof (processed_no_handler_call env profile) as H.
  repeat split.
  - apply count_none. eapply Forall_impl; [exact H|]. by intros [].
  - apply count_none. eapply Forall_impl; [exact H|]. by intros [].
  - apply count_none. eapply Forall_impl; [exact H|]. by intros [].
  - intros token Hin. rewrite Forall_forall in H. by specialize (H _ Hin).
Qed.

(** What a continuation of a suspended call adds to the trace. *)
Lemma step_continuation (l : label) (st st' : state) :
  step l st = Some st' →
  (∀ target c r, l ≠ Event target c r) →
  ∃ out, trace st' = trace st ++ out
         ∧ next_token st' = next_token st
         ∧ cancelled st' = cancelled st
         ∧ count is_start out = 0%nat
         ∧ ∀ token, Cancel token ∉ out.
Proof.
  intros Hstep Hl.
  destruct l as [tgt c r|tok s|tok|tok|tok|tok profile env|tok]; simpl in Hstep.
  - by destruct (Hl tgt c r).
  - destruct (suspended st !! tok) as [[tgt [| |s']]|]; try done.
    injection Hstep as <-. exists []. repeat split; try done. set_solver.
  - destruct (suspended st !! tok) as [[tgt [| |s']]|]; try done.
    injection Hstep as <-. exists []. repeat split; try done. set_solver.
  - destruct (suspended st !! tok) as [[tgt [|s'|]]|]; try done.
    destruct (decide _); [|done].
    injection Hstep as <-. exists [Stop s']. repeat split; try done. set_solver.
  - destruct (suspended st !! tok) as [[tgt [|s'|]]|]; try done.
    injection Hstep as <-. exists [Stop s']. repeat split; try done. set_solver.
  - destruct (suspended st !! tok) as [[tgt [| |s']]|]; try done.
    injection Hstep as <-. exists (_processCpuProfile env profile).
    destruct (processed_counts env profile) as (? & _ & _ & ?). done.
  - destruct (suspended st !! tok) as [[tgt [| |s']]|]; try done.
    injection Hstep as <-. exists [OnUnexpectedError].
    repeat split; try done. set_solver.
Qed.

(** X15.  There are no retries and no stray cancellations: in every
    reachable state the number of [startExtensionHostProfile] calls made so
    far is the number of tokens created, one per episode, and a token is
    cancelled exactly if [cancel] has been called on it, which only happens
    to tokens that were created. *)
Theorem one_start_per_episode (st : state) :
  reachable st →
  count is_start (trace st) = next_token st
  ∧ (∀ token, token ∈ cancelled st ↔ Cancel token ∈ trace st)
  ∧ (∀ token, token ∈ cancelled st → (token < next_token st)%nat).
Proof.
  induction 1 as [|l st st' Hr IH Hstep].
  - split; [done|]. split; [|set_solver]. intros token. simpl. set_solver.
  - destruct IH as (Hn & Hc & Hlt).
    pose proof (reachable_consistent st Hr) as (H1 & H2 & H3).
    destruct l as [tgt c r| | | | | |].
    1:{ simpl in Hstep. injection Hstep as <-. unfold on_event.
        destruct c; simpl; [|done].
        destruct r, (_session st !! tgt) as [tok|] eqn:Hs; simpl; try done.
        - rewrite count_app, Hn. split; [unfold count; simpl; lia|]. split.
          + intros token. rewrite elem_of_union, elem_of_singleton, elem_of_app,
              list_elem_of_singleton, Hc. split; intros [?|?]; eauto; try congruence.
            left. congruence.
          + intros token [->%elem_of_singleton|?]%elem_of_union; [|eauto].
            destruct (H2 _ _ Hs) as [p Hp]. apply H3. eauto.
        - rewrite count_app, Hn. split; [unfold count; simpl; lia|]. split.
          + intros token. rewrite elem_of_app, list_elem_of_singleton, Hc.
            split; [eauto|]. by intros [?|?].
          + intros token Htok. specialize (Hlt _ Htok). lia. }
    all: destruct (step_continuation _ st st' Hstep ltac:(done))
           as (out & -> & -> & -> & Hout & Hcanc).
    all: rewrite count_app, Hn, Hout; split; [lia|]; split; [|done].
    all: intros tk; rewrite elem_of_app, Hc; split; [eauto|].
    all: intros [?|?]; [done|]; by destruct (Hcanc tk).
Qed.

Lemma one_start_per_episode_witness :
  reachable (on_event 7%nat true false initial)
  ∧ count is_start (trace (on_event 7%nat true false initial))
    = next_token (on_event 7%nat true false initial).
Proof.
  assert (reachable (on_event 7%nat true false initial)) as Hr.
  { apply (reachable_step (Event 7%nat true false) initial); [constructor|done]. }
  split; [exact Hr|]. apply (one_start_per_episode _ Hr).
Defined.

Lemma count_one (f : effect → bool) (e : effect) :
  count f [e] = if f e then 1%nat else 0%nat.
Proof. unfold count. simpl. by destruct (f e). Qed.

Lemma calls_at_insert_fresh (b : bool)
    (m : gmap CancellationTokenSource (ICpuProfilerTarget * pc))
    (k : CancellationTokenSource) (v : ICpuProfilerTarget * pc) :
  m !! k = None → calls_at b (<[k := v]> m) = (calls_at b m + weight b v)%nat.
Proof.
  intros Hk. unfold calls_at, weight. rewrite map_filter_insert. simpl.
  destruct (decide (at_stop v.2 = b)) as [Hv|Hv].
  - rewrite bool_decide_eq_true_2 by done.
    rewrite map_size_insert_None; [lia|].
    apply map_lookup_filter_None_2. by left.
  - rewrite bool_decide_eq_false_2 by done. rewrite delete_id by done. lia.
Qed.

Lemma calls_at_delete (b : bool)
    (m : gmap CancellationTokenSource (ICpuProfilerTarget * pc))
    (k : CancellationTokenSource) (v : ICpuProfilerTarget * pc) :
  m !! k = Some v → calls_at b m = (calls_at b (delete k m) + weight b v)%nat.
Proof.
  intros Hk. rewrite <- (insert_delete_id m k v Hk) at 1.
  apply calls_at_insert_fresh, lookup_delete_eq.
Qed.

Lemma calls_at_update (b : bool)
    (m : gmap CancellationTokenSource (ICpuProfilerTarget * pc))
    (k : CancellationTokenSource) (v v' : ICpuProfilerTarget * pc) :
  m !! k = Some v →
  (calls_at b (<[k := v']> m) + weight b v = calls_at b m + weight b v')%nat.
Proof.
  intros Hk. rewrite <- (insert_delete_eq m).
  rewrite calls_at_insert_fresh by apply lookup_delete_eq.
  rewrite (calls_at_delete b m k v Hk). lia.
Qed.

(** X16.  The calls on a session follow each other: in every reachable
    state the sessions stopped so far, together with the calls that have not
    reached their stop, are no more than the sessions asked for; and the
    errors reported so far, together with the calls that wait for their
    stop, are no more than the sessions stopped.  So the handler never stops
    a session it did not ask for and never reports an error without a
    stop. *)
Theorem stops_and_errors_are_accounted (st : state) :
  reachable st →
  (count is_stop (trace st) + calls_at false (suspended st)
   ≤ count is_start (trace st))%nat
  ∧ (count is_error (trace st) + calls_at true (suspended st)
     ≤ count is_stop (trace st))%nat
  ∧ (count is_error (trace st) ≤ count is_stop (trace st)
     ≤ count is_start (trace st))%nat.
Proof.
  intros Hr.
  assert ((count is_stop (trace st) + calls_at false (suspended st)
           ≤ count is_start (trace st))%nat
          ∧ (count is_error (trace st) + calls_at true (suspended st)
             ≤ count is_stop (trace st))%nat) as [HA HB]; [|lia].
  induction Hr as [|l st st' Hr IH Hstep]; [split; by vm_compute|].
  destruct IH as [HA HB]. pose proof (reachable_consistent st Hr) as Hc.
  destruct l as [tgt c r|tok s|tok|tok|tok|tok profile env|tok]; simpl in Hstep.
  - injection Hstep as <-. unfold on_event. destruct c; simpl; [|done].
    destruct r, (_session st !! tgt) as [tok|] eqn:Hs; simpl; try done.
    + rewrite !count_app. rewrite !count_one. simpl. lia.
    + rewrite !count_app, !count_one. simpl.
      rewrite !calls_at_insert_fresh by by apply fresh_token.
      unfold weight. simpl. lia.
  - destruct (suspended st !! tok) as [[tgt [|s'|s']]|] eqn:Hq; try done.
    injection Hstep as <-. simpl. rewrite !app_nil_r.
    pose proof (calls_at_update true _ _ _ (tgt, AwaitWait s) Hq) as H1.
    pose proof (calls_at_update false _ _ _ (tgt, AwaitWait s) Hq) as H2.
    unfold weight in H1, H2. simpl in H1, H2. lia.
  - destruct (suspended st !! tok) as [[tgt [|s'|s']]|] eqn:Hq; try done.
    injection Hstep as <-. simpl. rewrite !app_nil_r.
    pose proof (calls_at_delete true _ _ _ Hq) as H1.
    pose proof (calls_at_delete false _ _ _ Hq) as H2.
    unfold weight in H1, H2. simpl in H1, H2. lia.
  - destruct (suspended st !! tok) as [[tgt [|s'|s']]|] eqn:Hq; try done.
    destruct (decide _); [|done]. injection Hstep as <-. simpl.
    rewrite !count_app, !count_one. simpl.
    pose proof (calls_at_update true _ _ _ (tgt, AwaitStop s') Hq) as H1.
    pose proof (calls_at_update false _ _ _ (tgt, AwaitStop s') Hq) as H2.
    unfold weight in H1, H2. simpl in H1, H2. lia.
  - destruct (suspended st !! tok) as [[tgt [|s'|s']]|] eqn:Hq; try done.
    injection Hstep as <-. simpl.
    rewrite !count_app, !count_one. simpl.
    pose proof (calls_at_update true _ _ _ (tgt, AwaitStop s') Hq) as H1.
    pose proof (calls_at_update false _ _ _ (tgt, AwaitStop s') Hq) as H2.
    unfold weight in H1, H2. simpl in H1, H2. lia.
  - destruct (suspended st !! tok) as [[tgt [|s'|s']]|] eqn:Hq; try done.
    injection Hstep as <-. simpl. rewrite !count_app.
    destruct (processed_counts env profile) as (-> & -> & -> & _).
    pose proof (calls_at_delete true _ _ _ Hq) as H1.
    pose proof (calls_at_delete false _ _ _ Hq) as H2.
    unfold weight in H1, H2. simpl in H1, H2. lia.
  - destruct (suspended st !! tok) as [[tgt [|s'|s']]|] eqn:Hq; try done.
    injection Hstep as <-. simpl.
    rewrite !count_app, !count_one. simpl.
    pose proof (calls_at_delete true _ _ _ Hq) as H1.
    pose proof (calls_at_delete false _ _ _ Hq) as H2.
    unfold weight in H1, H2. simpl in H1, H2. lia.
Qed.

Lemma stops_and_errors_are_accounted_witness :
  reachable (on_event 7%nat true false initial)
  ∧ (count is_error (trace (on_event 7%nat true false initial))
     ≤ count is_stop (trace (on_event 7%nat true false initial))
     ≤ count is_start (trace (on_event 7%nat true false initial)))%nat.
Proof.
  assert (reachable (on_event 7%nat true false initial)) as Hr.
  { apply (reachable_step (Event 7%nat true false) initial); [constructor|done]. }
  split; [exact Hr|]. apply (stops_and_errors_are_accounted _ Hr).
Defined.
